(** * ncoe: case store, case lifecycle service and dashboard aggregator

    A shallow embedding of the in-memory case repository
    ([internal/repository/mock]), of the domain records
    ([internal/domain]) and of the case and dashboard services
    ([internal/service]) of the ethics-commission case tracker, with the
    properties of case numbering, deadline computation, filtering, status
    updates and overdue classification stated against that embedding. *)

From Stdlib Require Import ZArith Lia List Ascii String.
From stdpp Require Import base option list gmap strings.

Local Open Scope Z_scope.

(** ** Go's [time] package, as far as the program uses it *)

Module time.

(** A [time.Time] is an instant and a [Location].  The instant is the
    number of nanoseconds elapsed since January 1, year 1, 00:00:00
    UTC, which is Go's zero [Time]; the monotonic clock reading that
    [time.Now] attaches is left out.  Instants compare by themselves
    ([After], [Before], [Sub], [IsZero]); the calendar methods
    ([Weekday], [Year], [AddDate]) read the wall clock of the
    [Location].  Every [Time] the program calls a calendar method on
    comes from [time.Now()] and so carries the location [Local] of the
    process; the methods below take it as an argument. *)
Definition Time := Z.
Definition Duration := Z.

Definition Second : Duration := 1000000000.
Definition Hour : Duration := 3600 * Second.
Definition nsPerDay : Z := 24 * Hour.

Definition zero : Time := 0.
Definition IsZero (t : Time) : bool := t =? 0.
Definition After (t u : Time) : bool := u <? t.
Definition Before (t u : Time) : bool := t <? u.

(** [Duration] is an int64; [Sub] saturates at its bounds. *)
Definition minDuration : Duration := - 2 ^ 63.
Definition maxDuration : Duration := 2 ^ 63 - 1.
Definition Sub (t u : Time) : Duration :=
  Z.max minDuration (Z.min maxDuration (t - u)).
(** [d.Hours() < float64(h)] for a whole number of hours [h]: the
    fractional part of [Hours] is below one, so the comparison is
    decided by the nanosecond count. *)
Definition Hours_lt (d : Duration) (h : Z) : bool := d <? h * Hour.

Inductive Weekday :=
  Sunday | Monday | Tuesday | Wednesday | Thursday | Friday | Saturday.

Definition Weekday_of_Z (n : Z) : Weekday :=
  match n with
  | 0 => Sunday | 1 => Monday | 2 => Tuesday | 3 => Wednesday
  | 4 => Thursday | 5 => Friday | _ => Saturday
  end.

(** Number of whole days since January 1, year 1 (a Monday). *)
Definition days (t : Time) : Z := t / nsPerDay.
Definition weekday_index (t : Time) : Z := (days t + 1) mod 7.
(** [absWeekday]: the weekday of a wall-clock reading. *)
Definition absWeekday (u : Z) : Weekday := Weekday_of_Z (weekday_index u).

Definition is_weekend (d : Weekday) : bool :=
  match d with Saturday | Sunday => true | _ => false end.

(** Civil date of a day number (proleptic Gregorian calendar). *)
Definition civil_from_days (d : Z) : Z * Z * Z :=
  let z := d + 306 in
  let era := z / 146097 in
  let doe := z - era * 146097 in
  let yoe := (doe - doe / 1460 + doe / 36524 - doe / 146096) / 365 in
  let doy := doe - (365 * yoe + yoe / 4 - yoe / 100) in
  let mp := (5 * doy + 2) / 153 in
  let day := doy - (153 * mp + 2) / 5 + 1 in
  let m := if mp <? 10 then mp + 3 else mp - 9 in
  let y := yoe + era * 400 + (if m <=? 2 then 1 else 0) in
  (y, m, day).

Definition days_from_civil (y m d : Z) : Z :=
  let y := if m <=? 2 then y - 1 else y in
  let era := y / 400 in
  let yoe := y - era * 400 in
  let doy := (153 * (if 2 <? m then m - 3 else m + 9) + 2) / 5 + d - 1 in
  let doe := yoe * 365 + yoe / 4 - yoe / 100 + doy in
  era * 146097 + doe - 306.

(** The year of a wall-clock reading. *)
Definition absYear (u : Z) : Z := fst (fst (civil_from_days (days u))).

(** [t.AddDate(0, 0, n)]: the same time of day, [n] calendar days on. *)
Definition AddDays (t : Time) (n : Z) : Time := t + n * nsPerDay.

(** [t.AddDate(0, n, 0)]: the month is moved by [n] and the date
    normalised the way [time.Date] does it (October 31 plus one month
    is December 1). *)
Definition AddMonths (t : Time) (n : Z) : Time :=
  let '(y, m, d) := civil_from_days (days t) in
  let m0 := m - 1 + n in
  days_from_civil (y + m0 / 12) (m0 mod 12 + 1) d * nsPerDay
    + t mod nsPerDay.

(** The wall-clock reading [years], [months] and [ds] days on, at the
    same time of day; without a shift of the month the date needs no
    normalisation. *)
Definition civil_add (u : Z) (years months ds : Z) : Z :=
  let n := 12 * years + months in
  AddDays (if n =? 0 then u else AddMonths u n) ds.

(** Seconds from the zero [Time] to January 1, 1970 UTC. *)
Definition unixToInternal : Z := 62135596800.
Definition wrap64 (n : Z) : Z := (n + 2 ^ 63) mod 2 ^ 64 - 2 ^ 63.
Definition UnixNano (t : Time) : Z := wrap64 (t - unixToInternal * Second).

(** A [Location] answers, for an instant given in Unix seconds, with
    the zone in force: its offset from UTC in seconds, and the Unix
    seconds at which the zone starts and ends ([l.lookup]). *)
Record Location := mkLocation { lookup : Z → Z * Z * Z }.

Definition alpha : Z := - 2 ^ 63.
Definition omega : Z := 2 ^ 63 - 1.
Definition UTC : Location := mkLocation (λ _, (0, alpha, omega)).

Definition unixSec (t : Time) : Z := t / Second - unixToInternal.
Definition offset_at (l : Location) (sec : Z) : Z := (lookup l sec).1.1.

(** [t.abs()]: the wall-clock reading of an instant in a location,
    written as the nanoseconds the same reading has in UTC. *)
Definition wall (l : Location) (t : Time) : Z :=
  t + offset_at l (unixSec t) * Second.

(** The end of [time.Date]: the instant of a wall-clock reading.  The
    zone is looked up at the reading taken as UTC, and once more when
    the instant found lies outside that zone. *)
Definition from_wall (l : Location) (u : Z) : Time :=
  let unix := u / Second - unixToInternal in
  let '(offset, start, end_) := lookup l unix in
  if offset =? 0 then u
  else
    let utc := unix - offset in
    let offset :=
      if (utc <? start) || (end_ <=? utc) then offset_at l utc
      else offset in
    u - offset * Second.

(** [t.Weekday()] and [t.Year()] *)
Definition Weekday_of (l : Location) (t : Time) : Weekday :=
  absWeekday (wall l t).
Definition Year (l : Location) (t : Time) : Z := absYear (wall l t).

(** [t.AddDate(years, months, ds)]: the date and the time of day are
    read off the wall clock, moved, and handed to [time.Date] with the
    location of [t]. *)
Definition AddDate (l : Location) (t : Time) (years months ds : Z) : Time :=
  from_wall l (civil_add (wall l t) years months ds).

(** [time.Date(y, m, d, hh, mm, ss, 0, time.UTC)], for examples. *)
Definition Date (y m d hh mm ss : Z) : Time :=
  days_from_civil y m d * nsPerDay + (hh * 3600 + mm * 60 + ss) * Second.

End time.


(** ** Go's [fmt] and [strings] packages, as far as the program uses them *)

Module fmt.

Definition digit_char (d : Z) : ascii :=
  match d with
  | 0 => "0" | 1 => "1" | 2 => "2" | 3 => "3" | 4 => "4"
  | 5 => "5" | 6 => "6" | 7 => "7" | 8 => "8" | _ => "9"
  end%char.

(** The digit loop of [fmt]'s integer formatting: digits are written
    from the least significant one into a buffer, here the
    accumulator.  A 64-bit integer has at most 20 digits, which bounds
    the number of rounds. *)
Fixpoint fmt_digits (rounds : nat) (u : Z) (acc : string) : string :=
  match rounds with
  | O => acc
  | S r =>
      if 10 <=? u
      then fmt_digits r (u / 10) (String (digit_char (u mod 10)) acc)
      else String (digit_char u) acc
  end.

Definition digits (u : Z) : string := fmt_digits 20 u "".

Fixpoint zeros (n : nat) : string :=
  match n with O => "" | S k => String "0"%char (zeros k) end.

(** Zero padding up to a precision: shorter digit strings get leading
    zeros, longer ones are left as they are. *)
Definition pad_zeros (prec : nat) (s : string) : string :=
  zeros (prec - String.length s) +:+ s.

(** The verb [%d]. *)
Definition fmt_d (n : Z) : string :=
  if n <? 0 then "-" +:+ digits (- n) else digits n.

(** The verb [%03d]: width 3 with the zero flag; the sign takes one
    column of the width. *)
Definition fmt_03d (n : Z) : string :=
  if n <? 0 then "-" +:+ pad_zeros 2 (digits (- n))
  else pad_zeros 3 (digits n).

(** [fmt.Sprintf("%s-%d-%03d", a, b, c)] *)
Definition Sprintf_s_d_03d (a : string) (b c : Z) : string :=
  a +:+ "-" +:+ fmt_d b +:+ "-" +:+ fmt_03d c.

(** [fmt.Sprintf("case_%d", n)] *)
Definition Sprintf_case_d (n : Z) : string := "case_" +:+ fmt_d n.

(** [fmt.Errorf("case not found: %s", id)], an error with that text. *)
Definition Errorf_case_not_found (id : string) : string :=
  "case not found: " +:+ id.

End fmt.

Module strings.

Fixpoint HasPrefix (s prefix : string) : bool :=
  match prefix, s with
  | EmptyString, _ => true
  | String _ _, EmptyString => false
  | String a p, String b t => bool_decide (a = b) && HasPrefix t p
  end.

(** [strings.Contains(s, substr)]: [substr] occurs at some position. *)
Fixpoint Contains (s substr : string) : bool :=
  HasPrefix s substr ||
  match s with
  | EmptyString => false
  | String _ t => Contains t substr
  end.

(** Lower-casing of the ASCII letters; [strings.ToLower] agrees with
    it on ASCII text. *)
Definition ascii_lower (c : ascii) : ascii :=
  let n := N_of_ascii c in
  if ((65 <=? n) && (n <=? 90))%N then ascii_of_N (n + 32) else c.

Fixpoint ascii_ToLower (s : string) : string :=
  match s with
  | EmptyString => EmptyString
  | String c t => String (ascii_lower c) (ascii_ToLower t)
  end.

End strings.


(** ** Package [domain]: the records *)

Module domain.

Abbreviation CaseType := string.
Definition CaseTypeAdvisoryOpinion : CaseType := "AO".
Definition CaseTypeEthicsComplaint : CaseType := "EC".
Definition CaseTypeEthicsAcknowledgment : CaseType := "EA".
Definition CaseTypePublicRecordsRequest : CaseType := "PRR".

Abbreviation CaseStatus := string.
Definition StatusSubmitted : CaseStatus := "submitted".
Definition StatusUnderReview : CaseStatus := "under_review".
Definition StatusInvestigation : CaseStatus := "investigation".
Definition StatusPendingHearing : CaseStatus := "pending_hearing".
Definition StatusDraftPrepared : CaseStatus := "draft_prepared".
Definition StatusPublished : CaseStatus := "published".
Definition StatusClosed : CaseStatus := "closed".
Definition StatusWithdrawn : CaseStatus := "withdrawn".

(** [Type_] is the field [Type]; the two optional instants are
    pointers in the source, [None] being nil. *)
Record Case := mkCase {
  ID : string;
  CaseNumber : string;
  Type_ : CaseType;
  Status : CaseStatus;
  SubmitterName : string;
  SubmitterTitle : string;
  SubmitterAgency : string;
  SubmitterEmail : string;
  SubmitterPhone : string;
  SubjectName : string;
  SubjectTitle : string;
  SubjectAgency : string;
  Summary : string;
  Description : string;
  StatuteCitations : string;
  SubmittedAt : time.Time;
  DueDate : time.Time;
  ClosedAt : option time.Time;
  PublishedAt : option time.Time;
  AssignedTo : string;
  AssignedToName : string;
  IsPublic : bool;
  IsConfidential : bool;
  Priority : string;
  Tags : list string;
  CreatedAt : time.Time;
  UpdatedAt : time.Time
}.

(** The zero value [domain.Case{}]. *)
Definition zero_Case : Case :=
  {| ID := ""; CaseNumber := ""; Type_ := ""; Status := ""; SubmitterName
  := ""; SubmitterTitle := ""; SubmitterAgency := ""; SubmitterEmail :=
  ""; SubmitterPhone := ""; SubjectName := ""; SubjectTitle := "";
  SubjectAgency := ""; Summary := ""; Description := ""; StatuteCitations
  := ""; SubmittedAt := time.zero; DueDate := time.zero; ClosedAt := None;
  PublishedAt := None; AssignedTo := ""; AssignedToName := ""; IsPublic :=
  false; IsConfidential := false; Priority := ""; Tags := []; CreatedAt :=
  time.zero; UpdatedAt := time.zero |}.

(** Assignment to one field of a case; the other fields are kept. *)
Definition set_ID (v : string) (c : Case) : Case :=
  {| ID := v; CaseNumber := CaseNumber c; Type_ := Type_ c; Status :=
  Status c; SubmitterName := SubmitterName c; SubmitterTitle :=
  SubmitterTitle c; SubmitterAgency := SubmitterAgency c; SubmitterEmail
  := SubmitterEmail c; SubmitterPhone := SubmitterPhone c; SubjectName :=
  SubjectName c; SubjectTitle := SubjectTitle c; SubjectAgency :=
  SubjectAgency c; Summary := Summary c; Description := Description c;
  StatuteCitations := StatuteCitations c; SubmittedAt := SubmittedAt c;
  DueDate := DueDate c; ClosedAt := ClosedAt c; PublishedAt := PublishedAt
  c; AssignedTo := AssignedTo c; AssignedToName := AssignedToName c;
  IsPublic := IsPublic c; IsConfidential := IsConfidential c; Priority :=
  Priority c; Tags := Tags c; CreatedAt := CreatedAt c; UpdatedAt :=
  UpdatedAt c |}.

Definition set_CaseNumber (v : string) (c : Case) : Case :=
  {| ID := ID c; CaseNumber := v; Type_ := Type_ c; Status := Status c;
  SubmitterName := SubmitterName c; SubmitterTitle := SubmitterTitle c;
  SubmitterAgency := SubmitterAgency c; SubmitterEmail := SubmitterEmail
  c; SubmitterPhone := SubmitterPhone c; SubjectName := SubjectName c;
  SubjectTitle := SubjectTitle c; SubjectAgency := SubjectAgency c;
  Summary := Summary c; Description := Description c; StatuteCitations :=
  StatuteCitations c; SubmittedAt := SubmittedAt c; DueDate := DueDate c;
  ClosedAt := ClosedAt c; PublishedAt := PublishedAt c; AssignedTo :=
  AssignedTo c; AssignedToName := AssignedToName c; IsPublic := IsPublic
  c; IsConfidential := IsConfidential c; Priority := Priority c; Tags :=
  Tags c; CreatedAt := CreatedAt c; UpdatedAt := UpdatedAt c |}.

Definition set_Status (v : CaseStatus) (c : Case) : Case :=
  {| ID := ID c; CaseNumber := CaseNumber c; Type_ := Type_ c; Status :=
  v; SubmitterName := SubmitterName c; SubmitterTitle := SubmitterTitle c;
  SubmitterAgency := SubmitterAgency c; SubmitterEmail := SubmitterEmail
  c; SubmitterPhone := SubmitterPhone c; SubjectName := SubjectName c;
  SubjectTitle := SubjectTitle c; SubjectAgency := SubjectAgency c;
  Summary := Summary c; Description := Description c; StatuteCitations :=
  StatuteCitations c; SubmittedAt := SubmittedAt c; DueDate := DueDate c;
  ClosedAt := ClosedAt c; PublishedAt := PublishedAt c; AssignedTo :=
  AssignedTo c; AssignedToName := AssignedToName c; IsPublic := IsPublic
  c; IsConfidential := IsConfidential c; Priority := Priority c; Tags :=
  Tags c; CreatedAt := CreatedAt c; UpdatedAt := UpdatedAt c |}.

Definition set_DueDate (v : time.Time) (c : Case) : Case :=
  {| ID := ID c; CaseNumber := CaseNumber c; Type_ := Type_ c; Status :=
  Status c; SubmitterName := SubmitterName c; SubmitterTitle :=
  SubmitterTitle c; SubmitterAgency := SubmitterAgency c; SubmitterEmail
  := SubmitterEmail c; SubmitterPhone := SubmitterPhone c; SubjectName :=
  SubjectName c; SubjectTitle := SubjectTitle c; SubjectAgency :=
  SubjectAgency c; Summary := Summary c; Description := Description c;
  StatuteCitations := StatuteCitations c; SubmittedAt := SubmittedAt c;
  DueDate := v; ClosedAt := ClosedAt c; PublishedAt := PublishedAt c;
  AssignedTo := AssignedTo c; AssignedToName := AssignedToName c; IsPublic
  := IsPublic c; IsConfidential := IsConfidential c; Priority := Priority
  c; Tags := Tags c; CreatedAt := CreatedAt c; UpdatedAt := UpdatedAt c |}.

Definition set_CreatedAt (v : time.Time) (c : Case) : Case :=
  {| ID := ID c; CaseNumber := CaseNumber c; Type_ := Type_ c; Status :=
  Status c; SubmitterName := SubmitterName c; SubmitterTitle :=
  SubmitterTitle c; SubmitterAgency := SubmitterAgency c; SubmitterEmail
  := SubmitterEmail c; SubmitterPhone := SubmitterPhone c; SubjectName :=
  SubjectName c; SubjectTitle := SubjectTitle c; SubjectAgency :=
  SubjectAgency c; Summary := Summary c; Description := Description c;
  StatuteCitations := StatuteCitations c; SubmittedAt := SubmittedAt c;
  DueDate := DueDate c; ClosedAt := ClosedAt c; PublishedAt := PublishedAt
  c; AssignedTo := AssignedTo c; AssignedToName := AssignedToName c;
  IsPublic := IsPublic c; IsConfidential := IsConfidential c; Priority :=
  Priority c; Tags := Tags c; CreatedAt := v; UpdatedAt := UpdatedAt c |}.

Definition set_UpdatedAt (v : time.Time) (c : Case) : Case :=
  {| ID := ID c; CaseNumber := CaseNumber c; Type_ := Type_ c; Status :=
  Status c; SubmitterName := SubmitterName c; SubmitterTitle :=
  SubmitterTitle c; SubmitterAgency := SubmitterAgency c; SubmitterEmail
  := SubmitterEmail c; SubmitterPhone := SubmitterPhone c; SubjectName :=
  SubjectName c; SubjectTitle := SubjectTitle c; SubjectAgency :=
  SubjectAgency c; Summary := Summary c; Description := Description c;
  StatuteCitations := StatuteCitations c; SubmittedAt := SubmittedAt c;
  DueDate := DueDate c; ClosedAt := ClosedAt c; PublishedAt := PublishedAt
  c; AssignedTo := AssignedTo c; AssignedToName := AssignedToName c;
  IsPublic := IsPublic c; IsConfidential := IsConfidential c; Priority :=
  Priority c; Tags := Tags c; CreatedAt := CreatedAt c; UpdatedAt := v |}.

Module Deadline.
Record t := mk {
  ID : string;
  CaseID : string;
  CaseNumber : string;
  CaseType : string;
  Summary : string;
  Type_ : string;
  DueDate : time.Time;
  Status : string;
  ReminderSent : bool;
  CompletedAt : option time.Time
}.
End Deadline.

Record CaseActivity := mkCaseActivity {
  act_ID : string;
  act_CaseID : string;
  act_Action : string;
  act_Description : string;
  act_UserID : string;
  act_UserName : string;
  act_OldValue : string;
  act_NewValue : string;
  act_CreatedAt : time.Time
}.

Record CaseStats := mkCaseStats {
  TotalOpen : Z;
  TotalPending : Z;
  TotalOverdue : Z;
  TotalClosed : Z;
  ByType : gmap string Z;
  ByStatus : gmap string Z;
  RecentCases : list Case;
  RecentActivity : list CaseActivity;
  UpcomingDeadlines : list Deadline.t
}.

End domain.
Import domain.

(** ** The state of a running program

    Cases live on the heap and are passed around by pointer: the
    repository stores pointers, and a caller that keeps a pointer sees
    and makes changes to the stored record. *)

Module rt.

Definition loc := positive.

(** The struct [mock.CaseRepository] without its lock [mu], which
    matters between threads only (see [Module concurrent]). *)
Record CaseRepository := mkRepo {
  cases : gmap string loc;
  counters : gmap string Z
}.

(** What the surroundings decide: the successive readings of the
    clock, the time zone [time.Local] of the process, the order in
    which the n-th [range] statement visits the entries of a map (Go
    leaves it unspecified), the permutation [sort.Slice] arrives at,
    and the case mapping of [strings.ToLower]. *)
Record Env := mkEnv {
  clock : nat → time.Time;
  Local : time.Location;
  range_order : nat → list (string * loc) → list (string * loc);
  sort_Slice : ∀ A : Type, (A → A → bool) → list A → list A;
  strings_ToLower : string → string
}.

Record World := mkWorld {
  env : Env;
  ticks : nat;
  ranges : nat;
  heap : gmap loc Case;
  repo : CaseRepository
}.

(** A computation runs on the world and returns a value and the new
    world, or panics ([None]: a nil or dangling pointer is
    dereferenced). *)
Definition M (A : Type) : Type := World → option (A * World).

Definition ret {A} (a : A) : M A := λ w, Some (a, w).
Definition bind {A B} (m : M A) (k : A → M B) : M B :=
  λ w, match m w with Some (a, w') => k a w' | None => None end.

Declare Scope go_scope.
Delimit Scope go_scope with go.
Notation "x <- m ;; k" := (bind m (λ x, k))
  (at level 100, m at next level, right associativity) : go_scope.
Notation "m ;;; k" := (bind m (λ _, k))
  (at level 100, right associativity) : go_scope.

(** [time.Now()] *)
Definition Now : M time.Time := λ w,
  Some (clock (env w) (ticks w),
        mkWorld (env w) (S (ticks w)) (ranges w) (heap w) (repo w)).

(** The location a [time.Now()] carries. *)
Definition get_Local : M time.Location := λ w, Some (Local (env w), w).

(** [*p] *)
Definition deref (p : loc) : M Case := λ w,
  match heap w !! p with Some c => Some (c, w) | None => None end.

(** [p.field = v], as a change [f] of the record [p] points to *)
Definition assign (p : loc) (f : Case → Case) : M unit := λ w,
  match heap w !! p with
  | Some c =>
      Some (tt, mkWorld (env w) (ticks w) (ranges w)
                  (<[p := f c]> (heap w)) (repo w))
  | None => None
  end.

(** [&domain.Case{...}]: a new object at an unused address *)
Definition alloc (c : Case) : M loc := λ w,
  let p := fresh (dom (heap w)) in
  Some (p, mkWorld (env w) (ticks w) (ranges w)
             (<[p := c]> (heap w)) (repo w)).

Definition get_repo : M CaseRepository := λ w, Some (repo w, w).
Definition put_repo (r : CaseRepository) : M unit := λ w,
  Some (tt, mkWorld (env w) (ticks w) (ranges w) (heap w) r).

(** The entries of [r.cases] in the order this [range] visits them. *)
Definition range_cases : M (list (string * loc)) := λ w,
  Some (range_order (env w) (ranges w) (map_to_list (cases (repo w))),
        mkWorld (env w) (ticks w) (S (ranges w)) (heap w) (repo w)).

Definition ToLower (s : string) : M string := λ w,
  Some (strings_ToLower (env w) s, w).

Definition Slice {A} (less : A → A → bool) (l : list A) : M (list A) :=
  λ w, Some (sort_Slice (env w) A less l, w).

(** Go's [error]: nil or an error with a message. *)
Definition error := option string.

(** [x++] on an [int]. *)
Definition incr (x : Z) : Z := time.wrap64 (x + 1).
Definition MaxInt : Z := 2 ^ 63 - 1.

End rt.
Import rt.
Local Open Scope go_scope.

(** ** Package [domain]: the overdue predicate of a case *)

Module case.

(** [(c *Case) IsOverdue()] *)
Definition IsOverdue (c : loc) : M bool :=
  cv <- deref c ;;
  if time.IsZero (DueDate cv) then ret false
  else
    now <- Now ;;
    ret (time.After now (DueDate cv)
         && negb (bool_decide (Status cv = StatusClosed))
         && negb (bool_decide (Status cv = StatusPublished))).

End case.

(** ** Package [mock]: the in-memory case repository *)

Module mock.

Definition demoCase (id num ty st : string)
    (submitter : string * string * string * string)
    (subject : string * string * string) (summary description : string)
    (submitted due : time.Time) (assigned : string * string)
    (priority : string) : Case :=
  let '(sname, stitle, sagency, semail) := submitter in
  let '(oname, otitle, oagency) := subject in
  {| ID := id; CaseNumber := num; Type_ := ty; Status := st;
     SubmitterName := sname; SubmitterTitle := stitle;
     SubmitterAgency := sagency; SubmitterEmail := semail;
     SubmitterPhone := "";
     SubjectName := oname; SubjectTitle := otitle;
     SubjectAgency := oagency;
     Summary := summary; Description := description;
     StatuteCitations := "";
     SubmittedAt := submitted; DueDate := due;
     ClosedAt := None; PublishedAt := None;
     AssignedTo := assigned.1; AssignedToName := assigned.2;
     IsPublic := false; IsConfidential := false;
     Priority := priority; Tags := [];
     CreatedAt := time.zero; UpdatedAt := time.zero |}.

(** The ten cases [seedDemoData] starts the store with. *)
Definition demoCases (zone : time.Location) (now : time.Time)
    : list Case :=
  [
    demoCase "1" "AO-2024-042" CaseTypeAdvisoryOpinion StatusSubmitted
      ("John Smith", "City Manager", "City of Henderson",
       "jsmith@henderson.gov")
      ("", "", "")
      "Question regarding contractor relationships"
      "May I participate in discussions regarding a contract with a company where my brother-in-law is employed?"
      (time.AddDate zone now 0 0 (-1)) (time.AddDate zone now 0 0 3)
      ("user_1", "Ross Armstrong") "normal";
    demoCase "2" "EC-2024-018" CaseTypeEthicsComplaint StatusUnderReview
      ("Jane Doe", "", "",
       "concerned@example.com")
      ("Robert Johnson", "County Commissioner", "Clark County")
      "Alleged gift violation"
      "Commissioner Johnson allegedly accepted tickets to a Las Vegas show from a vendor seeking county contracts."
      (time.AddDate zone now 0 0 (-2)) (time.AddDate zone now 0 0 5)
      ("user_1", "Ross Armstrong") "high";
    demoCase "3" "PRR-2024-089" CaseTypePublicRecordsRequest StatusSubmitted
      ("City of Henderson", "", "",
       "records@cityofhenderson.com")
      ("", "", "")
      "Request for ethics training records"
      "Requesting copies of all ethics training materials and attendance records from 2023-2024."
      (time.AddDate zone now 0 0 (-3)) (time.AddDate zone now 0 0 2)
      ("", "") "normal";
    demoCase "4" "EA-2024-156" CaseTypeEthicsAcknowledgment StatusUnderReview
      ("Robert Johnson", "Board Member", "Nevada Gaming Control Board",
       "rjohnson@gcb.nv.gov")
      ("", "", "")
      "Annual Ethics Acknowledgment"
      ""
      (time.AddDate zone now 0 0 (-4)) time.zero
      ("", "") "normal";
    demoCase "5" "AO-2024-041" CaseTypeAdvisoryOpinion StatusInvestigation
      ("Maria Garcia", "State Employee", "Department of Motor Vehicles",
       "mgarcia@dmv.nv.gov")
      ("", "", "")
      "Outside employment with DMV vendor"
      "I have been offered a weekend consulting position with an IT firm that has contracts with DMV. Is this permissible?"
      (time.AddDate zone now 0 0 (-5)) (time.AddDate zone now 0 0 40)
      ("user_1", "Ross Armstrong") "normal";
    demoCase "6" "PRR-2024-088" CaseTypePublicRecordsRequest StatusUnderReview
      ("Nevada Press Association", "", "",
       "records@nvpress.org")
      ("", "", "")
      "Request for complaint statistics"
      "Requesting all complaint statistics from 2020-2024."
      (time.AddDate zone now 0 0 (-7)) (time.AddDate zone now 0 0 (-2))
      ("user_1", "Ross Armstrong") "high";
    demoCase "7" "AO-2024-039" CaseTypeAdvisoryOpinion StatusUnderReview
      ("David Chen", "Director", "Department of Transportation",
       "dchen@dot.nv.gov")
      ("", "", "")
      "Family member employment at vendor"
      "My daughter has been offered employment at a firm that frequently bids on NDOT contracts. What are my obligations?"
      (time.AddDate zone now 0 0 (-14)) (time.AddDate zone now 0 0 7)
      ("user_1", "Ross Armstrong") "normal";
    demoCase "8" "EC-2024-017" CaseTypeEthicsComplaint StatusDraftPrepared
      ("Anonymous", "", "",
       "anonymous@protonmail.com")
      ("Lisa Wong", "City Councilwoman", "City of Reno")
      "Misuse of public resources"
      "Councilwoman Wong allegedly used city staff to plan her daughter's wedding."
      (time.AddDate zone now 0 0 (-21)) (time.AddDate zone now 0 0 14)
      ("user_1", "Ross Armstrong") "high";
    demoCase "9" "AO-2024-040" CaseTypeAdvisoryOpinion StatusClosed
      ("Thomas Anderson", "Sheriff", "Washoe County Sheriff's Office",
       "tanderson@washoesheriff.gov")
      ("", "", "")
      "Charitable organization board membership"
      "May I serve on the board of a charitable organization that occasionally applies for county grants?"
      (time.AddDate zone now 0 (-1) 0) (time.AddDate zone now 0 0 (-15))
      ("user_1", "Ross Armstrong") "normal";
    demoCase "10" "EA-2024-155" CaseTypeEthicsAcknowledgment StatusClosed
      ("Sarah Miller", "Commissioner", "Public Utilities Commission",
       "smiller@puc.nv.gov")
      ("", "", "")
      "Annual Ethics Acknowledgment"
      ""
      (time.AddDate zone now 0 0 (-10)) time.zero
      ("", "") "normal"
  ].

Fixpoint seed_cases (cs : list Case) : M unit :=
  match cs with
  | [] => ret tt
  | c :: rest =>
      p <- alloc c ;;
      r <- get_repo ;;
      put_repo (mkRepo (<[ID c := p]> (cases r)) (counters r)) ;;;
      seed_cases rest
  end.

Definition seedDemoData : M unit :=
  now <- Now ;;
  zone <- get_Local ;;
  seed_cases (demoCases zone now) ;;;
  r <- get_repo ;;
  put_repo (mkRepo (cases r)
    (<[CaseTypePublicRecordsRequest := 89]>
      (<[CaseTypeEthicsAcknowledgment := 156]>
        (<[CaseTypeEthicsComplaint := 18]>
          (<[CaseTypeAdvisoryOpinion := 42]> (counters r)))))).

Definition NewCaseRepository : M unit :=
  put_repo (mkRepo ∅ ∅) ;;;
  seedDemoData.

Definition Create (c : loc) : M error :=
  cv <- deref c ;;
  r <- get_repo ;;
  put_repo (mkRepo (<[ID cv := c]> (cases r)) (counters r)) ;;;
  ret None.

Definition Update (c : loc) : M error :=
  cv <- deref c ;;
  r <- get_repo ;;
  match cases r !! ID cv with
  | None => ret (Some (fmt.Errorf_case_not_found (ID cv)))
  | Some _ =>
      put_repo (mkRepo (<[ID cv := c]> (cases r)) (counters r)) ;;;
      ret None
  end.

(** The result is a pointer, nil ([None]) when the key is absent. *)
Definition GetByID (id : string) : M (option loc) :=
  r <- get_repo ;;
  ret (cases r !! id).

Fixpoint GetByCaseNumber_loop (its : list (string * loc)) (num : string)
    : M (option loc) :=
  match its with
  | [] => ret None
  | (_, c) :: rest =>
      cv <- deref c ;;
      if bool_decide (CaseNumber cv = num) then ret (Some c)
      else GetByCaseNumber_loop rest num
  end.

Definition GetByCaseNumber (num : string) : M (option loc) :=
  its <- range_cases ;;
  GetByCaseNumber_loop its num.

(** The text filter of [List]: does the query fail to occur in the
    lower-cased number, summary and submitter name of the case? *)
Definition query_misses (cv : Case) (query : string) : M bool :=
  if bool_decide (query = "") then ret false
  else
    hay <- ToLower (CaseNumber cv +:+ Summary cv +:+ SubmitterName cv) ;;
    needle <- ToLower query ;;
    ret (negb (strings.Contains hay needle)).

Fixpoint List_loop (its : list (string * loc))
    (typeFilter statusFilter query : string) (result : list loc)
    : M (list loc) :=
  match its with
  | [] => ret result
  | (_, c) :: rest =>
      cv <- deref c ;;
      if negb (bool_decide (typeFilter = ""))
         && negb (bool_decide (Type_ cv = typeFilter))
      then List_loop rest typeFilter statusFilter query result
      else if negb (bool_decide (statusFilter = ""))
              && negb (bool_decide (Status cv = statusFilter))
      then List_loop rest typeFilter statusFilter query result
      else
        miss <- query_misses cv query ;;
        if miss : bool
        then List_loop rest typeFilter statusFilter query result
        else List_loop rest typeFilter statusFilter query (result ++ [c])
  end.

Definition List (typeFilter statusFilter query : string) : M (list loc) :=
  its <- range_cases ;;
  List_loop its typeFilter statusFilter query [].

Fixpoint GetRecent_loop (its : list (string * loc)) (limit : Z)
    (result : list loc) : list loc :=
  match its with
  | [] => result
  | (_, c) :: rest =>
      let result := result ++ [c] in
      if limit <=? Z.of_nat (length result) then result
      else GetRecent_loop rest limit result
  end.

Definition GetRecent (limit : Z) : M (list loc) :=
  its <- range_cases ;;
  ret (GetRecent_loop its limit []).

(** The deadline entry [GetDeadlines] builds for a case. *)
Definition deadline_of (cv : Case) (status : string) : Deadline.t :=
  {| Deadline.ID := "dl_" +:+ ID cv;
     Deadline.CaseID := ID cv;
     Deadline.CaseNumber := CaseNumber cv;
     Deadline.CaseType := Type_ cv;
     Deadline.Summary := Summary cv;
     Deadline.Type_ := "response_due";
     Deadline.DueDate := DueDate cv;
     Deadline.Status := status;
     Deadline.ReminderSent := false;
     Deadline.CompletedAt := None |}.

(** The live status of a deadline; [time.Until] reads the clock a
    second time. *)
Definition deadline_status (due : time.Time) : M string :=
  now <- Now ;;
  if time.After now due then ret "overdue"
  else
    now' <- Now ;;
    if time.Hours_lt (time.Sub due now') (7 * 24) then ret "due_soon"
    else ret "upcoming".

Fixpoint GetDeadlines_loop (its : list (string * loc)) (limit : Z)
    (deadlines : list Deadline.t) : M (list Deadline.t) :=
  match its with
  | [] => ret deadlines
  | (_, c) :: rest =>
      cv <- deref c ;;
      deadlines <-
        (if negb (time.IsZero (DueDate cv))
            && negb (bool_decide (Status cv = StatusClosed))
         then
           status <- deadline_status (DueDate cv) ;;
           ret (deadlines ++ [deadline_of cv status])
         else ret deadlines) ;;
      if limit <=? Z.of_nat (length deadlines) then ret deadlines
      else GetDeadlines_loop rest limit deadlines
  end.

Definition GetDeadlines (limit : Z) : M (list Deadline.t) :=
  its <- range_cases ;;
  GetDeadlines_loop its limit [].

Definition GetAllDeadlines : M (list Deadline.t) := GetDeadlines 100.

Definition NextCaseNumber (caseType : string) : M string :=
  r <- get_repo ;;
  put_repo (mkRepo (cases r)
    (<[caseType := incr (default 0 (counters r !! caseType))]>
       (counters r))) ;;;
  now <- Now ;;
  zone <- get_Local ;;
  r <- get_repo ;;
  ret (fmt.Sprintf_s_d_03d caseType (time.Year zone now)
         (default 0 (counters r !! caseType))).

End mock.

(** ** Package [service]: case lifecycle and dashboard *)

Module service.

(** The loop of [calculateBusinessDays]; [rounds] bounds the number of
    iterations, and [None] says the bound was reached before the loop
    ended. *)
Fixpoint calculateBusinessDays_loop (zone : time.Location) (rounds : nat)
    (result : time.Time) (added days : Z) : option time.Time :=
  if added <? days then
    match rounds with
    | O => None
    | S r =>
        let result := time.AddDate zone result 0 0 1 in
        if negb (time.is_weekend (time.Weekday_of zone result))
        then calculateBusinessDays_loop zone r result (added + 1) days
        else calculateBusinessDays_loop zone r result added days
    end
  else Some result.

(** [calculateBusinessDays(start, days)], with [zone] the location of
    [start].  Where every day step arrives at the wall-clock time it
    left from, every counted day is reached in at most three
    iterations, so three rounds a day are enough for the loop to end
    (see [calculateBusinessDays_on_wall]). *)
Definition calculateBusinessDays (zone : time.Location) (start : time.Time)
    (days : Z) : option time.Time :=
  calculateBusinessDays_loop zone (3 * Z.to_nat days) start 0 days.

(** A pure computation inside [M]; without a result the caller does
    not go on. *)
Definition run {A} (o : option A) : M A := λ w,
  match o with Some a => Some (a, w) | None => None end.

(** [(s *CaseService) Create]; the log line is not modelled.  The
    [SubmittedAt] handed in is a [time.Now()] of the caller, and
    carries the location [Local]. *)
Definition Create (c : loc) : M (string * error) :=
  cv <- deref c ;;
  num <- mock.NextCaseNumber (Type_ cv) ;;
  assign c (set_CaseNumber num) ;;;
  t <- Now ;;
  assign c (set_ID (fmt.Sprintf_case_d (time.UnixNano t))) ;;;
  t <- Now ;;
  assign c (set_CreatedAt t) ;;;
  t <- Now ;;
  assign c (set_UpdatedAt t) ;;;
  cv <- deref c ;;
  zone <- get_Local ;;
  (if bool_decide (Type_ cv = CaseTypeAdvisoryOpinion) then
     due <- run (calculateBusinessDays zone (SubmittedAt cv) 45) ;;
     assign c (set_DueDate due)
   else if bool_decide (Type_ cv = CaseTypePublicRecordsRequest) then
     due <- run (calculateBusinessDays zone (SubmittedAt cv) 5) ;;
     assign c (set_DueDate due)
   else ret tt) ;;;
  err <- mock.Create c ;;
  match err with
  | Some e => ret ("", Some e)
  | None => cv <- deref c ;; ret (CaseNumber cv, None)
  end.

Definition GetByID (id : string) : M (option loc) := mock.GetByID id.

Definition List (typeFilter statusFilter query : string) : M (list loc) :=
  mock.List typeFilter statusFilter query.

Definition GetRecent (limit : Z) : M (list loc) := mock.GetRecent limit.

Definition GetUpcomingDeadlines (limit : Z) : M (list Deadline.t) :=
  mock.GetDeadlines limit.

Definition GetAllDeadlines : M (list Deadline.t) := mock.GetAllDeadlines.

(** [(s *CaseService) UpdateStatus] *)
Definition UpdateStatus (caseID : string) (status : string) : M error :=
  c <- mock.GetByID caseID ;;
  match c with
  | None => ret (Some (fmt.Errorf_case_not_found caseID))
  | Some c =>
      assign c (set_Status status) ;;;
      now <- Now ;;
      assign c (set_UpdatedAt now) ;;;
      mock.Update c
  end.

(** The counts [GetStats] keeps while it walks over the cases. *)
Record counts := mkCounts {
  totalOpen : Z;
  totalPending : Z;
  totalOverdue : Z;
  totalClosed : Z;
  byType : gmap string Z;
  byStatus : gmap string Z
}.

Definition bump (k : string) (m : gmap string Z) : gmap string Z :=
  <[k := default 0 (m !! k) + 1]> m.

Fixpoint GetStats_loop (allCases : list loc) (n : counts) : M counts :=
  match allCases with
  | [] => ret n
  | c :: rest =>
      cv <- deref c ;;
      let byType := bump (Type_ cv) (byType n) in
      let byStatus := bump (Status cv) (byStatus n) in
      let '(open, pending, closed) :=
        if bool_decide (Status cv = StatusClosed)
        then (totalOpen n, totalPending n, totalClosed n + 1)
        else if bool_decide (Status cv = StatusSubmitted)
        then (totalOpen n + 1, totalPending n + 1, totalClosed n)
        else (totalOpen n + 1, totalPending n, totalClosed n) in
      overdue <- case.IsOverdue c ;;
      GetStats_loop rest
        (mkCounts open pending
           (if overdue : bool then totalOverdue n + 1 else totalOverdue n)
           closed byType byStatus)
  end.

Fixpoint deref_all (ps : list loc) : M (list Case) :=
  match ps with
  | [] => ret []
  | p :: rest => cv <- deref p ;; cs <- deref_all rest ;; ret (cv :: cs)
  end.

(** The comparison handed to [sort.Slice] for the recent cases: it
    looks the two cases up through their pointers. *)
Definition submitted_after (h : gmap loc Case) (a b : loc) : bool :=
  time.After (from_option SubmittedAt time.zero (h !! a))
             (from_option SubmittedAt time.zero (h !! b)).

Definition due_before (a b : Deadline.t) : bool :=
  time.Before (Deadline.DueDate a) (Deadline.DueDate b).

Definition current_heap : M (gmap loc Case) := λ w, Some (heap w, w).

(** [(s *DashboardService) GetStats] *)
Definition GetStats : M CaseStats :=
  allCases <- mock.List "" "" "" ;;
  n <- GetStats_loop allCases (mkCounts 0 0 0 0 ∅ ∅) ;;
  h <- current_heap ;;
  sortedCases <- Slice (submitted_after h) allCases ;;
  recentCases <- deref_all (take 5 sortedCases) ;;
  deadlines <- mock.GetDeadlines 5 ;;
  upcomingDeadlines <- Slice due_before deadlines ;;
  ret {| TotalOpen := totalOpen n + 32;
         TotalPending := totalPending n;
         TotalOverdue := totalOverdue n;
         TotalClosed := totalClosed n + 150;
         ByType := byType n;
         ByStatus := byStatus n;
         RecentCases := recentCases;
         RecentActivity := [];
         UpcomingDeadlines := upcomingDeadlines |}.

End service.

(** ** A concrete environment, for running the model *)

Module demo.

Fixpoint insert_sorted {A} (less : A → A → bool) (x : A) (l : list A)
    : list A :=
  match l with
  | [] => [x]
  | y :: t => if less y x then y :: insert_sorted less x t else x :: l
  end.

Definition insertion_sort (A : Type) (less : A → A → bool) (l : list A)
    : list A :=
  foldr (insert_sorted less) [] l.

(** The zone of Los Angeles with its transitions of 2024:
    daylight-saving time, seven hours behind UTC, from March 10, 10:00
    UTC, to November 3, 09:00 UTC, and standard time, eight hours
    behind, before and after. *)
Definition Pacific : time.Location :=
  time.mkLocation (λ sec,
    if sec <? 1710064800 then (-28800, time.alpha, 1710064800)
    else if sec <? 1730624400 then (-25200, 1710064800, 1730624400)
    else (-28800, 1730624400, time.omega)).

(** The clock starts at [t0] and advances a millisecond a reading;
    the process runs on Pacific time; maps are visited in the order of
    [map_to_list]. *)
Definition env_at (t0 : time.Time) : Env :=
  {| clock := λ n, t0 + Z.of_nat n * 1000000;
     Local := Pacific;
     range_order := λ _ l, l;
     sort_Slice := insertion_sort;
     strings_ToLower := strings.ascii_ToLower |}.

Definition empty_world (e : Env) : World :=
  {| env := e; ticks := 0; ranges := 0; heap := ∅;
     repo := mkRepo ∅ ∅ |}.

(** An environment whose clock stands still at [t]. *)
Definition env_still (t : time.Time) : Env :=
  {| clock := λ _, t;
     Local := Pacific;
     range_order := λ _ l, l;
     sort_Slice := insertion_sort;
     strings_ToLower := strings.ascii_ToLower |}.

(** Wednesday, May 15, 2024, 12:00 UTC: five in the morning on
    Pacific time. *)
Definition t0 : time.Time := time.Date 2024 5 15 12 0 0.

(** The world right after [NewCaseRepository]. *)
Definition seeded : option World :=
  snd <$> mock.NewCaseRepository (empty_world (env_at t0)).

Definition world : World := default (empty_world (env_at t0)) seeded.

(** A submission the way the public handlers build it, here with a
    time of submission, a type, a status and a due date of choice. *)
Definition submission_at (submitted : time.Time) (ty status : string)
    (due : time.Time) : Case :=
  mock.demoCase "" "" ty status
    ("John Test", "Analyst", "Test Agency", "john@test.gov") ("", "", "")
    "Test question" "Details of the test question" submitted due
    ("", "") "".

Definition submission : string → string → time.Time → Case :=
  submission_at t0.

(** Friday, November 1, 2024, 20:00 on Pacific time, which is
    Saturday, 03:00 UTC; the clocks go back an hour on the Sunday. *)
Definition friday_evening : time.Time := time.Date 2024 11 2 3 0 0.

(** The world with a record on the heap, and the pointer to it. *)
Definition with_record (c : Case) (w : World) : loc * World :=
  default (1%positive, w) (alloc c w).

(** The seeded store under a clock standing still a day later. *)
Definition still_world : World :=
  {| env := env_still (time.AddDays t0 1); ticks := 0; ranges := 0;
     heap := heap world; repo := repo world |}.

(** Submissions waiting to be created: an advisory opinion request,
    an ethics complaint that arrives with a due date, and a request
    that arrives with the status [closed]. *)
Definition ao_request : Case :=
  submission CaseTypeAdvisoryOpinion StatusSubmitted time.zero.
Definition dated_complaint : Case :=
  submission CaseTypeEthicsComplaint StatusSubmitted
    (time.Date 2030 1 1 0 0 0).
(** A record that carries the ID of the first seeded case. *)
Definition duplicate_of_1 : Case := set_ID "1" ao_request.
(** A public records request handed in on Friday evening. *)
Definition evening_request : Case :=
  submission_at friday_evening CaseTypePublicRecordsRequest StatusSubmitted
    time.zero.

End demo.

(** ** Concurrent callers of [NextCaseNumber]

    Every request is served by a thread of its own.  A call of
    [NextCaseNumber] takes the write lock [r.mu], adds one to the counter
    of its type, reads the year off the clock, formats the number and
    releases the lock on its way out (the deferred [Unlock]).  The
    threads are interleaved at these program points. *)

Module concurrent.

Inductive pc :=
| AtLock                      (* before [r.mu.Lock()] *)
| AtIncr                      (* before [r.counters[caseType]++] *)
| AtNow                       (* before [time.Now().Year()] *)
| AtSprintf (year : Z)        (* before [fmt.Sprintf] *)
| AtUnlock (result : string)  (* before the deferred [r.mu.Unlock()] *)
| Returned (result : string).

Record call := mkCall { caseType : string; at_pc : pc }.

Record state := mkState {
  locked : bool;
  counters : gmap string Z;
  calls : list call
}.

(** The move of call [i], if it can make one; [year] is the year the
    clock shows at that moment.  A call in front of a held lock waits,
    and a call that has returned has nothing left to do. *)
Definition step (i : nat) (year : Z) (st : state) : option state :=
  match calls st !! i with
  | None => None
  | Some (mkCall T at_) =>
      let move l c p := Some (mkState l c (<[i := mkCall T p]> (calls st))) in
      match at_ with
      | AtLock =>
          if locked st then None
          else move true (counters st) AtIncr
      | AtIncr =>
          move (locked st)
            (<[T := incr (default 0 (counters st !! T))]> (counters st))
            AtNow
      | AtNow => move (locked st) (counters st) (AtSprintf year)
      | AtSprintf y =>
          move (locked st) (counters st)
            (AtUnlock (fmt.Sprintf_s_d_03d T y
                         (default 0 (counters st !! T))))
      | AtUnlock s => move false (counters st) (Returned s)
      | Returned _ => None
      end
  end.

(** A schedule names, move after move, the call that runs and the
    year it would read. *)
Fixpoint run (schedule : list (nat * Z)) (st : state) : option state :=
  match schedule with
  | [] => Some st
  | (i, y) :: rest =>
      match step i y st with
      | Some st' => run rest st'
      | None => None
      end
  end.

Inductive reachable (st0 : state) : state → Prop :=
| reach_refl : reachable st0 st0
| reach_step st i y st' :
    reachable st0 st → step i y st = Some st' → reachable st0 st'.

(** Before any call has started: the lock is free and every call
    stands in front of it. *)
Definition initial (st : state) : Prop :=
  locked st = false ∧ Forall (λ c, at_pc c = AtLock) (calls st).

Definition started (types : list string) (c : gmap string Z) : state :=
  mkState false c ((λ T, mkCall T AtLock) <$> types).

End concurrent.

(** ** The notions the properties are stated with *)

Module props.

(** The counter of a type; a type without an entry counts from 0. *)
Definition counter (w : World) (T : string) : Z :=
  default 0 (rt.counters (repo w) !! T).

Definition digit_value (c : ascii) : option Z :=
  let n := Z.of_N (N_of_ascii c) in
  if (48 <=? n) && (n <=? 57) then Some (n - 48) else None.

(** The number written by the digits a string ends with. *)
Fixpoint trailing_number (s : string) (acc : Z) : Z :=
  match s with
  | EmptyString => acc
  | String c t =>
      match digit_value c with
      | Some d => trailing_number t (10 * acc + d)
      | None => trailing_number t 0
      end
  end.

(** The numeric sequence suffix of a case number. *)
Definition sequence_suffix (s : string) : Z := trailing_number s 0.

Definition is_digit (c : ascii) : bool :=
  match digit_value c with Some _ => true | None => false end.

(** The pattern [-\d{4}-\d{3}$] *)
Definition year_and_sequence (s : string) : bool :=
  match s with
  | String "-" (String y1 (String y2 (String y3 (String y4
      (String "-" (String n1 (String n2 (String n3 EmptyString)))))))) =>
      is_digit y1 && is_digit y2 && is_digit y3 && is_digit y4
      && is_digit n1 && is_digit n2 && is_digit n3
  | _ => false
  end.

Definition strip_prefix (prefix s : string) : option string :=
  if strings.HasPrefix s prefix
  then Some (String.substring (String.length prefix)
               (String.length s - String.length prefix) s)
  else None.

(** The case number format [^(AO|EC|EA|PRR)-\d{4}-\d{3}$] *)
Definition case_number_format (s : string) : bool :=
  existsb
    (λ prefix,
       match strip_prefix prefix s with
       | Some rest => year_and_sequence rest
       | None => false
       end)
    ["AO"; "EC"; "EA"; "PRR"].

(** A business day is a day that is not a Saturday or a Sunday; the
    day is that of a wall-clock reading. *)
Definition business_day (u : Z) : bool :=
  negb (time.is_weekend (time.absWeekday u)).

(** The number of business days among the [k] calendar days that
    follow the wall-clock reading [start]. *)
Fixpoint business_days_within (start : Z) (k : nat) : Z :=
  match k with
  | O => 0
  | S k' =>
      business_days_within start k'
      + (if business_day (time.AddDays start (Z.of_nat k)) then 1 else 0)
  end.

(** Following the words of the deadline rule, on the calendar of the
    location: [due] is reached from [start] by advancing one calendar
    day at a time, at the same time of day, and counting the days that
    are business days, and it is the day on which the count
    reaches [n]. *)
Definition business_days_after (zone : time.Location) (start : time.Time)
    (n : Z) (due : time.Time) : Prop :=
  ∃ k : nat,
    time.wall zone due = time.AddDays (time.wall zone start) (Z.of_nat k)
    ∧ business_days_within (time.wall zone start) k = n
    ∧ business_day (time.wall zone due) = true.

(** The wall-clock time of day of [start] exists in the location on
    every later day: [time.Date] finds an instant that reads it.  In a
    zone with daylight-saving time the readings the clocks skip in
    spring are the ones that do not exist. *)
Definition keeps_clock (zone : time.Location) (start : time.Time) : Prop :=
  ∀ j : Z, 0 < j →
    time.wall zone
      (time.from_wall zone (time.AddDays (time.wall zone start) j))
    = time.AddDays (time.wall zone start) j.

(** The loop of [calculateBusinessDays] seen from the wall clock, where
    every day step arrives at the time of day it left from. *)
Fixpoint wall_loop (rounds : nat) (u : Z) (added days : Z) : option Z :=
  if added <? days then
    match rounds with
    | O => None
    | S r =>
        let u := time.AddDays u 1 in
        if negb (time.is_weekend (time.absWeekday u))
        then wall_loop r u (added + 1) days
        else wall_loop r u added days
    end
  else Some u.

Definition wall_business_days (u : Z) (days : Z) : option Z :=
  wall_loop (3 * Z.to_nat days) u 0 days.

(** The loop of [calculateBusinessDays] seen from the weekday: how
    many calendar days it advances when it starts on weekday [wd]. *)
Fixpoint days_advanced (rounds : nat) (wd : Z) (offset added days : Z)
    : option Z :=
  if added <? days then
    match rounds with
    | O => None
    | S r =>
        let wd := (wd + 1) mod 7 in
        if negb (time.is_weekend (time.Weekday_of_Z wd))
        then days_advanced r wd (offset + 1) (added + 1) days
        else days_advanced r wd (offset + 1) added days
    end
  else Some offset.

(** Rounds the loop of [calculateBusinessDays] needs at most before the
    next day it counts, standing on weekday [wd]. *)
Definition rounds_to_next (wd : Z) : Z :=
  if wd =? 5 then 3 else if wd =? 6 then 2 else 1.

(** What [CaseService.Create] assigns: the number the store issues
    next for a type, and the record after the number, the ID and the
    two time stamps have been set. *)
Definition next_number (w : World) (T : string) : string :=
  fmt.Sprintf_s_d_03d T
    (time.Year (Local (env w)) (clock (env w) (ticks w)))
    (incr (counter w T)).

Definition stamped (w : World) (cv : Case) : Case :=
  set_UpdatedAt (clock (env w) (3 + ticks w))
    (set_CreatedAt (clock (env w) (2 + ticks w))
       (set_ID (fmt.Sprintf_case_d
                  (time.UnixNano (clock (env w) (1 + ticks w))))
          (set_CaseNumber (next_number w (Type_ cv)) cv))).

(** The number of business days the deadline of a type lies ahead;
    [None] for the types [Create] computes no deadline for. *)
Definition statutory_days (T : string) : option Z :=
  if bool_decide (T = CaseTypeAdvisoryOpinion) then Some 45
  else if bool_decide (T = CaseTypePublicRecordsRequest) then Some 5
  else None.

Definition with_due (due : option time.Time) (cv : Case) : Case :=
  match due with Some d => set_DueDate d cv | None => cv end.

(** For a case of a type with a statutory deadline, the time of day of
    the submission exists, in the zone of the process, on every later
    day. *)
Definition day_steps_keep_clock (w : World) (cv : Case) : Prop :=
  statutory_days (Type_ cv) ≠ None →
  keeps_clock (Local (env w)) (SubmittedAt cv).

(** The record a stored pointer leads to. *)
Definition stored (w : World) (p : loc) (cv : Case) : Prop :=
  (∃ k, cases (repo w) !! k = Some p) ∧ heap w !! p = Some cv.

(** Every stored pointer leads to a record, and the record's ID is
    the key it is stored under. *)
Definition well_keyed (w : World) : Prop :=
  ∀ k p, cases (repo w) !! k = Some p →
    ∃ cv, heap w !! p = Some cv ∧ ID cv = k.

(** Every stored pointer leads to a record. *)
Definition no_dangling (w : World) : Prop :=
  ∀ k p, cases (repo w) !! k = Some p → is_Some (heap w !! p).

(** [sort.Slice] rearranges the slice it is given. *)
Definition sort_rearranges (e : Env) : Prop :=
  ∀ A (less : A → A → bool) l, sort_Slice e A less l ≡ₚ l.

(** While a call that starts in [w] reads the clock, no due date of a
    stored case passes: every reading it can make sees the same due
    dates in the past as the instant [now] does. *)
Definition steady (now : time.Time) (w : World) : Prop :=
  ∀ (n : nat) p cv,
    (ticks w ≤ n < ticks w + size (cases (repo w)))%nat →
    (∃ k, cases (repo w) !! k = Some p) → heap w !! p = Some cv →
    time.After (clock (env w) n) (DueDate cv)
    = time.After now (DueDate cv).

(** A [range] visits every entry of the map once. *)
Definition range_visits_all (e : Env) : Prop :=
  ∀ n l, range_order e n l ≡ₚ l.

(** The three filters of [List] on one case. *)
Definition type_matches (typeFilter : string) (cv : Case) : Prop :=
  typeFilter = "" ∨ Type_ cv = typeFilter.
Definition status_matches (statusFilter : string) (cv : Case) : Prop :=
  statusFilter = "" ∨ Status cv = statusFilter.
Definition text_matches (lower : string → string) (query : string)
    (cv : Case) : Prop :=
  query = "" ∨
  ∃ before after : string,
    lower (CaseNumber cv +:+ Summary cv +:+ SubmitterName cv)
    = before +:+ lower query +:+ after.

(** The three filters as the test [List] makes on a record, and on
    the record behind a pointer. *)
Definition keeps (lower : string → string)
    (typeFilter statusFilter query : string) (cv : Case) : bool :=
  (bool_decide (typeFilter = "") || bool_decide (Type_ cv = typeFilter))
  && (bool_decide (statusFilter = "")
      || bool_decide (Status cv = statusFilter))
  && (bool_decide (query = "")
      || strings.Contains
           (lower (CaseNumber cv +:+ Summary cv +:+ SubmitterName cv))
           (lower query)).

Definition listed (w : World) (typeFilter statusFilter query : string)
    (p : loc) : bool :=
  match heap w !! p with
  | Some cv =>
      keeps (strings_ToLower (env w)) typeFilter statusFilter query cv
  | None => false
  end.

(** A check that decides [well_keyed]. *)
Definition well_keyedb (w : World) : bool :=
  forallb
    (λ kp : string * loc,
       match heap w !! kp.2 with
       | Some cv => bool_decide (ID cv = kp.1)
       | None => false
       end)
    (map_to_list (cases (repo w))).

(** Overdue at an instant, the way [IsOverdue] decides it. *)
Definition overdue_at (now : time.Time) (cv : Case) : bool :=
  negb (time.IsZero (DueDate cv))
  && time.After now (DueDate cv)
  && negb (bool_decide (Status cv = StatusClosed))
  && negb (bool_decide (Status cv = StatusPublished)).

(** Successive calls of [NextCaseNumber], one for each type of the
    list, and the numbers they return. *)
Fixpoint issue (types : list string) : M (list string) :=
  match types with
  | [] => ret []
  | T :: rest =>
      s <- mock.NextCaseNumber T ;;
      ss <- issue rest ;;
      ret (s :: ss)
  end.

(** How many of the types are [T]. *)
Definition calls_for (T : string) (types : list string) : Z :=
  Z.of_nat (length (filter (λ x, x = T) types)).

End props.
Import props.

(** ** The notions the mutual exclusion of the callers is stated with *)

Module cprops.
Import concurrent.

Definition ctr (c : gmap string Z) (T : string) : Z := default 0 (c !! T).

(** Inside the critical section, between [Lock] and [Unlock]. *)
Definition critical (p : pc) : bool :=
  match p with
  | AtIncr | AtNow | AtSprintf _ | AtUnlock _ => true
  | AtLock | Returned _ => false
  end.

(** The call has added one to its counter. *)
Definition incremented (p : pc) : bool :=
  match p with
  | AtNow | AtSprintf _ | AtUnlock _ | Returned _ => true
  | AtLock | AtIncr => false
  end.

(** The number of calls that have not yet added one to a counter. *)
Fixpoint pending (l : list call) : Z :=
  match l with
  | [] => 0
  | c :: rest => (if incremented (at_pc c) then 0 else 1) + pending rest
  end.

(** The counter value a call has drawn: the value it left in the
    counter while it still holds the lock, and the value formatted
    into its result afterwards. *)
Definition ticket (st : state) (c : call) : Z :=
  match at_pc c with
  | AtNow | AtSprintf _ => ctr (counters st) (caseType c)
  | AtUnlock s | Returned s => sequence_suffix s
  | AtLock | AtIncr => 0
  end.

Record inv (c0 : gmap string Z) (st : state) : Prop := mkInv {
  inv_free : locked st = false →
    ∀ i c, calls st !! i = Some c → critical (at_pc c) = false;
  inv_excl : ∀ i j ci cj,
    calls st !! i = Some ci → calls st !! j = Some cj →
    critical (at_pc ci) = true → critical (at_pc cj) = true → i = j;
  inv_bound : ∀ T,
    0 ≤ ctr c0 T ≤ ctr (counters st) T
    ∧ ctr (counters st) T + pending (calls st) ≤ MaxInt;
  inv_range : ∀ i c,
    calls st !! i = Some c → incremented (at_pc c) = true →
    ctr c0 (caseType c) < ticket st c ≤ ctr (counters st) (caseType c);
  inv_distinct : ∀ i j ci cj,
    i ≠ j → calls st !! i = Some ci → calls st !! j = Some cj →
    incremented (at_pc ci) = true → incremented (at_pc cj) = true →
    caseType ci = caseType cj → ticket st ci ≠ ticket st cj
}.
End cprops.

(** ** Counting the stored cases *)

(** How many of the pointers lead to a record that passes a test. *)
Definition count_where (h : gmap loc Case) (f : Case → bool)
    (ps : list loc) : Z :=
  Z.of_nat (length (filter (λ p, from_option f false (h !! p) = true) ps)).

Definition has_status (s : string) (cv : Case) : bool :=
  bool_decide (Status cv = s).

Definition has_type (T : string) (cv : Case) : bool :=
  bool_decide (Type_ cv = T).

(** The cases [GetDeadlines] makes an entry for. *)
Definition has_deadline (cv : Case) : bool :=
  negb (time.IsZero (DueDate cv))
  && negb (bool_decide (Status cv = StatusClosed)).

(** The entry of a deadline list that belongs to the record behind a
    pointer: it is marked overdue exactly when the clock reading [n]
    taken for it, at tick [t] or later, has passed the due date. *)
Definition deadline_for (e : Env) (t : nat) (h : gmap loc Case)
    (d : Deadline.t) (p : loc) : Prop :=
  ∃ cv status (n : nat),
    h !! p = Some cv ∧ d = mock.deadline_of cv status
    ∧ (t ≤ n)%nat
    ∧ (status = "overdue" ↔ time.After (clock e n) (DueDate cv) = true).

(** ** The notions the progress of the callers is stated with *)

Module progress.
Import concurrent cprops.

(** The moves a call has left before it has returned. *)
Definition moves_left (p : pc) : nat :=
  match p with
  | AtLock => 5
  | AtIncr => 4
  | AtNow => 3
  | AtSprintf _ => 2
  | AtUnlock _ => 1
  | Returned _ => 0
  end.

Fixpoint work_left (l : list call) : nat :=
  match l with
  | [] => O
  | c :: rest => (moves_left (at_pc c) + work_left rest)%nat
  end.

Definition returned (c : call) : Prop := ∃ s, at_pc c = Returned s.

(** The calls for a type that have added one to its counter, and all
    calls for the type. *)
Fixpoint drawn (T : string) (l : list call) : Z :=
  match l with
  | [] => 0
  | c :: rest =>
      (if bool_decide (caseType c = T) && incremented (at_pc c)
       then 1 else 0) + drawn T rest
  end.

Definition calls_of (T : string) (l : list call) : Z :=
  Z.of_nat (length (filter (λ c, caseType c = T) l)).

(** The lock is held exactly while a call is inside the critical
    section. *)
Record lock_inv (st : state) : Prop := mkLockInv {
  lock_free : locked st = false →
    ∀ i c, calls st !! i = Some c → critical (at_pc c) = false;
  lock_held : locked st = true →
    ∃ i c, calls st !! i = Some c ∧ critical (at_pc c) = true;
  lock_excl : ∀ i j ci cj,
    calls st !! i = Some ci → calls st !! j = Some cj →
    critical (at_pc ci) = true → critical (at_pc cj) = true → i = j
}.

(** Two callers for one type: at the start, and at the moment the
    first one has taken the lock and added one to the counter. *)
Definition two_callers : state :=
  started [CaseTypeEthicsAcknowledgment; CaseTypeEthicsAcknowledgment]
    {[CaseTypeEthicsAcknowledgment := 156]}.

Definition midway : state :=
  default two_callers (run [(0%nat, 2024); (0%nat, 2024)] two_callers).

End progress.

(** ** Staff users and sessions *)

Module User.

Definition RoleAdmin : string := "admin".
Definition RoleCommissionCounsel : string := "commission_counsel".
Definition RoleStaffAttorney : string := "staff_attorney".
Definition RoleInvestigator : string := "investigator".
Definition RoleAdminStaff : string := "admin_staff".
Definition RoleReadOnly : string := "readonly".
Definition RoleAuditor : string := "auditor".

Record t := mk {
  ID : string;
  Email : string;
  PasswordHash : string;
  FirstName : string;
  LastName : string;
  Role : string;
  Title : string;
  Phone : string;
  IsActive : bool;
  LastLoginAt : option time.Time;
  CreatedAt : time.Time;
  UpdatedAt : time.Time
}.

Definition FullName (u : t) : string := FirstName u +:+ " " +:+ LastName u.

Definition CanManageCases (u : t) : bool :=
  bool_decide (Role u = RoleAdmin)
  || bool_decide (Role u = RoleCommissionCounsel)
  || bool_decide (Role u = RoleStaffAttorney)
  || bool_decide (Role u = RoleInvestigator)
  || bool_decide (Role u = RoleAdminStaff).

Definition CanPublish (u : t) : bool :=
  bool_decide (Role u = RoleAdmin)
  || bool_decide (Role u = RoleCommissionCounsel).

Definition CanViewAuditLogs (u : t) : bool :=
  bool_decide (Role u = RoleAdmin) || bool_decide (Role u = RoleAuditor).

Definition CanManageUsers (u : t) : bool := bool_decide (Role u = RoleAdmin).

End User.

Module Session.

Record t := mk {
  ID : string;
  UserID : string;
  Token : string;
  ExpiresAt : time.Time;
  CreatedAt : time.Time
}.

End Session.

(** [encoding/hex] *)
Module hex.

Definition digit (d : Z) : ascii :=
  ascii_of_N (Z.to_N (if d <? 10 then 48 + d else 87 + d)).

(** [hex.EncodeToString], on bytes given by their values. *)
Definition EncodeToString (b : list Z) : string :=
  foldr (λ x s, String (digit (x / 16)) (String (digit (x mod 16)) s)) "" b.

End hex.

(** ** Logging in and out

    The two in-memory stores behind [AuthService], and the service.
    Users and sessions are never changed once they are built, so a
    pointer to one is modelled by the record it leads to; a nil pointer
    is [None].  No call panics, so a computation is a function of the
    world. *)
Module auth.

(** What the surroundings decide: the readings of the clock, the bytes
    [crypto/rand] delivers on its n-th call, and the order in which the
    n-th [range] visits the users. *)
Record Env := mkEnv {
  clock : nat → time.Time;
  entropy : nat → nat → Z;
  range_order : nat → list (string * User.t) → list (string * User.t)
}.

Record World := mkWorld {
  env : Env;
  ticks : nat;
  draws : nat;
  ranges : nat;
  users : gmap string User.t;
  sessions : gmap string Session.t
}.

Definition M (A : Type) : Type := World → A * World.

Definition ret {A} (a : A) : M A := λ w, (a, w).
Definition bind {A B} (m : M A) (k : A → M B) : M B :=
  λ w, let '(a, w') := m w in k a w'.

Declare Scope auth_scope.
Notation "x <- m ;; k" := (bind m (λ x, k))
  (at level 100, m at next level, right associativity) : auth_scope.
Notation "m ;;; k" := (bind m (λ _, k))
  (at level 100, right associativity) : auth_scope.
Local Open Scope auth_scope.

Definition Now : M time.Time := λ w,
  (clock (env w) (ticks w),
   mkWorld (env w) (S (ticks w)) (draws w) (ranges w) (users w)
     (sessions w)).

Definition Minute : time.Duration := 60 * time.Second.

(** [t.Add(d)] *)
Definition Add (t : time.Time) (d : time.Duration) : time.Time := t + d.

(** [generateToken]: 32 bytes of [crypto/rand], in hexadecimal. *)
Definition generateToken : M string := λ w,
  (hex.EncodeToString
     ((λ i, entropy (env w) (draws w) i mod 256) <$> seq 0 32),
   mkWorld (env w) (ticks w) (S (draws w)) (ranges w) (users w)
     (sessions w)).

(** The user [NewUserRepository] starts with. *)
Definition demo_admin : User.t :=
  {| User.ID := "user_1";
     User.Email := "demo@ncoe.nv.gov";
     User.PasswordHash := "";
     User.FirstName := "Demo";
     User.LastName := "Admin";
     User.Role := User.RoleAdmin;
     User.Title := "System Administrator";
     User.Phone := "";
     User.IsActive := true;
     User.LastLoginAt := None;
     User.CreatedAt := time.zero;
     User.UpdatedAt := time.zero |}.

(** The user and the session store of [NewRepositories]: the one demo
    user of [NewUserRepository], and no session. *)
Definition NewRepositories (e : Env) : World :=
  {| env := e; ticks := 0; draws := 0; ranges := 0;
     users := <["demo@ncoe.nv.gov" := demo_admin]> ∅;
     sessions := ∅ |}.

(** The user that stands in when none is found. *)
Definition mock_user (id email : string) : User.t :=
  {| User.ID := id;
     User.Email := email;
     User.PasswordHash := "";
     User.FirstName := "Demo";
     User.LastName := "User";
     User.Role := User.RoleAdmin;
     User.Title := "";
     User.Phone := "";
     User.IsActive := true;
     User.LastLoginAt := None;
     User.CreatedAt := time.zero;
     User.UpdatedAt := time.zero |}.

(** [(r *UserRepository) GetByEmail] *)
Definition GetByEmail (email : string) : M (option User.t) := λ w,
  (users w !! email, w).

Fixpoint GetByID_loop (its : list (string * User.t)) (id : string)
    : option User.t :=
  match its with
  | [] => None
  | (_, u) :: rest =>
      if bool_decide (User.ID u = id) then Some u else GetByID_loop rest id
  end.

(** [(r *UserRepository) GetByID] *)
Definition GetByID (id : string) : M (option User.t) := λ w,
  let its := range_order (env w) (ranges w) (map_to_list (users w)) in
  let w' := mkWorld (env w) (ticks w) (draws w) (S (ranges w)) (users w)
              (sessions w) in
  match GetByID_loop its id with
  | Some u => (Some u, w')
  | None => (Some (mock_user id "demo@ncoe.nv.gov"), w')
  end.

(** [(r *SessionRepository) Create], [GetByToken] and [Delete] *)
Definition Create (s : Session.t) : M error := λ w,
  (None,
   mkWorld (env w) (ticks w) (draws w) (ranges w) (users w)
     (<[Session.Token s := s]> (sessions w))).

Definition GetByToken (token : string) : M (option Session.t) := λ w,
  (sessions w !! token, w).

Definition Delete (token : string) : M error := λ w,
  (None,
   mkWorld (env w) (ticks w) (draws w) (ranges w) (users w)
     (delete token (sessions w))).

(** [(s *Session) IsExpired] *)
Definition IsExpired (s : Session.t) : M bool :=
  now <- Now ;;
  ret (time.After now (Session.ExpiresAt s)).

(** [(s *AuthService) LoginStaff]; the fields of the session are
    evaluated in the order they are written. *)
Definition LoginStaff (email password : string)
    : M (option Session.t * error) :=
  found <- GetByEmail email ;;
  let user :=
    match found with
    | Some u => u
    | None => mock_user "demo_user" email
    end in
  token <- generateToken ;;
  id <- generateToken ;;
  expires <- Now ;;
  created <- Now ;;
  let session :=
    {| Session.ID := id;
       Session.UserID := User.ID user;
       Session.Token := token;
       Session.ExpiresAt := Add expires (30 * Minute);
       Session.CreatedAt := created |} in
  err <- Create session ;;
  match err with
  | Some e => ret (None, Some e)
  | None => ret (Some session, None)
  end.

(** [(s *AuthService) ValidateSession] *)
Definition ValidateSession (token : string) : M (option User.t * error) :=
  session <- GetByToken token ;;
  match session with
  | None => ret (None, Some "invalid session")
  | Some s =>
      expired <- IsExpired s ;;
      if expired : bool then
        Delete token ;;;
        ret (None, Some "session expired")
      else
        user <- GetByID (Session.UserID s) ;;
        match user with
        | None => ret (None, Some "user not found")
        | Some u => ret (Some u, None)
        end
  end.

(** [(s *AuthService) Logout] *)
Definition Logout (token : string) : M error := Delete token.

(** An environment for running the model: the clock advances a minute
    a reading, and the n-th token is made of the byte [n]. *)
Definition env_at (t0 : time.Time) : Env :=
  {| clock := λ n, t0 + Z.of_nat n * Minute;
     entropy := λ n _, Z.of_nat n;
     range_order := λ _ l, l |}.

End auth.


(** * Properties *)

(** ** Calendar days and business days *)

Section business_days.

Lemma nsPerDay_pos : 0 < time.nsPerDay.
Proof. reflexivity. Qed.

Lemma AddDate_one_day zone t :
  time.AddDate zone t 0 0 1
  = time.from_wall zone (time.AddDays (time.wall zone t) 1).
Proof. reflexivity. Qed.

Lemma AddDays_AddDays t a b :
  time.AddDays (time.AddDays t a) b = time.AddDays t (a + b).
Proof. unfold time.AddDays. lia. Qed.

Lemma AddDays_0 t : time.AddDays t 0 = t.
Proof. unfold time.AddDays. lia. Qed.

Lemma days_AddDays t n : time.days (time.AddDays t n) = time.days t + n.
Proof.
  unfold time.days, time.AddDays.
  rewrite Z.div_add; [done | pose proof nsPerDay_pos; lia].
Qed.

Lemma weekday_index_next t :
  time.weekday_index (time.AddDays t 1) = (time.weekday_index t + 1) mod 7.
Proof.
  unfold time.weekday_index. rewrite days_AddDays.
  rewrite Z.add_mod_idemp_l by lia. f_equal.
Qed.

Lemma weekday_index_range t : 0 ≤ time.weekday_index t < 7.
Proof. unfold time.weekday_index. apply Z.mod_pos_bound. lia. Qed.

Lemma weekday_index_cases t :
  let wd := time.weekday_index t in
  wd = 0 ∨ wd = 1 ∨ wd = 2 ∨ wd = 3 ∨ wd = 4 ∨ wd = 5 ∨ wd = 6.
Proof. intros wd. pose proof (weekday_index_range t). lia. Qed.

Lemma loop_unfold zone rounds result added days :
  service.calculateBusinessDays_loop zone rounds result added days =
  if added <? days then
    match rounds with
    | O => None
    | S r =>
        let result := time.AddDate zone result 0 0 1 in
        if negb (time.is_weekend (time.Weekday_of zone result))
        then service.calculateBusinessDays_loop zone r result (added + 1)
               days
        else service.calculateBusinessDays_loop zone r result added days
    end
  else Some result.
Proof. destruct rounds; reflexivity. Qed.

Lemma wall_loop_unfold rounds u added days :
  wall_loop rounds u added days =
  if added <? days then
    match rounds with
    | O => None
    | S r =>
        let u := time.AddDays u 1 in
        if negb (time.is_weekend (time.absWeekday u))
        then wall_loop r u (added + 1) days
        else wall_loop r u added days
    end
  else Some u.
Proof. destruct rounds; reflexivity. Qed.

Lemma days_advanced_unfold rounds wd offset added days :
  days_advanced rounds wd offset added days =
  if added <? days then
    match rounds with
    | O => None
    | S r =>
        let wd := (wd + 1) mod 7 in
        if negb (time.is_weekend (time.Weekday_of_Z wd))
        then days_advanced r wd (offset + 1) (added + 1) days
        else days_advanced r wd (offset + 1) added days
    end
  else Some offset.
Proof. destruct rounds; reflexivity. Qed.

(** On the wall clock the loop only looks at the weekday: its result
    is the start moved by the number of days [days_advanced] counts. *)
Lemma loop_days_advanced rounds : ∀ result offset added days,
  wall_loop rounds result added days =
  (λ k, time.AddDays result (k - offset)) <$>
    days_advanced rounds (time.weekday_index result) offset added days.
Proof.
  induction rounds as [|r IH]; intros result offset added days;
    rewrite wall_loop_unfold, days_advanced_unfold;
    destruct (added <? days) eqn:Hlt; simpl;
    try (f_equal; unfold time.AddDays; lia); try done.
  unfold time.absWeekday.
  rewrite weekday_index_next.
  set (result' := time.AddDays result 1).
  assert (Hshift : ∀ o : option Z,
    (λ k, time.AddDays result' (k - (offset + 1))) <$> o =
    (λ k, time.AddDays result (k - offset)) <$> o).
  { intros [k|]; simpl; [|done]. f_equal. unfold result', time.AddDays. lia. }
  destruct (negb _).
  - rewrite (IH result' (offset + 1)). subst result'.
    rewrite weekday_index_next. apply Hshift.
  - rewrite (IH result' (offset + 1)). subst result'.
    rewrite weekday_index_next. apply Hshift.
Qed.

Lemma wall_business_days_45 start :
  ∃ k, 61 ≤ k ≤ 63 ∧
    wall_business_days start 45 = Some (time.AddDays start k).
Proof.
  unfold wall_business_days.
  rewrite (loop_days_advanced _ start 0).
  destruct (weekday_index_cases start) as [H|[H|[H|[H|[H|[H|H]]]]]];
    rewrite H;
    match goal with
    | |- ∃ k, _ ∧ _ <$> ?o = _ =>
        let v := eval vm_compute in o in
        match v with
        | Some ?n => exists n; split; [lia|];
            change o with v; simpl; f_equal; lia
        end
    end.
Qed.

Lemma wall_business_days_5 start :
  ∃ k, 5 ≤ k ≤ 7 ∧
    wall_business_days start 5 = Some (time.AddDays start k).
Proof.
  unfold wall_business_days.
  rewrite (loop_days_advanced _ start 0).
  destruct (weekday_index_cases start) as [H|[H|[H|[H|[H|[H|H]]]]]];
    rewrite H;
    match goal with
    | |- ∃ k, _ ∧ _ <$> ?o = _ =>
        let v := eval vm_compute in o in
        match v with
        | Some ?n => exists n; split; [lia|];
            change o with v; simpl; f_equal; lia
        end
    end.
Qed.

Lemma business_days_within_shift start k :
  business_days_within start (S k) =
  (if business_day (time.AddDays start 1) then 1 else 0)
  + business_days_within (time.AddDays start 1) k.
Proof.
  induction k as [|k IH].
  - unfold business_days_within. change (Z.of_nat 1) with 1.
    destruct (business_day _); lia.
  - change (business_days_within start (S (S k))) with
      (business_days_within start (S k)
       + (if business_day (time.AddDays start (Z.of_nat (S (S k))))
          then 1 else 0)).
    change (business_days_within (time.AddDays start 1) (S k)) with
      (business_days_within (time.AddDays start 1) k
       + (if business_day
               (time.AddDays (time.AddDays start 1) (Z.of_nat (S k)))
          then 1 else 0)).
    rewrite IH, AddDays_AddDays.
    replace (1 + Z.of_nat (S k)) with (Z.of_nat (S (S k))) by lia. lia.
Qed.

(** The loop counts as the deadline rule says: when it ends it stands
    on a business day, and the business days passed since the start
    make up the days still to be added. *)
Lemma loop_counts rounds : ∀ result added days due,
  added < days →
  wall_loop rounds result added days = Some due →
  ∃ k : nat,
    due = time.AddDays result (Z.of_nat k)
    ∧ business_days_within result k = days - added
    ∧ business_day due = true.
Proof.
  induction rounds as [|r IH]; intros result added days due Hlt;
    rewrite wall_loop_unfold; apply Z.ltb_lt in Hlt as Hb; rewrite Hb;
    [done|]. simpl.
  set (result' := time.AddDays result 1).
  destruct (negb (time.is_weekend (time.absWeekday result'))) eqn:Hbd.
  - intros Hloop.
    destruct (decide (added + 1 < days)) as [Hmore|Hlast].
    + destruct (IH _ _ _ _ Hmore Hloop) as (k & -> & Hk & Hdue).
      exists (S k). rewrite business_days_within_shift.
      fold result'. unfold business_day at 1. rewrite Hbd.
      split; [|split; [lia|done]].
      unfold result'. rewrite AddDays_AddDays. f_equal. lia.
    + rewrite wall_loop_unfold in Hloop.
      assert ((added + 1 <? days) = false) as Hf by (apply Z.ltb_ge; lia).
      rewrite Hf in Hloop. injection Hloop as <-.
      exists 1%nat. split; [done|]. split; [|exact Hbd].
      simpl. change (time.AddDays result (Z.of_nat 1)) with result'.
      unfold business_day. rewrite Hbd. lia.
  - intros Hloop.
    destruct (IH _ _ _ _ Hlt Hloop) as (k & -> & Hk & Hdue).
    exists (S k). rewrite business_days_within_shift.
    fold result'. unfold business_day at 1. rewrite Hbd.
    split; [|split; [lia|done]].
    unfold result'. rewrite AddDays_AddDays. f_equal. lia.
Qed.

Lemma loop_returns rounds : ∀ result added days,
  added < days →
  3 * (days - added - 1) + rounds_to_next (time.weekday_index result)
    ≤ Z.of_nat rounds →
  is_Some (wall_loop rounds result added days).
Proof.
  induction rounds as [|r IH]; intros result added days Hlt Hr;
    rewrite wall_loop_unfold; apply Z.ltb_lt in Hlt as Hb; rewrite Hb.
  { unfold rounds_to_next in Hr. repeat case_match; lia. }
  simpl.
  set (result' := time.AddDays result 1).
  pose proof (weekday_index_next result) as Hnext. fold result' in Hnext.
  unfold time.absWeekday. rewrite Hnext.
  assert (Hn : rounds_to_next (time.weekday_index result') ≤ 3).
  { unfold rounds_to_next. repeat case_match; lia. }
  destruct (weekday_index_cases result) as [H|[H|[H|[H|[H|[H|H]]]]]];
    rewrite H in *; simpl; unfold rounds_to_next in Hr; simpl in Hr.
  1-5: destruct (decide (added + 1 < days));
         [apply IH; [lia|]; lia
         |rewrite wall_loop_unfold;
          assert ((added + 1 <? days) = false) as -> by (apply Z.ltb_ge; lia);
          done].
  - apply IH; [lia|]. rewrite Hnext. simpl. unfold rounds_to_next. simpl. lia.
  - apply IH; [lia|]. rewrite Hnext. simpl. unfold rounds_to_next. simpl. lia.
Qed.

(** On the wall clock the loop returns, for every start and every
    number of days. *)
Lemma wall_business_days_returns start days :
  is_Some (wall_business_days start days).
Proof.
  unfold wall_business_days.
  destruct (decide (0 < days)) as [Hpos|Hneg].
  - apply loop_returns; [done|].
    assert (rounds_to_next (time.weekday_index start) ≤ 3).
    { unfold rounds_to_next. repeat case_match; lia. }
    lia.
  - rewrite wall_loop_unfold.
    assert ((0 <? days) = false) as -> by (apply Z.ltb_ge; lia). done.
Qed.

(** Where the time of day of the start exists on every later day, the
    loop of [calculateBusinessDays] reads, on the wall clock of the
    location, what the loop on the wall clock computes. *)
Lemma loop_on_wall zone start :
  keeps_clock zone start →
  ∀ rounds (j : Z) result added days,
  0 ≤ j →
  time.wall zone result = time.AddDays (time.wall zone start) j →
  time.wall zone
    <$> service.calculateBusinessDays_loop zone rounds result added days
  = wall_loop rounds (time.wall zone result) added days.
Proof.
  intros Hkeeps. induction rounds as [|r IH];
    intros j result added days Hj Hresult;
    rewrite loop_unfold, wall_loop_unfold;
    destruct (added <? days); try done.
  cbv zeta. rewrite AddDate_one_day.
  set (result' := time.from_wall zone
                    (time.AddDays (time.wall zone result) 1)).
  assert (Hwall : time.wall zone result'
                  = time.AddDays (time.wall zone result) 1).
  { unfold result'. rewrite Hresult, AddDays_AddDays.
    apply Hkeeps. lia. }
  unfold time.Weekday_of. rewrite Hwall.
  assert (Hnext : time.wall zone result'
                  = time.AddDays (time.wall zone start) (j + 1)).
  { by rewrite Hwall, Hresult, AddDays_AddDays. }
  destruct (negb _); rewrite <- Hwall; apply (IH (j + 1)); (lia || done).
Qed.

Lemma calculateBusinessDays_on_wall zone start days :
  keeps_clock zone start →
  time.wall zone <$> service.calculateBusinessDays zone start days
  = wall_business_days (time.wall zone start) days.
Proof.
  intros Hkeeps. apply (loop_on_wall zone start Hkeeps _ 0); [done|].
  by rewrite AddDays_0.
Qed.

(** Without days to add the loop is not entered. *)
Lemma calculateBusinessDays_no_days zone start days :
  days ≤ 0 → service.calculateBusinessDays zone start days = Some start.
Proof.
  intros Hdays. unfold service.calculateBusinessDays. rewrite loop_unfold.
  by assert ((0 <? days) = false) as -> by (apply Z.ltb_ge; lia).
Qed.

Lemma calculateBusinessDays_returns zone start days :
  keeps_clock zone start →
  is_Some (service.calculateBusinessDays zone start days).
Proof.
  intros Hkeeps.
  pose proof (calculateBusinessDays_on_wall zone start days Hkeeps) as Hw.
  destruct (wall_business_days_returns (time.wall zone start) days)
    as [u Hu].
  rewrite Hu in Hw.
  destruct (service.calculateBusinessDays zone start days); [eauto|done].
Qed.

Lemma calculateBusinessDays_counts zone start days due :
  keeps_clock zone start →
  0 < days →
  service.calculateBusinessDays zone start days = Some due →
  business_days_after zone start days due.
Proof.
  intros Hkeeps Hpos Hcalc.
  pose proof (calculateBusinessDays_on_wall zone start days Hkeeps) as Hw.
  rewrite Hcalc in Hw. simpl in Hw. symmetry in Hw.
  unfold wall_business_days in Hw.
  destruct (loop_counts _ _ _ _ _ Hpos Hw) as (k & ? & ? & ?).
  exists k. split; [done|]. split; [lia|done].
Qed.

Lemma calculateBusinessDays_45 zone start :
  keeps_clock zone start →
  ∃ k due, 61 ≤ k ≤ 63
    ∧ service.calculateBusinessDays zone start 45 = Some due
    ∧ time.wall zone due = time.AddDays (time.wall zone start) k.
Proof.
  intros Hkeeps.
  pose proof (calculateBusinessDays_on_wall zone start 45 Hkeeps) as Hw.
  destruct (wall_business_days_45 (time.wall zone start)) as (k & Hk & Hu).
  rewrite Hu in Hw.
  destruct (service.calculateBusinessDays zone start 45) as [due|];
    [|done].
  injection Hw as Hw. by exists k, due.
Qed.

Lemma calculateBusinessDays_5 zone start :
  keeps_clock zone start →
  ∃ k due, 5 ≤ k ≤ 7
    ∧ service.calculateBusinessDays zone start 5 = Some due
    ∧ time.wall zone due = time.AddDays (time.wall zone start) k.
Proof.
  intros Hkeeps.
  pose proof (calculateBusinessDays_on_wall zone start 5 Hkeeps) as Hw.
  destruct (wall_business_days_5 (time.wall zone start)) as (k & Hk & Hu).
  rewrite Hu in Hw.
  destruct (service.calculateBusinessDays zone start 5) as [due|];
    [|done].
  injection Hw as Hw. by exists k, due.
Qed.

End business_days.

(** ** Formatted case numbers *)

Section formatting.

Lemma append_cons a s t : String a s +:+ t = String a (s +:+ t).
Proof. reflexivity. Qed.

Lemma append_nil s : "" +:+ s = s.
Proof. reflexivity. Qed.

Lemma append_assoc (s t u : string) : (s +:+ t) +:+ u = s +:+ (t +:+ u).
Proof.
  induction s as [|a s IH]; [done|].
  rewrite !append_cons. by rewrite IH.
Qed.

Lemma digit_value_digit_char d :
  0 ≤ d < 10 → digit_value (fmt.digit_char d) = Some d.
Proof.
  intros Hd.
  assert (d = 0 ∨ d = 1 ∨ d = 2 ∨ d = 3 ∨ d = 4 ∨ d = 5 ∨ d = 6 ∨ d = 7
          ∨ d = 8 ∨ d = 9) as Hcases by lia.
  repeat (destruct Hcases as [-> | Hcases]; [reflexivity|]).
  subst. reflexivity.
Qed.

(** Reading back the digits [fmt] wrote gives the number again. *)
Lemma trailing_number_fmt_digits rounds : ∀ u acc,
  0 ≤ u < 10 ^ Z.of_nat rounds →
  trailing_number (fmt.fmt_digits rounds u acc) 0 = trailing_number acc u.
Proof.
  induction rounds as [|r IH]; intros u acc Hu.
  - simpl in *. by replace u with 0 by lia.
  - cbn [fmt.fmt_digits].
    rewrite Nat2Z.inj_succ, Z.pow_succ_r in Hu by lia.
    destruct (10 <=? u) eqn:Hten.
    + apply Z.leb_le in Hten.
      rewrite IH by (split; [apply Z.div_pos; lia
                          |apply Z.div_lt_upper_bound; lia]).
      cbn [trailing_number].
      rewrite digit_value_digit_char by (apply Z.mod_pos_bound; lia).
      f_equal. pose proof (Z.div_mod u 10). lia.
    + apply Z.leb_gt in Hten. cbn [trailing_number].
      rewrite digit_value_digit_char by lia. f_equal; lia.
Qed.

Lemma trailing_number_digits u :
  0 ≤ u < 10 ^ 20 → trailing_number (fmt.digits u) 0 = u.
Proof. intros Hu. unfold fmt.digits. by rewrite trailing_number_fmt_digits. Qed.

Lemma trailing_number_zeros k s :
  trailing_number (fmt.zeros k +:+ s) 0 = trailing_number s 0.
Proof.
  induction k as [|k IH]; [done|].
  cbn [fmt.zeros]. rewrite append_cons. cbn [trailing_number]. exact IH.
Qed.

Lemma trailing_number_after_dash a s acc :
  trailing_number (a +:+ String "-" s) acc = trailing_number s 0.
Proof.
  revert acc. induction a as [|c a IH]; intros acc.
  - reflexivity.
  - rewrite append_cons. cbn [trailing_number].
    destruct (digit_value c); apply IH.
Qed.

(** The sequence suffix of a formatted case number is the counter
    value it was formatted from. *)
Lemma sequence_suffix_Sprintf T year n :
  0 ≤ n < 10 ^ 20 →
  sequence_suffix (fmt.Sprintf_s_d_03d T year n) = n.
Proof.
  intros Hn. unfold sequence_suffix, fmt.Sprintf_s_d_03d.
  change (T +:+ "-" +:+ fmt.fmt_d year +:+ "-" +:+ fmt.fmt_03d n)
    with (T +:+ (String "-" (fmt.fmt_d year)) +:+ String "-" (fmt.fmt_03d n)).
  rewrite <- append_assoc, trailing_number_after_dash.
  unfold fmt.fmt_03d.
  assert ((n <? 0) = false) as -> by (apply Z.ltb_ge; lia).
  unfold fmt.pad_zeros.
  rewrite trailing_number_zeros. by apply trailing_number_digits.
Qed.

Lemma Sprintf_inj T y1 y2 n1 n2 :
  0 ≤ n1 < 10 ^ 20 → 0 ≤ n2 < 10 ^ 20 →
  fmt.Sprintf_s_d_03d T y1 n1 = fmt.Sprintf_s_d_03d T y2 n2 → n1 = n2.
Proof.
  intros H1 H2 Heq.
  rewrite <- (sequence_suffix_Sprintf T y1 n1), <- (sequence_suffix_Sprintf T y2 n2)
    by done.
  by rewrite Heq.
Qed.

Lemma MaxInt_digits : rt.MaxInt < 10 ^ 20.
Proof. reflexivity. Qed.

Lemma incr_no_overflow x : - 2 ^ 63 ≤ x < rt.MaxInt → rt.incr x = x + 1.
Proof.
  unfold rt.incr, time.wrap64, rt.MaxInt. intros Hx.
  rewrite Z.mod_small; lia.
Qed.

End formatting.

(** ** Running the operations *)

Ltac go_run H :=
  unfold bind, deref, get_repo, put_repo, Now, get_Local, assign, ret,
    service.run;
  simpl;
  repeat (first [rewrite H | rewrite lookup_insert_eq]; simpl).

Lemma bind_run {A B} (m : M A) (k : A → M B) w a w1 :
  m w = Some (a, w1) → bind m k w = k a w1.
Proof. intros H. unfold bind. by rewrite H. Qed.

Section create.

(** What [CaseService.Create] does to a record on the heap. *)
Lemma Create_runs w c cv :
  heap w !! c = Some cv →
  day_steps_keep_clock w cv →
  ∃ due,
    (∀ n, statutory_days (Type_ cv) = Some n →
          service.calculateBusinessDays (Local (env w)) (SubmittedAt cv) n
          = Some due)
    ∧ service.Create c w =
      Some ((next_number w (Type_ cv), None),
            {| env := env w;
               ticks := 4 + ticks w;
               ranges := ranges w;
               heap :=
                 <[c := with_due ((λ _, due) <$> statutory_days (Type_ cv))
                          (stamped w cv)]> (heap w);
               repo :=
                 {| cases := <[ID (stamped w cv) := c]> (cases (repo w));
                    counters :=
                      <[Type_ cv := incr (counter w (Type_ cv))]>
                        (counters (repo w)) |} |}).
Proof.
  intros H Hkeeps.
  unfold service.Create, mock.NextCaseNumber, mock.Create.
  unfold day_steps_keep_clock, statutory_days in *.
  go_run H.
  repeat case_bool_decide.
  - destruct (calculateBusinessDays_returns (Local (env w))
                (SubmittedAt cv) 45) as [d45 H45]; [by apply Hkeeps|].
    rewrite H45. go_run H. rewrite ?insert_insert_eq.
    exists d45. split; [by intros n [= <-]|]. reflexivity.
  - destruct (calculateBusinessDays_returns (Local (env w))
                (SubmittedAt cv) 5) as [d5 H5]; [by apply Hkeeps|].
    rewrite H5. go_run H. rewrite ?insert_insert_eq.
    exists d5. split; [by intros n [= <-]|]. reflexivity.
  - go_run H. rewrite ?insert_insert_eq.
    exists time.zero. split; [done|]. reflexivity.
Qed.

Lemma with_due_fields due cv :
  ID (with_due due cv) = ID cv
  ∧ Status (with_due due cv) = Status cv
  ∧ SubmittedAt (with_due due cv) = SubmittedAt cv
  ∧ CaseNumber (with_due due cv) = CaseNumber cv.
Proof. by destruct due. Qed.

End create.

Section create_claims.





(** C4 (amended).  The store's [Create] puts the record under its ID
    and returns nil in every case; when the ID is already present the
    entry is replaced by the new record. *)
Theorem store_Create_replaces w c cv :
  heap w !! c = Some cv →
  ∃ w',
    mock.Create c w = Some (None, w')
    ∧ cases (repo w') = <[ID cv := c]> (cases (repo w))
    ∧ rt.counters (repo w') = rt.counters (repo w)
    ∧ heap w' = heap w
    ∧ mock.GetByID (ID cv) w' = Some (Some c, w').
Proof.
  intros H. unfold mock.Create, mock.GetByID. go_run H.
  eexists. split; [reflexivity|]. simpl.
  by rewrite lookup_insert_eq.
Qed.

Lemma store_Create_replaces_witness :
  let p := (demo.with_record demo.duplicate_of_1 demo.world).1 in
  let w := (demo.with_record demo.duplicate_of_1 demo.world).2 in
  heap w !! p = Some demo.duplicate_of_1
  ∧ ∃ w',
    mock.Create p w = Some (None, w')
    ∧ cases (repo w') = <[ID demo.duplicate_of_1 := p]> (cases (repo w))
    ∧ rt.counters (repo w') = rt.counters (repo w)
    ∧ heap w' = heap w
    ∧ mock.GetByID (ID demo.duplicate_of_1) w' = Some (Some p, w').
Proof.
  intros p w.
  assert (H : heap w !! p = Some demo.duplicate_of_1)
    by (vm_compute; reflexivity).
  split; [exact H|]. exact (store_Create_replaces w p demo.duplicate_of_1 H).
Defined.

(** C4, as stated, fails: the seeded store holds a case with the ID
    ["1"]; creating another record with that ID returns nil, and the
    entry ["1"] then leads to the new record. *)
Lemma store_Create_replaces_counterexample :
  let p := (demo.with_record demo.duplicate_of_1 demo.world).1 in
  let w := (demo.with_record demo.duplicate_of_1 demo.world).2 in
  (old ← cases (repo w) !! "1";
   r ← mock.Create p w;
   new ← cases (repo r.2) !! "1";
   Some (r.1, bool_decide (old = p), bool_decide (new = p)))
  = Some (None, false, true).
Proof. vm_compute. reflexivity. Qed.

End create_claims.

(** ** Status updates *)

Section update_status.

Lemma well_keyed_no_dangling w : well_keyed w → no_dangling w.
Proof. intros Hwk k p Hk. destruct (Hwk k p Hk) as (cv & -> & _). eauto. Qed.

Lemma set_fields_ID status now cv :
  ID (set_UpdatedAt now (set_Status status cv)) = ID cv.
Proof. reflexivity. Qed.

(** C6 (amended).  On a store whose records are kept under their IDs,
    [UpdateStatus(caseID, newStatus)] returns the not-found error,
    and leaves everything as it is, exactly when no case with
    [caseID] exists.  Otherwise it returns nil for any status value:
    the case's status becomes [newStatus], [UpdatedAt] becomes the
    reading of the clock at the call, whatever the old [UpdatedAt]
    was, and [GetByID(caseID)] leads to the changed record.  The new
    [UpdatedAt] is strictly later than the old one exactly when the
    reading of the clock is. *)
Theorem UpdateStatus_spec w caseID status :
  well_keyed w →
  let now := clock (env w) (ticks w) in
  ∃ err w',
    service.UpdateStatus caseID status w = Some (err, w')
    ∧ (err = Some (fmt.Errorf_case_not_found caseID)
       ∨ err = None)
    ∧ (is_Some err ↔ cases (repo w) !! caseID = None)
    ∧ (cases (repo w) !! caseID = None → w' = w)
    ∧ (∀ c cv, cases (repo w) !! caseID = Some c → heap w !! c = Some cv →
         service.GetByID caseID w' = Some (Some c, w')
         ∧ heap w' !! c = Some (set_UpdatedAt now (set_Status status cv))
         ∧ (∀ cv', heap w' !! c = Some cv' →
              Status cv' = status ∧ UpdatedAt cv' = now
              ∧ (UpdatedAt cv < UpdatedAt cv' ↔ UpdatedAt cv < now))
         ∧ cases (repo w') = cases (repo w)).
Proof.
  intros Hwk now.
  unfold service.UpdateStatus, service.GetByID, mock.GetByID, mock.Update.
  destruct (cases (repo w) !! caseID) as [c|] eqn:Hc.
  - destruct (Hwk _ _ Hc) as (cv & Hcv & HID).
    go_run Hc. go_run Hcv. rewrite HID. go_run Hc.
    eexists _, _. split; [reflexivity|]. simpl.
    split; [by right|].
    split; [split; [by intros [? [=]]|done]|].
    split; [done|].
    intros c0 cv0 [= <-] Hcv0. rewrite Hcv in Hcv0. injection Hcv0 as <-.
    rewrite !lookup_insert_eq, insert_insert_eq.
    split; [reflexivity|]. split; [reflexivity|].
    split; [|by apply insert_id].
    intros cv' [= <-]. simpl. done.
  - go_run Hc.
    eexists _, _. split; [reflexivity|].
    split; [by left|].
    split; [split; [done|by eauto]|].
    split; [by destruct w|]. done.
Qed.

End update_status.

(** ** Listing with filters *)

Section list_filters.

Lemma HasPrefix_spec prefix : ∀ s,
  strings.HasPrefix s prefix = true ↔ ∃ rest, s = prefix +:+ rest.
Proof.
  induction prefix as [|a p IH]; intros s.
  - split; [intros _; by exists s|]. by destruct s.
  - destruct s as [|b t]; simpl.
    + split; [done|]. by intros [rest [=]].
    + rewrite andb_true_iff, bool_decide_eq_true, IH. split.
      * intros [-> [rest ->]]. by exists rest.
      * intros [rest [= -> ->]]. split; [done|]. by exists rest.
Qed.

Lemma Contains_unfold s substr :
  strings.Contains s substr =
  strings.HasPrefix s substr ||
  match s with
  | EmptyString => false
  | String _ t => strings.Contains t substr
  end.
Proof. by destruct s. Qed.

(** [strings.Contains] finds exactly the substrings. *)
Lemma Contains_spec substr : ∀ s,
  strings.Contains s substr = true ↔
  ∃ before after, s = before +:+ substr +:+ after.
Proof.
  intros s. split.
  - induction s as [|a t IH]; rewrite Contains_unfold, orb_true_iff.
    + intros [H|H]; [|done].
      apply HasPrefix_spec in H as [rest ->]. by exists "", rest.
    + intros [H|H].
      * apply HasPrefix_spec in H as [rest ->]. by exists "", rest.
      * destruct (IH H) as (before & after & ->).
        by exists (String a before), after.
  - intros (before & after & ->).
    induction before as [|a before IH]; rewrite Contains_unfold, orb_true_iff.
    + left. apply HasPrefix_spec. by exists after.
    + right. exact IH.
Qed.

Lemma keeps_spec lower typeFilter statusFilter query cv :
  keeps lower typeFilter statusFilter query cv = true ↔
  type_matches typeFilter cv ∧ status_matches statusFilter cv
  ∧ text_matches lower query cv.
Proof.
  unfold keeps, type_matches, status_matches, text_matches.
  rewrite !andb_true_iff, !orb_true_iff, !bool_decide_eq_true, Contains_spec.
  tauto.
Qed.

Lemma List_loop_runs typeFilter statusFilter query its : ∀ result w,
  (∀ kp, kp ∈ its → is_Some (heap w !! kp.2)) →
  mock.List_loop its typeFilter statusFilter query result w =
  Some (result ++
          filter (λ p, listed w typeFilter statusFilter query p = true)
            its.*2, w).
Proof.
  induction its as [|[k c] its IH]; intros result w Hvalid.
  - simpl. unfold ret. by rewrite app_nil_r.
  - destruct (Hvalid (k, c)) as [cv Hcv]; [by left|]. simpl in Hcv.
    assert (Hrest : ∀ kp, kp ∈ its → is_Some (heap w !! kp.2))
      by (intros kp Hkp; apply Hvalid; by right).
    assert (Hl : listed w typeFilter statusFilter query c =
                 keeps (strings_ToLower (env w)) typeFilter statusFilter
                   query cv) by (unfold listed; by rewrite Hcv).
    cbn [mock.List_loop fmap list_fmap].
    rewrite filter_cons. simpl.
    unfold bind at 1, deref. rewrite Hcv.
    unfold mock.query_misses, ToLower.
    destruct (decide _) as [Hk|Hk]; rewrite Hl in Hk; unfold keeps in Hk;
      destruct (bool_decide (typeFilter = "")),
        (bool_decide (Type_ cv = typeFilter)),
        (bool_decide (statusFilter = "")),
        (bool_decide (Status cv = statusFilter)),
        (bool_decide (query = "")); simpl in *;
      unfold bind, ret; simpl;
      try destruct (strings.Contains _ _); simpl in *;
      try done; try (by destruct Hk);
      rewrite IH by done; try done;
      by rewrite <- app_assoc.
Qed.

(** C7.  [List(typeFilter, statusFilter, textQuery)] returns exactly
    the stored cases that match all three filters, each stored entry
    once and in no particular order: the empty string matches
    everything in its dimension, type and status compare by equality,
    and a text query matches when the lower-cased concatenation of
    number, summary and submitter name contains the lower-cased query.
    In particular [List("AO", "", "")] returns only cases of type
    AO. *)
Theorem List_filters w typeFilter statusFilter query :
  range_visits_all (env w) →
  no_dangling w →
  ∃ result w',
    mock.List typeFilter statusFilter query w = Some (result, w')
    ∧ heap w' = heap w ∧ repo w' = repo w
    ∧ result ≡ₚ
        filter (λ p, listed w typeFilter statusFilter query p = true)
          (map_to_list (cases (repo w))).*2
    ∧ (∀ p, p ∈ result ↔
         ∃ cv, stored w p cv
           ∧ type_matches typeFilter cv
           ∧ status_matches statusFilter cv
           ∧ text_matches (strings_ToLower (env w)) query cv)
    ∧ (typeFilter = "AO" →
         ∀ p cv, p ∈ result → heap w !! p = Some cv → Type_ cv = "AO").
Proof.
  intros Hrange Hvalid.
  unfold mock.List, range_cases. unfold bind at 1.
  set (its := range_order (env w) (ranges w)
                (map_to_list (cases (repo w)))).
  assert (Hits : its ≡ₚ map_to_list (cases (repo w))) by apply Hrange.
  set (w1 := {| env := env w; ticks := ticks w; ranges := S (ranges w);
                heap := heap w; repo := repo w |}).
  rewrite (List_loop_runs _ _ _ its [] w1).
  2:{ intros [k p] Hkp. simpl. apply (Hvalid k p).
      apply elem_of_map_to_list. by rewrite <- Hits. }
  simpl.
  assert (Hmem : ∀ p,
    p ∈ filter (λ p, listed w1 typeFilter statusFilter query p = true)
          its.*2 ↔
    ∃ cv, stored w p cv ∧ type_matches typeFilter cv
      ∧ status_matches statusFilter cv
      ∧ text_matches (strings_ToLower (env w)) query cv).
  { intros p. rewrite list_elem_of_filter, list_elem_of_fmap.
    unfold listed, stored. simpl. split.
    - intros [Hkeep ([k p'] & -> & Hkp)]. simpl in *.
      rewrite Hits in Hkp. apply elem_of_map_to_list in Hkp.
      destruct (heap w !! p') as [cv|] eqn:Hcv; [|done].
      exists cv. apply keeps_spec in Hkeep. eauto.
    - intros (cv & [[k Hk] Hcv] & Hm). rewrite Hcv. split.
      + apply keeps_spec. tauto.
      + exists (k, p). split; [done|].
        rewrite Hits. by apply elem_of_map_to_list. }
  eexists _, _. split; [reflexivity|].
  split; [done|]. split; [done|].
  split; [by rewrite Hits|].
  split; [exact Hmem|].
  intros -> p cv Hp Hcv.
  apply Hmem in Hp as (cv' & [_ Hcv'] & [HT|HT] & _); [done|].
  congruence.
Qed.

End list_filters.

(** ** Deadlines and overdue cases *)

Section overdue.

Lemma IsOverdue_runs w c cv :
  heap w !! c = Some cv →
  ∃ w',
    case.IsOverdue c w = Some (overdue_at (clock (env w) (ticks w)) cv, w')
    ∧ heap w' = heap w ∧ repo w' = repo w ∧ env w' = env w
    ∧ ranges w' = ranges w
    ∧ (ticks w ≤ ticks w' ≤ S (ticks w))%nat.
Proof.
  intros H. unfold case.IsOverdue, overdue_at. go_run H.
  destruct (time.IsZero (DueDate cv)); simpl.
  - exists w. repeat split; auto with lia.
  - eexists. split; [reflexivity|]. simpl. repeat split; auto with lia.
Qed.

Lemma overdue_at_spec now cv :
  overdue_at now cv = true ↔
  DueDate cv ≠ time.zero ∧ DueDate cv < now
  ∧ Status cv ≠ StatusClosed ∧ Status cv ≠ StatusPublished.
Proof.
  unfold overdue_at, time.IsZero, time.After, time.zero.
  rewrite !andb_true_iff, !negb_true_iff, !bool_decide_eq_false.
  rewrite Z.eqb_neq, Z.ltb_lt. tauto.
Qed.

Lemma deadline_status_runs due w :
  ∃ status w',
    mock.deadline_status due w = Some (status, w')
    ∧ heap w' = heap w ∧ repo w' = repo w ∧ env w' = env w
    ∧ ranges w' = ranges w.
Proof.
  unfold mock.deadline_status, bind, Now, ret. simpl.
  destruct (time.After _ _); [by eexists _, _|].
  destruct (time.Hours_lt _ _); by eexists _, _.
Qed.

(** Every entry [GetDeadlines] collects comes from a visited case that
    has a due date and is not closed. *)
Lemma GetDeadlines_loop_runs (h : gmap loc Case) (ok : Deadline.t → Prop)
    its : ∀ limit deadlines w,
  heap w = h →
  (∀ kp, kp ∈ its → is_Some (h !! kp.2)) →
  (∀ kp cv status, kp ∈ its → h !! kp.2 = Some cv →
     time.IsZero (DueDate cv) = false → Status cv ≠ StatusClosed →
     ok (mock.deadline_of cv status)) →
  Forall ok deadlines →
  ∃ deadlines' w',
    mock.GetDeadlines_loop its limit deadlines w = Some (deadlines', w')
    ∧ Forall ok deadlines'
    ∧ heap w' = h ∧ repo w' = repo w ∧ env w' = env w
    ∧ ranges w' = ranges w.
Proof.
  induction its as [|[k c] its IH]; intros limit ds w Hh Hvalid Hok Hds.
  - by eexists _, _.
  - destruct (Hvalid (k, c)) as [cv Hcv]; [by left|]. simpl in Hcv.
    cbn [mock.GetDeadlines_loop].
    unfold bind at 1, deref. rewrite Hh, Hcv.
    assert (Hstep : ∃ ds1 w1,
      (if negb (time.IsZero (DueDate cv))
          && negb (bool_decide (Status cv = StatusClosed))
       then status <- mock.deadline_status (DueDate cv) ;;
            ret (ds ++ [mock.deadline_of cv status])
       else ret ds) w = Some (ds1, w1)
      ∧ Forall ok ds1 ∧ heap w1 = h ∧ repo w1 = repo w
      ∧ env w1 = env w ∧ ranges w1 = ranges w).
    { destruct (time.IsZero (DueDate cv)) eqn:Hz; simpl;
        [by eexists _, _|].
      case_bool_decide as Hst; simpl; [by eexists _, _|].
      destruct (deadline_status_runs (DueDate cv) w)
        as (st & w1 & Hrun & Hh1 & Hr1 & He1 & Hg1).
      unfold bind. rewrite Hrun. eexists _, _. split; [reflexivity|].
      split; [|by rewrite Hh1].
      apply Forall_app. split; [done|]. apply Forall_singleton.
      apply (Hok (k, c)); [by left|done..]. }
    destruct Hstep as (ds1 & w1 & Hrun & Hds1 & Hh1 & Hr1 & He1 & Hg1).
    rewrite (bind_run _ _ _ _ _ Hrun).
    destruct (limit <=? Z.of_nat (length ds1)).
    + by eexists _, _.
    + destruct (IH limit ds1 w1 Hh1) as (ds' & w' & ? & ? & ? & ? & ? & ?);
        [intros kp ?; apply Hvalid; by right
        |intros kp ?? Hkp; apply (Hok kp); by right
        |done|].
      eexists _, _. split; [done|]. repeat split; congruence.
Qed.

Lemma GetDeadlines_runs w limit :
  range_visits_all (env w) →
  no_dangling w →
  ∃ deadlines w',
    mock.GetDeadlines limit w = Some (deadlines, w')
    ∧ heap w' = heap w ∧ repo w' = repo w
    ∧ ∀ d, d ∈ deadlines →
        ∃ p cv status,
          stored w p cv
          ∧ DueDate cv ≠ time.zero
          ∧ Status cv ≠ StatusClosed
          ∧ d = mock.deadline_of cv status.
Proof.
  intros Hrange Hvalid. unfold mock.GetDeadlines, range_cases.
  unfold bind at 1.
  set (its := range_order (env w) (ranges w)
                (map_to_list (cases (repo w)))).
  assert (Hits : ∀ k p, (k, p) ∈ its → cases (repo w) !! k = Some p).
  { intros k p Hkp. apply elem_of_map_to_list.
    by rewrite <- (Hrange (ranges w) (map_to_list (cases (repo w)))). }
  set (w1 := {| env := env w; ticks := ticks w; ranges := S (ranges w);
                heap := heap w; repo := repo w |}).
  edestruct (GetDeadlines_loop_runs (heap w)
    (λ d, ∃ p cv status, stored w p cv ∧ DueDate cv ≠ time.zero
            ∧ Status cv ≠ StatusClosed ∧ d = mock.deadline_of cv status)
    its limit [] w1)
    as (ds & w' & Hrun & Hds & Hh & Hr & _).
  - reflexivity.
  - intros [k p] Hkp. eapply Hvalid, Hits, Hkp.
  - intros [k p] cv st Hkp Hcv Hz Hst. exists p, cv, st. simpl in *.
    split; [split; [|done]; exists k; by apply Hits|].
    split; [|done]. unfold time.IsZero in Hz.
    apply Z.eqb_neq in Hz. done.
  - constructor.
  - eexists _, _. split; [exact Hrun|]. split; [done|]. split; [done|].
    intros d Hd. by apply (proj1 (Forall_forall _ _) Hds).
Qed.

Lemma well_keyed_injective w p p' cv cv' :
  well_keyed w → stored w p cv → stored w p' cv' → ID cv = ID cv' →
  p = p' ∧ cv = cv'.
Proof.
  intros Hwk [[k Hk] Hcv] [[k' Hk'] Hcv'] HID.
  destruct (Hwk _ _ Hk) as (c0 & Hc0 & <-).
  destruct (Hwk _ _ Hk') as (c1 & Hc1 & <-).
  assert (c0 = cv) as -> by congruence.
  assert (c1 = cv') as -> by congruence.
  rewrite HID in Hk. assert (p = p') as -> by congruence.
  split; [done|congruence].
Qed.

(** C10.  A case whose due date is the zero time is not overdue,
    whatever its status and whatever the clock shows, and
    [GetDeadlines] returns no entry for it: every entry it returns
    belongs to a stored case with a due date. *)
Theorem no_due_date_no_deadline w :
  (∀ c cv, heap w !! c = Some cv → DueDate cv = time.zero →
     case.IsOverdue c w = Some (false, w))
  ∧ (range_visits_all (env w) → well_keyed w →
     ∀ limit, ∃ deadlines w',
       mock.GetDeadlines limit w = Some (deadlines, w')
       ∧ (∀ d, d ∈ deadlines → Deadline.DueDate d ≠ time.zero)
       ∧ (∀ p cv, stored w p cv → DueDate cv = time.zero →
            ∀ d, d ∈ deadlines → Deadline.CaseID d ≠ ID cv)).
Proof.
  split.
  - intros c cv H Hz. unfold case.IsOverdue. go_run H. by rewrite Hz.
  - intros Hrange Hwk limit.
    destruct (GetDeadlines_runs w limit Hrange (well_keyed_no_dangling w Hwk))
      as (ds & w' & Hrun & _ & _ & Hds).
    exists ds, w'. split; [done|]. split.
    + intros d Hd. destruct (Hds d Hd) as (p & cv & st & _ & Hz & _ & ->).
      done.
    + intros p cv Hst Hz d Hd HID.
      destruct (Hds d Hd) as (p' & cv' & st & Hst' & Hz' & _ & ->).
      simpl in HID.
      destruct (well_keyed_injective w p' p cv' cv Hwk Hst' Hst HID)
        as [_ ->].
      done.
Qed.

Lemma filter_all {A} (P : A → Prop) `{∀ x, Decision (P x)} (l : list A) :
  (∀ x, x ∈ l → P x) → filter P l = l.
Proof.
  induction l as [|x l IH]; intros Hall; [done|].
  rewrite filter_cons. destruct (decide (P x)) as [|Hn].
  - f_equal. apply IH. intros y Hy. apply Hall. by right.
  - destruct Hn. apply Hall. by left.
Qed.

Lemma deref_all_runs ps : ∀ w,
  (∀ p, p ∈ ps → is_Some (heap w !! p)) →
  ∃ cs, service.deref_all ps w = Some (cs, w).
Proof.
  induction ps as [|p ps IH]; intros w Hvalid; [by eexists|].
  destruct (Hvalid p) as [cv Hcv]; [by left|].
  destruct (IH w) as [cs Hcs]; [intros q ?; apply Hvalid; by right|].
  cbn [service.deref_all]. unfold bind at 1, deref. rewrite Hcv.
  rewrite (bind_run _ _ _ _ _ Hcs). by eexists.
Qed.

(** The overdue count of [GetStats] goes up by one for each case that
    [IsOverdue] reports. *)
Lemma GetStats_loop_runs (e : Env) (h : gmap loc Case) now allCases :
  ∀ n w,
  env w = e → heap w = h →
  (∀ p, p ∈ allCases → is_Some (h !! p)) →
  (∀ (i : nat) p cv,
     (ticks w ≤ i < ticks w + length allCases)%nat →
     p ∈ allCases → h !! p = Some cv →
     time.After (clock e i) (DueDate cv) = time.After now (DueDate cv)) →
  ∃ n' w',
    service.GetStats_loop allCases n w = Some (n', w')
    ∧ service.totalOverdue n' =
        service.totalOverdue n
        + Z.of_nat (length (filter
            (λ p, from_option (overdue_at now) false (h !! p) = true)
            allCases))
    ∧ heap w' = h ∧ repo w' = repo w ∧ env w' = e
    ∧ ranges w' = ranges w.
Proof.
  induction allCases as [|c rest IH]; intros n w He Hh Hvalid Hsteady.
  - eexists _, _. split; [reflexivity|]. simpl. repeat split; auto with lia.
  - destruct (Hvalid c) as [cv Hcv]; [by left|].
    assert (Hcv' : heap w !! c = Some cv) by by rewrite Hh.
    destruct (IsOverdue_runs w c cv Hcv')
      as (w1 & Hov & Hh1 & Hr1 & He1 & Hg1 & Ht1).
    assert (Hsame : overdue_at (clock (env w) (ticks w)) cv
                    = overdue_at now cv).
    { unfold overdue_at. rewrite He.
      rewrite (Hsteady (ticks w) c cv); [done| |by left|done].
      simpl. lia. }
    rewrite Hsame in Hov.
    cbn [service.GetStats_loop]. unfold bind at 1, deref. rewrite Hcv'.
    set (counted := λ k : service.counts,
      service.totalOverdue k =
      (if overdue_at now cv then service.totalOverdue n + 1
       else service.totalOverdue n)).
    assert (Hgo : ∀ n1, counted n1 →
      ∃ n' w', service.GetStats_loop rest n1 w1 = Some (n', w')
        ∧ service.totalOverdue n' =
            service.totalOverdue n
            + Z.of_nat (length (filter
                (λ p, from_option (overdue_at now) false (h !! p) = true)
                (c :: rest)))
        ∧ heap w' = h ∧ repo w' = repo w ∧ env w' = e
        ∧ ranges w' = ranges w).
    { intros n1 Hn1.
      destruct (IH n1 w1) as (n' & w' & Hrun & Htot & ? & ? & ? & ?).
      - congruence.
      - congruence.
      - intros p ?. apply Hvalid. by right.
      - intros i p cv0 Hi Hp. apply Hsteady; [|by right].
        simpl. lia.
      - exists n', w'. split; [done|].
        split; [|repeat split; congruence].
        rewrite Htot, Hn1, filter_cons.
        destruct (decide _) as [Hd|Hd]; rewrite Hcv in Hd; simpl in Hd.
        + rewrite Hd. simpl length. lia.
        + destruct (overdue_at now cv); [done|]. lia. }
    destruct (bool_decide (Status cv = StatusClosed)),
      (bool_decide (Status cv = StatusSubmitted));
      rewrite (bind_run _ _ _ _ _ Hov); apply Hgo; reflexivity.
Qed.

Lemma List_all_runs w :
  no_dangling w →
  (∀ k p, (k, p) ∈ range_order (env w) (ranges w)
                      (map_to_list (cases (repo w))) →
          cases (repo w) !! k = Some p) →
  mock.List "" "" "" w =
  Some ((range_order (env w) (ranges w) (map_to_list (cases (repo w)))).*2,
        {| env := env w; ticks := ticks w; ranges := S (ranges w);
           heap := heap w; repo := repo w |}).
Proof.
  intros Hvalid Hits. unfold mock.List, range_cases. unfold bind at 1.
  rewrite List_loop_runs.
  - simpl. rewrite filter_all; [done|].
    intros p [[k p'] [-> Hkp]]%list_elem_of_fmap. simpl.
    destruct (Hvalid k p' (Hits k p' Hkp)) as [cv Hcv].
    unfold listed. simpl. by rewrite Hcv.
  - intros [k p] Hkp. simpl. apply (Hvalid k p), Hits, Hkp.
Qed.

(** C5 (amended).  [IsOverdue] classifies a case as overdue exactly
    when its due date is not the zero time and lies in the past and
    its status is neither [closed] nor [published]; a closed case,
    and likewise a published one, is never overdue.  The overdue
    count of [GetStats] is the number of stored cases that are
    overdue in this sense at the time of the call. *)
Theorem overdue_classification w now :
  (∀ c cv, heap w !! c = Some cv →
     ∃ w', case.IsOverdue c w
           = Some (overdue_at (clock (env w) (ticks w)) cv, w'))
  ∧ (∀ t cv, overdue_at t cv = true ↔
       DueDate cv ≠ time.zero ∧ DueDate cv < t
       ∧ Status cv ≠ StatusClosed ∧ Status cv ≠ StatusPublished)
  ∧ (range_visits_all (env w) → sort_rearranges (env w) →
     no_dangling w → steady now w →
     ∃ stats w',
       service.GetStats w = Some (stats, w')
       ∧ TotalOverdue stats =
           Z.of_nat (length (filter
             (λ p, from_option (overdue_at now) false (heap w !! p) = true)
             (map_to_list (cases (repo w))).*2))).
Proof.
  split; [|split].
  - intros c cv H.
    destruct (IsOverdue_runs w c cv H) as (w' & Hrun & _). eauto.
  - apply overdue_at_spec.
  - intros Hrange Hsort Hvalid Hsteady.
    set (its := range_order (env w) (ranges w)
                  (map_to_list (cases (repo w)))).
    assert (Hperm : its ≡ₚ map_to_list (cases (repo w))) by apply Hrange.
    assert (Hits : ∀ k p, (k, p) ∈ its → cases (repo w) !! k = Some p).
    { intros k p Hkp. apply elem_of_map_to_list. by rewrite <- Hperm. }
    assert (Hptr : ∀ p, p ∈ its.*2 → ∃ k, cases (repo w) !! k = Some p).
    { intros p [[k p'] [-> Hkp]]%list_elem_of_fmap. exists k. by apply Hits. }
    pose proof (List_all_runs w Hvalid Hits) as HList. fold its in HList.
    set (w1 := {| env := env w; ticks := ticks w; ranges := S (ranges w);
                  heap := heap w; repo := repo w |}) in HList.
    destruct (GetStats_loop_runs (env w) (heap w) now its.*2
                (service.mkCounts 0 0 0 0 ∅ ∅) w1)
      as (n & w2 & Hloop & Htot & Hh2 & Hr2 & He2 & Hg2); [done|done| | |].
    { intros p Hp. destruct (Hptr p Hp) as [k Hk]. by apply (Hvalid k). }
    { intros i p cv Hi Hp Hcv. apply (Hsteady i p cv); [|by apply Hptr|done].
      simpl in Hi. rewrite length_fmap, Hperm, length_map_to_list in Hi.
      done. }
    set (sorted := sort_Slice (env w2) loc
                     (service.submitted_after (heap w2)) its.*2).
    destruct (deref_all_runs (take 5 sorted) w2) as [recent Hrecent].
    { intros p Hp%subseteq_take. unfold sorted in Hp.
      rewrite He2, (Hsort _ _ _) in Hp.
      destruct (Hptr p Hp) as [k Hk]. rewrite Hh2. by apply (Hvalid k). }
    destruct (GetDeadlines_runs w2 5) as (ds & w3 & Hdl & _).
    { by rewrite He2. }
    { intros k p Hk. rewrite Hh2. rewrite Hr2 in Hk. by apply (Hvalid k). }
    unfold service.GetStats.
    rewrite (bind_run _ _ _ _ _ HList), (bind_run _ _ _ _ _ Hloop).
    rewrite (bind_run service.current_heap _ w2 (heap w2) w2 eq_refl).
    rewrite (bind_run (Slice _ _) _ w2 sorted w2 eq_refl).
    rewrite (bind_run _ _ _ _ _ Hrecent), (bind_run _ _ _ _ _ Hdl).
    unfold bind, Slice, ret. eexists _, _. split; [reflexivity|].
    simpl. rewrite Htot. simpl. by rewrite Hperm.
Qed.

End overdue.

(** ** The seeded store as an instance *)

Ltac zone_lia := unfold time.alpha, time.omega; lia.

(** Settles a comparison of the goal, the inner ones first, by
    arithmetic where the context decides it and by cases where not. *)
Ltac settle_comparison :=
  first
    [ match goal with
      | |- context [?a <? ?b] =>
          first [ rewrite (proj2 (Z.ltb_lt a b)) by zone_lia
                | rewrite (proj2 (Z.ltb_ge a b)) by zone_lia ]
      | |- context [?a <=? ?b] =>
          first [ rewrite (proj2 (Z.leb_le a b)) by zone_lia
                | rewrite (proj2 (Z.leb_gt a b)) by zone_lia ]
      end
    | match goal with
      | |- context [?a <? ?b] => destruct (Z.ltb_spec a b)
      | |- context [?a <=? ?b] => destruct (Z.leb_spec a b)
      end ].

Section instances.

Lemma well_keyedb_sound w : well_keyedb w = true → well_keyed w.
Proof.
  unfold well_keyedb. rewrite forallb_forall. intros H k p Hk.
  apply elem_of_map_to_list, list_elem_of_In in Hk.
  specialize (H _ Hk). simpl in H.
  destruct (heap w !! p) as [cv|]; [|done].
  apply bool_decide_eq_true in H. eauto.
Qed.

Lemma insert_sorted_perm {A} (less : A → A → bool) x l :
  demo.insert_sorted less x l ≡ₚ x :: l.
Proof.
  induction l as [|y l IH]; [done|]. simpl.
  destruct (less y x); [|done].
  rewrite IH. apply Permutation_swap.
Qed.

Lemma insertion_sort_perm A (less : A → A → bool) l :
  demo.insertion_sort A less l ≡ₚ l.
Proof.
  induction l as [|x l IH]; [done|].
  unfold demo.insertion_sort in *. simpl.
  by rewrite insert_sorted_perm, IH.
Qed.

Lemma demo_world_well_keyed : well_keyed demo.world.
Proof. apply well_keyedb_sound. vm_compute. reflexivity. Qed.

Lemma demo_world_range : range_visits_all (env demo.world).
Proof.
  intros n l. reflexivity.
Qed.

Lemma still_world_well_keyed : well_keyed demo.still_world.
Proof. apply well_keyedb_sound. vm_compute. reflexivity. Qed.

Lemma still_world_steady :
  steady (time.AddDays demo.t0 1) demo.still_world.
Proof. intros n p cv _ _ _. reflexivity. Qed.

(** In a zone with one offset for all time every time of day exists
    on every day; UTC is such a zone. *)
Lemma fixed_offset_keeps_clock offset start :
  keeps_clock (time.mkLocation (λ _, (offset, time.alpha, time.omega))) start.
Proof.
  intros j _.
  unfold time.wall, time.from_wall, time.offset_at. cbn [time.lookup fst snd].
  destruct (Z.eqb_spec offset 0) as [->|_]; [lia|].
  destruct (_ || _); lia.
Qed.

Lemma UTC_keeps_clock start : keeps_clock time.UTC start.
Proof. exact (fixed_offset_keeps_clock 0 start). Qed.

(** On Pacific time a wall-clock reading past the hour that the
    change of March 10, 2024 leaves out (02:00 to 03:00) is the reading
    of the instant [time.Date] finds for it; a reading of the hour that
    comes twice on November 3 is one of the two instants with it. *)
Lemma Pacific_from_wall u :
  1710064800 - 25200 ≤ u / time.Second - time.unixToInternal →
  time.wall demo.Pacific (time.from_wall demo.Pacific u) = u.
Proof.
  intros Hu.
  unfold time.wall, time.from_wall, time.offset_at, time.unixSec.
  set (unix := u / time.Second - time.unixToInternal) in *.
  assert (Hshift : ∀ o, (u - o * time.Second) / time.Second
                        - time.unixToInternal = unix - o).
  { intros o. unfold unix.
    replace (u - o * time.Second) with (u + (- o) * time.Second) by lia.
    rewrite Z.div_add by done. lia. }
  unfold demo.Pacific. cbn [time.lookup].
  destruct (Z.ltb_spec unix 1710064800);
    [|destruct (Z.ltb_spec unix 1730624400)];
    cbn [fst snd orb Z.eqb];
    repeat (settle_comparison; cbn [fst snd orb Z.eqb]; rewrite ?Hshift);
    lia.
Qed.

(** From March 10, 2024, 10:00 UTC on, the time of day of an instant
    exists on Pacific time on every later day. *)
Lemma Pacific_keeps_clock start :
  1710064800 ≤ time.unixSec start → keeps_clock demo.Pacific start.
Proof.
  intros Hstart j Hj. apply Pacific_from_wall.
  unfold time.AddDays, time.wall, time.unixSec in *.
  set (o := time.offset_at demo.Pacific
              (start / time.Second - time.unixToInternal)).
  replace (start + o * time.Second + j * time.nsPerDay)
    with (start + (o + j * 86400) * time.Second)
    by (unfold time.nsPerDay, time.Hour; lia).
  rewrite Z.div_add by done.
  assert (-28800 ≤ o).
  { unfold o, time.offset_at, demo.Pacific. cbn [time.lookup].
    repeat (settle_comparison; cbn [fst snd]); lia. }
  lia.
Qed.

Lemma Pacific_day_steps w cv :
  Local (env w) = demo.Pacific →
  1710064800 ≤ time.unixSec (SubmittedAt cv) →
  day_steps_keep_clock w cv.
Proof. intros HL Hs _. rewrite HL. by apply Pacific_keeps_clock. Qed.

(** A request handed in on Friday, November 1, 2024, at 20:00 on
    Pacific time: the day is a Friday on the wall clock of the zone
    and a Saturday on UTC.  The first business day after it is Monday,
    November 4, at 20:00 on Pacific time, three calendar days and,
    with the clocks gone back on the Sunday, 73 hours on. *)
Lemma friday_evening_next_business_day :
  time.Weekday_of demo.Pacific demo.friday_evening = time.Friday
  ∧ time.Weekday_of time.UTC demo.friday_evening = time.Saturday
  ∧ service.calculateBusinessDays demo.Pacific demo.friday_evening 1
    = Some (demo.friday_evening + 73 * time.Hour)
  ∧ time.wall demo.Pacific (demo.friday_evening + 73 * time.Hour)
    = time.AddDays (time.wall demo.Pacific demo.friday_evening) 3.
Proof. vm_compute. done. Qed.

End instances.

Section witnesses.

Lemma UpdateStatus_spec_witness :
  let w := demo.world in
  let caseID := "1" in
  let status := StatusUnderReview in
  well_keyed w
  ∧ let now := clock (env w) (ticks w) in
    ∃ err w',
      service.UpdateStatus caseID status w = Some (err, w')
      ∧ (err = Some (fmt.Errorf_case_not_found caseID) ∨ err = None)
      ∧ (is_Some err ↔ cases (repo w) !! caseID = None)
      ∧ (cases (repo w) !! caseID = None → w' = w)
      ∧ (∀ c cv, cases (repo w) !! caseID = Some c → heap w !! c = Some cv →
           service.GetByID caseID w' = Some (Some c, w')
           ∧ heap w' !! c = Some (set_UpdatedAt now (set_Status status cv))
           ∧ (∀ cv', heap w' !! c = Some cv' →
                Status cv' = status ∧ UpdatedAt cv' = now
                ∧ (UpdatedAt cv < UpdatedAt cv' ↔ UpdatedAt cv < now))
           ∧ cases (repo w') = cases (repo w)).
Proof.
  intros w caseID status. split; [exact demo_world_well_keyed|].
  exact (UpdateStatus_spec w caseID status demo_world_well_keyed).
Defined.

(** C6, as stated, fails: under a clock that stands still, two updates
    of the seeded case 1 one after the other both return nil, and the
    second leaves [UpdatedAt] as the first set it, not strictly
    later. *)
Lemma UpdateStatus_spec_counterexample :
  (r1 ← service.UpdateStatus "1" StatusUnderReview demo.still_world;
   p ← cases (repo r1.2) !! "1";
   before ← heap r1.2 !! p;
   r2 ← service.UpdateStatus "1" StatusClosed r1.2;
   after ← heap r2.2 !! p;
   Some (r1.1, r2.1, Status after,
         bool_decide (UpdatedAt before < UpdatedAt after),
         bool_decide (UpdatedAt after = UpdatedAt before)))
  = Some (None, None, StatusClosed, false, true).
Proof. vm_compute. reflexivity. Qed.


(** The request of Friday evening falls due on Friday, November 8,
    2024, at 20:00 on Pacific time: seven calendar days and 169 hours
    after it was handed in. *)
Lemma evening_request_due :
  let p := (demo.with_record demo.evening_request demo.world).1 in
  let w := (demo.with_record demo.evening_request demo.world).2 in
  (r ← service.Create p w;
   cv' ← heap r.2 !! p;
   Some (DueDate cv' - SubmittedAt cv',
         time.wall demo.Pacific (DueDate cv')
         - time.wall demo.Pacific (SubmittedAt cv'),
         time.Weekday_of demo.Pacific (DueDate cv')))
  = Some (169 * time.Hour, 7 * time.nsPerDay, time.Friday).
Proof. vm_compute. reflexivity. Qed.


Lemma List_filters_witness :
  let w := demo.world in
  range_visits_all (env w) ∧ no_dangling w
  ∧ ∃ result w',
      mock.List "AO" "" "garcia" w = Some (result, w')
      ∧ heap w' = heap w ∧ repo w' = repo w
      ∧ result ≡ₚ
          filter (λ p, listed w "AO" "" "garcia" p = true)
            (map_to_list (cases (repo w))).*2
      ∧ (∀ p, p ∈ result ↔
           ∃ cv, stored w p cv
             ∧ type_matches "AO" cv
             ∧ status_matches "" cv
             ∧ text_matches (strings_ToLower (env w)) "garcia" cv)
      ∧ ("AO" = "AO" →
           ∀ p cv, p ∈ result → heap w !! p = Some cv → Type_ cv = "AO").
Proof.
  intros w.
  pose proof (well_keyed_no_dangling w demo_world_well_keyed) as Hvalid.
  split; [exact demo_world_range|]. split; [exact Hvalid|].
  exact (List_filters w "AO" "" "garcia" demo_world_range Hvalid).
Defined.

Lemma no_due_date_no_deadline_witness :
  let w := demo.world in
  (range_visits_all (env w) ∧ well_keyed w)
  ∧ (∀ c cv, heap w !! c = Some cv → DueDate cv = time.zero →
       case.IsOverdue c w = Some (false, w))
  ∧ (range_visits_all (env w) → well_keyed w →
     ∀ limit, ∃ deadlines w',
       mock.GetDeadlines limit w = Some (deadlines, w')
       ∧ (∀ d, d ∈ deadlines → Deadline.DueDate d ≠ time.zero)
       ∧ (∀ p cv, stored w p cv → DueDate cv = time.zero →
            ∀ d, d ∈ deadlines → Deadline.CaseID d ≠ ID cv)).
Proof.
  intros w.
  split; [split; [exact demo_world_range|exact demo_world_well_keyed]|].
  exact (no_due_date_no_deadline w).
Defined.

Lemma overdue_classification_witness :
  let w := demo.still_world in
  let now := time.AddDays demo.t0 1 in
  (range_visits_all (env w) ∧ sort_rearranges (env w)
   ∧ no_dangling w ∧ steady now w)
  ∧ (∀ c cv, heap w !! c = Some cv →
       ∃ w', case.IsOverdue c w
             = Some (overdue_at (clock (env w) (ticks w)) cv, w'))
  ∧ (∀ t cv, overdue_at t cv = true ↔
       DueDate cv ≠ time.zero ∧ DueDate cv < t
       ∧ Status cv ≠ StatusClosed ∧ Status cv ≠ StatusPublished)
  ∧ (range_visits_all (env w) → sort_rearranges (env w) →
     no_dangling w → steady now w →
     ∃ stats w',
       service.GetStats w = Some (stats, w')
       ∧ TotalOverdue stats =
           Z.of_nat (length (filter
             (λ p, from_option (overdue_at now) false (heap w !! p) = true)
             (map_to_list (cases (repo w))).*2))).
Proof.
  intros w now. split.
  - split; [by intros n l|]. split; [exact insertion_sort_perm|].
    split; [exact (well_keyed_no_dangling w still_world_well_keyed)|].
    exact still_world_steady.
  - exact (overdue_classification w now).
Defined.

(** C5, as stated, fails: the seeded case 6 is under review with a due
    date two days back; once its status is [published] its due date is
    still in the past and its status is not [closed], yet [IsOverdue]
    answers false and the overdue count of [GetStats] drops from 1
    to 0. *)
Lemma overdue_classification_counterexample :
  (before ← service.GetStats demo.world;
   r ← service.UpdateStatus "6" StatusPublished demo.world;
   p ← cases (repo r.2) !! "6";
   cv ← heap r.2 !! p;
   o ← case.IsOverdue p r.2;
   after ← service.GetStats r.2;
   Some (Status cv,
         time.IsZero (DueDate cv),
         time.After (clock (env r.2) (ticks r.2)) (DueDate cv),
         bool_decide (Status cv = StatusClosed),
         o.1, TotalOverdue before.1, TotalOverdue after.1))
  = Some (StatusPublished, false, true, false, false, 1, 0).
Proof. vm_compute. reflexivity. Qed.

End witnesses.

(** ** Case numbers issued one after the other *)

Section numbering.

Lemma NextCaseNumber_runs w T :
  mock.NextCaseNumber T w =
  Some (next_number w T,
        {| env := env w; ticks := S (ticks w); ranges := ranges w;
           heap := heap w;
           repo := {| cases := cases (repo w);
                      counters := <[T := incr (counter w T)]>
                                    (counters (repo w)) |} |}).
Proof.
  unfold mock.NextCaseNumber, next_number, counter.
  unfold bind, get_repo, put_repo, Now, ret. simpl.
  by rewrite lookup_insert_eq.
Qed.

Lemma counter_after_next w T T' :
  counter {| env := env w; ticks := S (ticks w); ranges := ranges w;
             heap := heap w;
             repo := {| cases := cases (repo w);
                        counters := <[T := incr (counter w T)]>
                                      (counters (repo w)) |} |} T'
  = if decide (T = T') then incr (counter w T) else counter w T'.
Proof.
  unfold counter. simpl. destruct (decide (T = T')) as [->|Hne].
  - by rewrite lookup_insert_eq.
  - by rewrite lookup_insert_ne.
Qed.

Lemma calls_for_cons T x types :
  calls_for T (x :: types) =
  (if decide (x = T) then 1 else 0) + calls_for T types.
Proof.
  unfold calls_for. rewrite filter_cons.
  destruct (decide (x = T)); simpl length; lia.
Qed.

Lemma calls_for_take_lt T : ∀ types (i j : nat),
  (i < j)%nat → types !! i = Some T →
  calls_for T (take i types) < calls_for T (take j types).
Proof.
  induction types as [|x types IH]; intros i j Hij Hi; [done|].
  destruct j as [|j]; [lia|]. destruct i as [|i]; simpl in *.
  - injection Hi as ->. rewrite calls_for_cons, decide_True by done.
    unfold calls_for. simpl. lia.
  - rewrite !calls_for_cons. specialize (IH i j ltac:(lia) Hi). lia.
Qed.

Lemma issue_runs types : ∀ w,
  (∀ T, T ∈ types →
     0 ≤ counter w T ∧ counter w T + Z.of_nat (length types) ≤ MaxInt) →
  ∃ out w',
    issue types w = Some (out, w')
    ∧ length out = length types
    ∧ (∀ (i : nat) T s, types !! i = Some T → out !! i = Some s →
         sequence_suffix s = counter w T + 1 + calls_for T (take i types))
    ∧ (∀ T, counter w' T = counter w T + calls_for T types)
    ∧ cases (repo w') = cases (repo w) ∧ heap w' = heap w.
Proof.
  induction types as [|T0 rest IH]; intros w Hb.
  - exists [], w. split; [done|]. split; [done|].
    split; [done|]. split; [|done]. intros T. unfold calls_for. simpl. lia.
  - destruct (Hb T0) as [Hlo Hhi]; [by left|].
    simpl length in Hhi.
    assert (Hincr : incr (counter w T0) = counter w T0 + 1)
      by (apply incr_no_overflow; unfold MaxInt in *; lia).
    pose proof (NextCaseNumber_runs w T0) as Hnext.
    set (w1 := {| env := env w; ticks := S (ticks w); ranges := ranges w;
                  heap := heap w;
                  repo := {| cases := cases (repo w);
                             counters := <[T0 := incr (counter w T0)]>
                                           (counters (repo w)) |} |})
      in Hnext.
    assert (Hc1 : ∀ T, counter w1 T =
                       if decide (T0 = T) then counter w T0 + 1
                       else counter w T).
    { intros T. unfold w1. rewrite counter_after_next, Hincr. done. }
    destruct (IH w1) as (out & w' & Hrun & Hlen & Hsuf & Hctr & Hcs & Hh).
    { intros T HT. rewrite Hc1. destruct (decide (T0 = T)) as [<-|Hne].
      - lia.
      - destruct (Hb T) as [? ?]; [by right|]. simpl length in *. lia. }
    exists (next_number w T0 :: out), w'.
    cbn [issue]. rewrite (bind_run _ _ _ _ _ Hnext), (bind_run _ _ _ _ _ Hrun).
    split; [done|]. split; [simpl; by rewrite Hlen|].
    split; [|split; [|done]].
    + intros [|i] T s HT Hs; simpl in *.
      * injection HT as <-. injection Hs as <-.
        unfold next_number. rewrite sequence_suffix_Sprintf.
        -- rewrite Hincr.
           change (calls_for T0 []) with 0. lia.
        -- rewrite Hincr. pose proof MaxInt_digits. lia.
      * rewrite (Hsuf i T s HT Hs), Hc1, calls_for_cons.
        destruct (decide (T0 = T)) as [->|]; lia.
    + intros T. rewrite Hctr, Hc1, calls_for_cons.
      destruct (decide (T0 = T)) as [->|]; lia.
Qed.

(** C8.  Sequential calls of [NextCaseNumber], for any mix of types:
    as long as no counter reaches the largest [int], every call adds
    exactly one to the counter of its type, nothing resets a counter,
    and the numeric suffix of the number returned is the new counter
    value; so of two calls for the same type the later one returns the
    strictly larger suffix. *)
Theorem sequential_numbers_increase w types :
  (∀ T, T ∈ types →
     0 ≤ counter w T ∧ counter w T + Z.of_nat (length types) ≤ MaxInt) →
  ∃ out w',
    issue types w = Some (out, w')
    ∧ length out = length types
    ∧ (∀ (i : nat) T s, types !! i = Some T → out !! i = Some s →
         sequence_suffix s = counter w T + 1 + calls_for T (take i types))
    ∧ (∀ (i j : nat) T si sj, (i < j)%nat →
         types !! i = Some T → types !! j = Some T →
         out !! i = Some si → out !! j = Some sj →
         sequence_suffix si < sequence_suffix sj)
    ∧ (∀ T, counter w' T = counter w T + calls_for T types).
Proof.
  intros Hb.
  destruct (issue_runs types w Hb) as (out & w' & Hrun & Hlen & Hsuf & Hctr & _).
  exists out, w'. split; [done|]. split; [done|]. split; [done|].
  split; [|done].
  intros i j T si sj Hij Hi Hj Hsi Hsj.
  rewrite (Hsuf i T si Hi Hsi), (Hsuf j T sj Hj Hsj).
  pose proof (calls_for_take_lt T types i j Hij Hi). lia.
Qed.

Lemma sequential_numbers_increase_witness :
  let w := demo.world in
  let types := ["EA"; "AO"; "EA"] in
  (∀ T, T ∈ types →
     0 ≤ counter w T ∧ counter w T + Z.of_nat (length types) ≤ MaxInt)
  ∧ ∃ out w',
    issue types w = Some (out, w')
    ∧ length out = length types
    ∧ (∀ (i : nat) T s, types !! i = Some T → out !! i = Some s →
         sequence_suffix s = counter w T + 1 + calls_for T (take i types))
    ∧ (∀ (i j : nat) T si sj, (i < j)%nat →
         types !! i = Some T → types !! j = Some T →
         out !! i = Some si → out !! j = Some sj →
         sequence_suffix si < sequence_suffix sj)
    ∧ (∀ T, counter w' T = counter w T + calls_for T types).
Proof.
  intros w types.
  assert (Hb : ∀ T, T ∈ types →
    0 ≤ counter w T ∧ counter w T + Z.of_nat (length types) ≤ MaxInt).
  { intros T HT. unfold types in HT |- *.
    assert (Hlen : Z.of_nat (length ["EA"; "AO"; "EA"]) = 3) by reflexivity.
    rewrite Hlen. clear Hlen.
    assert (T = "EA" ∨ T = "AO") as [-> | ->].
    { apply elem_of_cons in HT as [->|HT]; [by left|].
      apply elem_of_cons in HT as [->|HT]; [by right|].
      apply elem_of_cons in HT as [->|HT]; [by left|].
      by apply elem_of_nil in HT. }
    - replace (counter w "EA") with 156 by (vm_compute; reflexivity).
      clear. unfold MaxInt. lia.
    - replace (counter w "AO") with 42 by (vm_compute; reflexivity).
      clear. unfold MaxInt. lia. }
  split; [exact Hb|]. exact (sequential_numbers_increase w types Hb).
Defined.

(** C9, at the input where the code leaves the format: the store is
    seeded with the EA counter at 156, and the 844th number issued for
    EA after that is ["EA-2024-1000"], which has four digits in its
    last field and does not match [^(AO|EC|EA|PRR)-\d{4}-\d{3}$]. *)
Theorem case_number_beyond_999 :
  (r ← issue (replicate 844 CaseTypeEthicsAcknowledgment) demo.world;
   s ← last r.1;
   Some (s, case_number_format s,
         counter r.2 CaseTypeEthicsAcknowledgment))
  = Some ("EA-2024-1000", false, 1000).
Proof. vm_compute. reflexivity. Qed.

End numbering.

(** ** Case numbers issued to concurrent callers *)

Module concurrent_proofs.
Import concurrent cprops.

Lemma pending_nonneg l : 0 ≤ pending l.
Proof. induction l as [|c l IH]; simpl; [lia|]. destruct (incremented _); lia. Qed.

Lemma pending_insert l : ∀ i c c',
  l !! i = Some c →
  pending (<[i := c']> l) =
  pending l - (if incremented (at_pc c) then 0 else 1)
  + (if incremented (at_pc c') then 0 else 1).
Proof.
  induction l as [|x l IH]; intros [|i] c c' H; simplify_eq/=; [lia|].
  rewrite (IH i c c' H). lia.
Qed.

Lemma lookup_moved (l : list call) i c' j cj :
  <[i := c']> l !! j = Some cj →
  (j = i ∧ cj = c') ∨ (j ≠ i ∧ l !! j = Some cj).
Proof.
  intros H. destruct (decide (j = i)) as [->|Hne].
  - left. split; [done|].
    destruct (decide (i < length l)%nat).
    + rewrite list_lookup_insert_eq in H by done. congruence.
    + rewrite list_insert_ge in H by lia.
      apply lookup_lt_Some in H. lia.
  - right. split; [done|]. by rewrite list_lookup_insert_ne in H.
Qed.

Lemma ctr_insert c T n T' :
  ctr (<[T := n]> c) T' = if decide (T = T') then n else ctr c T'.
Proof.
  unfold ctr. destruct (decide (T = T')) as [->|Hne].
  - by rewrite lookup_insert_eq.
  - by rewrite lookup_insert_ne.
Qed.

Lemma inv_initial st :
  initial st →
  (∀ T, 0 ≤ ctr (counters st) T
        ∧ ctr (counters st) T + Z.of_nat (length (calls st)) ≤ MaxInt) →
  inv (counters st) st.
Proof.
  intros [Hfree Hall] Hb.
  assert (Hpc : ∀ i c, calls st !! i = Some c → at_pc c = AtLock).
  { intros i c Hc. by apply (proj1 (Forall_lookup _ _) Hall i c). }
  assert (Hpend : pending (calls st) ≤ Z.of_nat (length (calls st))).
  { clear. induction (calls st) as [|c l IH]; simpl; [lia|].
    destruct (incremented _); lia. }
  split.
  - intros _ i c Hc. by rewrite (Hpc i c Hc).
  - intros i j ci cj Hi _ Hci. by rewrite (Hpc i ci Hi) in Hci.
  - intros T. specialize (Hb T). lia.
  - intros i c Hc Hin. by rewrite (Hpc i c Hc) in Hin.
  - intros i j ci cj _ Hi _ Hin. by rewrite (Hpc i ci Hi) in Hin.
Qed.

Lemma ticket_same_counters st l calls' c :
  ticket (mkState l (counters st) calls') c = ticket st c.
Proof. reflexivity. Qed.

(** A move that changes neither the counters nor what the moving call
    has drawn keeps the bounds and the tickets. *)
Lemma moved_data c0 st i c c' l' :
  inv c0 st → calls st !! i = Some c →
  caseType c' = caseType c →
  incremented (at_pc c') = incremented (at_pc c) →
  ticket st c' = ticket st c →
  let st' := mkState l' (counters st) (<[i := c']> (calls st)) in
  (∀ T, 0 ≤ ctr c0 T ≤ ctr (counters st') T
        ∧ ctr (counters st') T + pending (calls st') ≤ MaxInt)
  ∧ (∀ j cj, calls st' !! j = Some cj → incremented (at_pc cj) = true →
       ctr c0 (caseType cj) < ticket st' cj
       ≤ ctr (counters st') (caseType cj))
  ∧ (∀ j k cj ck, j ≠ k →
       calls st' !! j = Some cj → calls st' !! k = Some ck →
       incremented (at_pc cj) = true → incremented (at_pc ck) = true →
       caseType cj = caseType ck → ticket st' cj ≠ ticket st' ck).
Proof.
  intros Hinv Hi HT Hinc Htk st'. subst st'. simpl.
  split; [|split].
  - intros T. rewrite (pending_insert _ i c c' Hi), Hinc.
    destruct (inv_bound _ _ Hinv T). destruct (incremented (at_pc c)); lia.
  - intros j cj Hj Hin. rewrite ticket_same_counters.
    apply lookup_moved in Hj as [[-> ->]|[Hne Hj]].
    + rewrite Htk, HT. apply (inv_range _ _ Hinv i c Hi). by rewrite <- Hinc.
    + by apply (inv_range _ _ Hinv j cj).
  - intros j k cj ck Hjk Hj Hk Hinj Hink HTjk.
    rewrite !ticket_same_counters.
    apply lookup_moved in Hj as [[-> ->]|[Hnej Hj]];
      apply lookup_moved in Hk as [[-> ->]|[Hnek Hk]]; try done.
    + rewrite Htk. apply (inv_distinct _ _ Hinv i k c ck); try done.
      * by rewrite <- Hinc.
      * congruence.
    + rewrite Htk. apply (inv_distinct _ _ Hinv j i cj c); try done.
      * by rewrite <- Hinc.
      * congruence.
    + by apply (inv_distinct _ _ Hinv j k cj ck).
Qed.

(** A move inside the critical section leaves the calls in it, and the
    lock, as they are. *)
Lemma moved_inside c0 st i c c' :
  inv c0 st → calls st !! i = Some c →
  critical (at_pc c) = true → critical (at_pc c') = true →
  let st' := mkState (locked st) (counters st) (<[i := c']> (calls st)) in
  (locked st' = false →
     ∀ j cj, calls st' !! j = Some cj → critical (at_pc cj) = false)
  ∧ (∀ j k cj ck, calls st' !! j = Some cj → calls st' !! k = Some ck →
       critical (at_pc cj) = true → critical (at_pc ck) = true → j = k).
Proof.
  intros Hinv Hi Hc Hc'. simpl. split.
  - intros Hfree. pose proof (inv_free _ _ Hinv Hfree i c Hi). congruence.
  - intros j k cj ck Hj Hk Hcj Hck.
    assert (∀ m cm, <[i := c']> (calls st) !! m = Some cm →
                    critical (at_pc cm) = true → m = i) as Hall.
    { intros m cm Hm Hcm.
      apply lookup_moved in Hm as [[-> ->]|[Hne Hm]]; [done|].
      by apply (inv_excl _ _ Hinv m i cm c). }
    rewrite (Hall j cj Hj Hcj), (Hall k ck Hk Hck). done.
Qed.

Lemma inv_counter_digits c0 st T :
  inv c0 st → 0 ≤ ctr (counters st) T < 10 ^ 20.
Proof.
  intros Hinv. destruct (inv_bound _ _ Hinv T) as [? ?].
  pose proof (pending_nonneg (calls st)). pose proof MaxInt_digits. lia.
Qed.

Lemma inv_step c0 st i year st' :
  inv c0 st → step i year st = Some st' → inv c0 st'.
Proof.
  intros Hinv Hstep. unfold step in Hstep.
  destruct (calls st !! i) as [[T p]|] eqn:Hi; [|done].
  destruct p as [| | |y|s|s].
  - (* Lock *)
    destruct (locked st) eqn:Hfree; [done|]. injection Hstep as <-.
    destruct (moved_data c0 st i _ (mkCall T AtIncr) true Hinv Hi)
      as (Hb & Hr & Hd); [done..|].
    split; [done| |done..].
    intros j k cj ck Hj Hk Hcj Hck. simpl in *.
    assert (∀ m cm, <[i := mkCall T AtIncr]> (calls st) !! m = Some cm →
                    critical (at_pc cm) = true → m = i) as Hall.
    { intros m cm Hm Hcm.
      apply lookup_moved in Hm as [[-> ->]|[Hne Hm]]; [done|].
      pose proof (inv_free _ _ Hinv Hfree m cm Hm). congruence. }
    rewrite (Hall j cj Hj Hcj), (Hall k ck Hk Hck). done.
  - (* counters[T]++ *)
    injection Hstep as <-.
    fold (ctr (counters st) T).
    destruct (inv_bound _ _ Hinv T) as [Hlo Hhi].
    pose proof (pending_insert _ i _ (mkCall T AtNow) Hi) as Hpend.
    pose proof (pending_nonneg (<[i := mkCall T AtNow]> (calls st))) as Hnn.
    simpl in Hpend.
    rewrite incr_no_overflow by (unfold MaxInt in *; lia).
    set (n := ctr (counters st) T) in *.
    assert (Hothers : ∀ m cm, m ≠ i → calls st !! m = Some cm →
              ticket {| locked := locked st;
                        counters := <[T := n + 1]> (counters st);
                        calls := <[i := mkCall T AtNow]> (calls st) |} cm
              = ticket st cm).
    { intros m cm Hne Hm. unfold ticket.
      destruct (at_pc cm) eqn:Hpc; try done;
        (exfalso; apply Hne;
         apply (inv_excl _ _ Hinv m i cm _ Hm Hi); by rewrite ?Hpc). }
    split; simpl.
    + intros Hfree. pose proof (inv_free _ _ Hinv Hfree i _ Hi). done.
    + intros j k cj ck Hj Hk Hcj Hck.
      assert (∀ m cm, <[i := mkCall T AtNow]> (calls st) !! m = Some cm →
                      critical (at_pc cm) = true → m = i) as Hall.
      { intros m cm Hm Hcm.
        apply lookup_moved in Hm as [[-> ->]|[Hne Hm]]; [done|].
        by apply (inv_excl _ _ Hinv m i cm _ Hm Hi). }
      rewrite (Hall j cj Hj Hcj), (Hall k ck Hk Hck). done.
    + intros T'. rewrite ctr_insert. destruct (inv_bound _ _ Hinv T').
      destruct (decide (T = T')); subst; fold n; lia.
    + intros j cj Hj Hin.
      apply lookup_moved in Hj as [[-> ->]|[Hne Hj]].
      * unfold ticket. simpl. rewrite ctr_insert, decide_True by done. lia.
      * rewrite (Hothers j cj Hne Hj), ctr_insert.
        pose proof (inv_range _ _ Hinv j cj Hj Hin).
        destruct (decide _); subst; fold n in H |- *; lia.
    + intros j k cj ck Hjk Hj Hk Hinj Hink HTjk.
      apply lookup_moved in Hj as [[-> ->]|[Hnej Hj]];
        apply lookup_moved in Hk as [[-> ->]|[Hnek Hk]]; try done.
      * rewrite (Hothers k ck Hnek Hk). unfold ticket at 1. simpl.
        rewrite ctr_insert, decide_True by done.
        pose proof (inv_range _ _ Hinv k ck Hk Hink) as Hrk.
        simpl in HTjk. rewrite <- HTjk in Hrk. fold n in Hrk. lia.
      * rewrite (Hothers j cj Hnej Hj). unfold ticket at 2. simpl.
        rewrite ctr_insert, decide_True by done.
        pose proof (inv_range _ _ Hinv j cj Hj Hinj) as Hrj.
        simpl in HTjk. rewrite HTjk in Hrj. fold n in Hrj. lia.
      * rewrite (Hothers j cj Hnej Hj), (Hothers k ck Hnek Hk).
        by apply (inv_distinct _ _ Hinv j k cj ck).
  - (* time.Now().Year() *)
    injection Hstep as <-.
    destruct (moved_data c0 st i _ (mkCall T (AtSprintf year)) (locked st)
                Hinv Hi) as (Hb & Hr & Hd); [done..|].
    destruct (moved_inside c0 st i _ (mkCall T (AtSprintf year)) Hinv Hi)
      as (Hf & He); [done..|].
    by split.
  - (* fmt.Sprintf *)
    injection Hstep as <-.
    fold (ctr (counters st) T).
    assert (Htk : ticket st (mkCall T (AtUnlock
              (fmt.Sprintf_s_d_03d T y (ctr (counters st) T))))
            = ticket st (mkCall T (AtSprintf y))).
    { unfold ticket. simpl. apply sequence_suffix_Sprintf.
      by apply (inv_counter_digits c0). }
    destruct (moved_data c0 st i _ (mkCall T (AtUnlock
                (fmt.Sprintf_s_d_03d T y (ctr (counters st) T))))
                (locked st) Hinv Hi) as (Hb & Hr & Hd); [done..|].
    destruct (moved_inside c0 st i _ (mkCall T (AtUnlock
                (fmt.Sprintf_s_d_03d T y (ctr (counters st) T)))) Hinv Hi)
      as (Hf & He); [done..|].
    by split.
  - (* Unlock *)
    injection Hstep as <-.
    destruct (moved_data c0 st i _ (mkCall T (Returned s)) false Hinv Hi)
      as (Hb & Hr & Hd); [done..|].
    assert (∀ m cm, <[i := mkCall T (Returned s)]> (calls st) !! m = Some cm →
                    critical (at_pc cm) = false) as Hall.
    { intros m cm Hm.
      apply lookup_moved in Hm as [[-> ->]|[Hne Hm]]; [done|].
      destruct (critical (at_pc cm)) eqn:Hcm; [|done].
      destruct Hne. by apply (inv_excl _ _ Hinv m i cm _ Hm Hi). }
    split; [by intros _| |done..].
    intros j k cj ck Hj Hk Hcj. simpl in Hj.
    rewrite (Hall j cj Hj) in Hcj. done.
  - done.
Qed.

Lemma inv_reachable st0 st :
  reachable st0 st → inv (counters st0) st0 → inv (counters st0) st.
Proof.
  induction 1 as [|st i y st' _ IH Hstep]; intros H0; [done|].
  eapply inv_step; [by apply IH|exact Hstep].
Qed.

(** C1.  Calls of [NextCaseNumber] running in threads of their own,
    interleaved in any way at their program points: as long as the
    counters cannot reach the largest [int], two different calls for the
    same case type that have returned have returned different strings. *)
Theorem concurrent_numbers_unique st0 st i j T si sj :
  initial st0 →
  (∀ T, 0 ≤ ctr (counters st0) T
        ∧ ctr (counters st0) T + Z.of_nat (length (calls st0)) ≤ MaxInt) →
  reachable st0 st →
  i ≠ j →
  calls st !! i = Some (mkCall T (Returned si)) →
  calls st !! j = Some (mkCall T (Returned sj)) →
  si ≠ sj.
Proof.
  intros Hinit Hb Hreach Hij Hi Hj Heq.
  pose proof (inv_reachable st0 st Hreach (inv_initial st0 Hinit Hb)) as Hinv.
  apply (inv_distinct _ _ Hinv i j _ _ Hij Hi Hj); [done..|].
  unfold ticket. simpl. by rewrite Heq.
Qed.

Lemma run_reachable schedule : ∀ st0 st,
  run schedule st0 = Some st → reachable st0 st.
Proof.
  induction schedule as [|[i y] rest IH] using rev_ind; intros st0 st.
  - intros [= <-]. constructor.
  - intros Hrun.
    assert (Happ : ∀ l1 l2 s, run (l1 ++ l2) s = run l1 s ≫= run l2).
    { clear. induction l1 as [|[i y] l1 IH]; intros l2 s; [done|].
      simpl. destruct (step i y s); [apply IH|done]. }
    rewrite Happ in Hrun.
    destruct (run rest st0) as [st1|] eqn:H1; [|done]. simpl in Hrun.
    destruct (step i y st1) as [st2|] eqn:H2; [|done].
    injection Hrun as <-.
    eapply reach_step; [by apply IH|exact H2].
Qed.

Lemma concurrent_numbers_unique_witness :
  let st0 := started ["EA"; "EA"] {["EA" := 156]} in
  let schedule := [(0%nat, 2024); (0%nat, 2024); (0%nat, 2024);
                   (0%nat, 2024); (0%nat, 2024); (1%nat, 2024);
                   (1%nat, 2024); (1%nat, 2025); (1%nat, 2025);
                   (1%nat, 2025)] in
  let st := default st0 (run schedule st0) in
  (initial st0
   ∧ (∀ T, 0 ≤ ctr (counters st0) T
           ∧ ctr (counters st0) T + Z.of_nat (length (calls st0)) ≤ MaxInt)
   ∧ reachable st0 st
   ∧ 0%nat ≠ 1%nat
   ∧ calls st !! 0%nat = Some (mkCall "EA" (Returned "EA-2024-157"))
   ∧ calls st !! 1%nat = Some (mkCall "EA" (Returned "EA-2025-158")))
  ∧ "EA-2024-157" ≠ "EA-2025-158".
Proof.
  intros st0 schedule st.
  assert (Hinit : initial st0).
  { split; [reflexivity|]. repeat constructor. }
  assert (Hb : ∀ T, 0 ≤ ctr (counters st0) T
             ∧ ctr (counters st0) T + Z.of_nat (length (calls st0)) ≤ MaxInt).
  { intros T. unfold ctr, st0. simpl.
    destruct (decide (T = "EA")) as [->|Hne].
    - rewrite lookup_singleton_eq. simpl. unfold MaxInt. lia.
    - rewrite lookup_singleton_ne by done. simpl. unfold MaxInt. lia. }
  assert (Hreach : reachable st0 st).
  { apply (run_reachable schedule). vm_compute. reflexivity. }
  assert (H0 : calls st !! 0%nat = Some (mkCall "EA" (Returned "EA-2024-157")))
    by (vm_compute; reflexivity).
  assert (H1 : calls st !! 1%nat = Some (mkCall "EA" (Returned "EA-2025-158")))
    by (vm_compute; reflexivity).
  assert (Hne : 0%nat ≠ 1%nat) by lia.
  split; [exact (conj Hinit (conj Hb (conj Hreach (conj Hne (conj H0 H1)))))|].
  exact (concurrent_numbers_unique st0 st 0 1 "EA" _ _ Hinit Hb Hreach Hne H0 H1).
Defined.

End concurrent_proofs.

(** ** Business days in general *)

Section more_business_days.

Lemma business_days_within_le start k :
  0 ≤ business_days_within start k ≤ Z.of_nat k.
Proof.
  induction k as [|k IH]; [simpl; lia|].
  change (business_days_within start (S k)) with
    (business_days_within start k
     + (if business_day (time.AddDays start (Z.of_nat (S k))) then 1 else 0)).
  destruct (business_day _); lia.
Qed.

(** On the wall clock the loop advances one calendar day a round. *)
Lemma loop_advance rounds : ∀ result added days due,
  wall_loop rounds result added days = Some due →
  ∃ k : nat, (k ≤ rounds)%nat ∧ due = time.AddDays result (Z.of_nat k).
Proof.
  induction rounds as [|r IH]; intros result added days due;
    rewrite wall_loop_unfold; destruct (added <? days).
  - done.
  - intros [= <-]. exists 0%nat. split; [lia|]. by rewrite AddDays_0.
  - simpl.
    destruct (negb _); intros Hloop;
      destruct (IH _ _ _ _ Hloop) as (k & Hk & ->);
      exists (S k); (split; [lia|]);
      rewrite AddDays_AddDays; f_equal; lia.
  - intros [= <-]. exists 0%nat. split; [lia|]. by rewrite AddDays_0.
Qed.

Lemma AddDays_inj t a b : time.AddDays t a = time.AddDays t b → a = b.
Proof. unfold time.AddDays. pose proof nsPerDay_pos. nia. Qed.

(** X1.  [calculateBusinessDays] on the calendar of the zone of the
    start, where the time of day of the start exists on every later
    day.  The call returns.  Without days to add it returns the start
    itself; otherwise it returns the day on which the count of
    business days after the start reaches [days]: a business day of
    that calendar, at the same time of day, at least [days] and at
    most [3 * days] calendar days after the start. *)
Theorem calculateBusinessDays_spec zone start days :
  keeps_clock zone start →
  ∃ due,
    service.calculateBusinessDays zone start days = Some due
    ∧ (days ≤ 0 → due = start)
    ∧ (0 < days →
         business_days_after zone start days due
         ∧ time.AddDays (time.wall zone start) days
           ≤ time.wall zone due
           ≤ time.AddDays (time.wall zone start) (3 * days)).
Proof.
  intros Hkeeps.
  destruct (calculateBusinessDays_returns zone start days Hkeeps)
    as [due Hdue].
  exists due. split; [done|]. split.
  - intros Hle. rewrite calculateBusinessDays_no_days in Hdue by done.
    congruence.
  - intros Hpos.
    pose proof (calculateBusinessDays_counts zone start days due
                  Hkeeps Hpos Hdue) as Hafter.
    split; [done|].
    destruct Hafter as (k & Hwall & Hk & _). rewrite Hwall.
    pose proof (calculateBusinessDays_on_wall zone start days Hkeeps) as Hw.
    rewrite Hdue in Hw. simpl in Hw. symmetry in Hw.
    unfold wall_business_days in Hw.
    destruct (loop_advance _ _ _ _ _ Hw) as (k' & Hk' & Heq).
    rewrite Hwall in Heq.
    apply AddDays_inj in Heq. apply Nat2Z.inj in Heq. subst k'.
    pose proof (business_days_within_le (time.wall zone start) k).
    unfold time.AddDays. pose proof nsPerDay_pos. nia.
Qed.

End more_business_days.

(** ** The other operations of the store *)

Section more_store.

(** X2.  [Update] of the store.  When no record is kept under the ID of
    the record passed in, it returns the not-found error and changes
    nothing; otherwise it returns nil, the entry of that ID leads to
    the record passed in, and no key is added or removed and no other
    entry changed. *)
Theorem store_Update_spec w c cv :
  heap w !! c = Some cv →
  (cases (repo w) !! ID cv = None →
     mock.Update c w = Some (Some (fmt.Errorf_case_not_found (ID cv)), w))
  ∧ (is_Some (cases (repo w) !! ID cv) →
     ∃ w',
       mock.Update c w = Some (None, w')
       ∧ cases (repo w') !! ID cv = Some c
       ∧ dom (cases (repo w')) = dom (cases (repo w))
       ∧ (∀ id, id ≠ ID cv → cases (repo w') !! id = cases (repo w) !! id)
       ∧ heap w' = heap w
       ∧ rt.counters (repo w') = rt.counters (repo w)).
Proof.
  intros H. unfold mock.Update. split.
  - intros Hnone. go_run H. rewrite Hnone. by destruct w.
  - intros [old Hold]. go_run H. rewrite Hold. simpl.
    eexists. split; [reflexivity|]. simpl.
    split; [apply lookup_insert_eq|].
    split; [|split; [|done]].
    + rewrite dom_insert_L.
      assert (ID cv ∈ dom (cases (repo w))) by (apply elem_of_dom; eauto).
      set_solver.
    + intros id Hne. by rewrite lookup_insert_ne.
Qed.

Lemma GetByCaseNumber_loop_runs num its : ∀ w,
  (∀ kp, kp ∈ its → is_Some (heap w !! kp.2)) →
  ∃ r,
    mock.GetByCaseNumber_loop its num w = Some (r, w)
    ∧ (∀ p, r = Some p →
         ∃ k cv, (k, p) ∈ its ∧ heap w !! p = Some cv ∧ CaseNumber cv = num)
    ∧ (r = None →
         ∀ k p cv, (k, p) ∈ its → heap w !! p = Some cv →
                   CaseNumber cv ≠ num).
Proof.
  induction its as [|[k c] its IH]; intros w Hvalid.
  - exists None. split; [done|]. split; [done|].
    intros _ k p cv Hin. by apply elem_of_nil in Hin.
  - destruct (Hvalid (k, c)) as [cv Hcv]; [by left|]. simpl in Hcv.
    cbn [mock.GetByCaseNumber_loop]. unfold bind at 1, deref. rewrite Hcv.
    case_bool_decide as Hnum.
    + exists (Some c). split; [done|]. split; [|done].
      intros p [= <-]. exists k, cv. split; [by left|done].
    + destruct (IH w) as (r & Hrun & Hsome & Hnone).
      { intros kp ?. apply Hvalid. by right. }
      exists r. split; [done|]. split.
      * intros p Hp. destruct (Hsome p Hp) as (k' & cv' & ? & ? & ?).
        exists k', cv'. split; [by right|done].
      * intros Hr k' p cv' Hin Hcv'.
        apply elem_of_cons in Hin as [[= -> ->]|Hin].
        -- congruence.
        -- by apply (Hnone Hr k' p cv').
Qed.

(** X3.  [GetByCaseNumber] returns a stored case that carries the number
    when there is one, and nil exactly when no stored case carries
    it; the store is left as it is. *)
Theorem GetByCaseNumber_spec w num :
  range_visits_all (env w) → no_dangling w →
  ∃ r w',
    mock.GetByCaseNumber num w = Some (r, w')
    ∧ heap w' = heap w ∧ repo w' = repo w
    ∧ (∀ p, r = Some p → ∃ cv, stored w p cv ∧ CaseNumber cv = num)
    ∧ (r = None ↔ ∀ p cv, stored w p cv → CaseNumber cv ≠ num).
Proof.
  intros Hrange Hvalid. unfold mock.GetByCaseNumber, range_cases.
  unfold bind at 1.
  set (its := range_order (env w) (ranges w) (map_to_list (cases (repo w)))).
  assert (Hperm : its ≡ₚ map_to_list (cases (repo w))) by apply Hrange.
  assert (Hits : ∀ k p, (k, p) ∈ its ↔ cases (repo w) !! k = Some p).
  { intros k p. by rewrite Hperm, elem_of_map_to_list. }
  set (w1 := {| env := env w; ticks := ticks w; ranges := S (ranges w);
                heap := heap w; repo := repo w |}).
  destruct (GetByCaseNumber_loop_runs num its w1) as (r & Hrun & Hsome & Hnone).
  { intros [k p] Hkp. simpl. apply (Hvalid k p). by apply Hits. }
  exists r, w1. split; [done|]. split; [done|]. split; [done|]. split.
  - intros p Hp. destruct (Hsome p Hp) as (k & cv & Hin & Hcv & Hn).
    exists cv. split; [|done]. split; [|done]. exists k. by apply Hits.
  - split.
    + intros Hr p cv [[k Hk] Hcv]. apply (Hnone Hr k p cv); [|done].
      by apply Hits.
    + intros Hall. destruct r as [p|]; [|done].
      destruct (Hsome p eq_refl) as (k & cv & Hin & Hcv & Hn).
      destruct (Hall p cv); [|done]. split; [|done]. exists k. by apply Hits.
Qed.

Lemma GetRecent_loop_runs its : ∀ limit result,
  mock.GetRecent_loop its limit result =
  result ++ take (Z.to_nat (Z.max 1 (limit - Z.of_nat (length result))))
              its.*2.
Proof.
  induction its as [|[k c] its IH]; intros limit result.
  - simpl. by rewrite take_nil, app_nil_r.
  - cbn [mock.GetRecent_loop fmap list_fmap]. rewrite length_app. simpl length.
    destruct (limit <=? Z.of_nat (length result + 1)) eqn:Hstop.
    + apply Z.leb_le in Hstop.
      replace (Z.to_nat (Z.max 1 (limit - Z.of_nat (length result))))
        with 1%nat by lia.
      done.
    + apply Z.leb_gt in Hstop. rewrite IH, length_app. simpl length.
      replace (Z.to_nat (Z.max 1 (limit - Z.of_nat (length result))))
        with (S (Z.to_nat (Z.max 1
               (limit - Z.of_nat (length result + 1))))) by lia.
      simpl. by rewrite <- app_assoc.
Qed.

(** X4.  [GetRecent(limit)] returns the first cases the [range] over the
    store visits: [limit] of them, or all when the store holds fewer.
    The length test comes after the first case has been taken, so a
    limit of zero or less still returns one case of a store that is not
    empty. *)
Theorem GetRecent_spec w limit :
  range_visits_all (env w) →
  ∃ result w',
    mock.GetRecent limit w = Some (result, w')
    ∧ heap w' = heap w ∧ repo w' = repo w
    ∧ result = take (Z.to_nat (Z.max 1 limit))
                 (range_order (env w) (ranges w)
                    (map_to_list (cases (repo w)))).*2
    ∧ Z.of_nat (length result)
      = Z.min (Z.max 1 limit) (Z.of_nat (size (cases (repo w))))
    ∧ (∀ p, p ∈ result → ∃ k, cases (repo w) !! k = Some p).
Proof.
  intros Hrange. unfold mock.GetRecent, range_cases, bind, ret. simpl.
  set (its := range_order (env w) (ranges w) (map_to_list (cases (repo w)))).
  assert (Hperm : its ≡ₚ map_to_list (cases (repo w))) by apply Hrange.
  rewrite GetRecent_loop_runs. simpl. rewrite Z.sub_0_r.
  eexists _, _. split; [reflexivity|]. simpl.
  split; [done|]. split; [done|]. split; [done|]. split.
  - rewrite length_take, length_fmap, Hperm, length_map_to_list. lia.
  - intros p Hp%subseteq_take.
    apply list_elem_of_fmap in Hp as [[k p'] [-> Hkp]].
    exists k. apply elem_of_map_to_list. by rewrite <- Hperm.
Qed.

Lemma GetDeadlines_loop_length its : ∀ limit deadlines w,
  (∀ kp, kp ∈ its → is_Some (heap w !! kp.2)) →
  Z.of_nat (length deadlines) < Z.max 1 limit →
  ∃ deadlines' w',
    mock.GetDeadlines_loop its limit deadlines w = Some (deadlines', w')
    ∧ Z.of_nat (length deadlines') ≤ Z.max 1 limit.
Proof.
  induction its as [|[k c] its IH]; intros limit ds w Hvalid Hlen.
  - eexists _, _. split; [reflexivity|]. lia.
  - destruct (Hvalid (k, c)) as [cv Hcv]; [by left|]. simpl in Hcv.
    cbn [mock.GetDeadlines_loop].
    unfold bind at 1, deref. rewrite Hcv.
    assert (Hstep : ∃ ds1 w1,
      (if negb (time.IsZero (DueDate cv))
          && negb (bool_decide (Status cv = StatusClosed))
       then status <- mock.deadline_status (DueDate cv) ;;
            ret (ds ++ [mock.deadline_of cv status])
       else ret ds) w = Some (ds1, w1)
      ∧ heap w1 = heap w
      ∧ (length ds1 ≤ S (length ds))%nat).
    { destruct (negb _ && negb _).
      - destruct (deadline_status_runs (DueDate cv) w)
          as (st & w1 & Hrun & Hh1 & _).
        rewrite (bind_run _ _ _ _ _ Hrun). eexists _, _.
        split; [reflexivity|]. split; [done|].
        rewrite length_app. simpl. lia.
      - eexists _, _. split; [reflexivity|]. split; [done|]. lia. }
    destruct Hstep as (ds1 & w1 & Hrun & Hh1 & Hlen1).
    rewrite (bind_run _ _ _ _ _ Hrun).
    destruct (limit <=? Z.of_nat (length ds1)) eqn:Hstop.
    + eexists _, _. split; [reflexivity|]. lia.
    + apply Z.leb_gt in Hstop. apply IH; [|lia].
      intros kp ?. rewrite Hh1. apply Hvalid. by right.
Qed.

(** X5.  [GetDeadlines(limit)] returns at most [limit] entries, with the
    same edge as [GetRecent]: the length test follows the first visit,
    so a limit of zero or less allows one entry.  [GetAllDeadlines]
    returns at most 100. *)
Theorem GetDeadlines_capped w limit :
  range_visits_all (env w) → no_dangling w →
  (∃ deadlines w',
     mock.GetDeadlines limit w = Some (deadlines, w')
     ∧ Z.of_nat (length deadlines) ≤ Z.max 1 limit)
  ∧ (∃ deadlines w',
       mock.GetAllDeadlines w = Some (deadlines, w')
       ∧ (length deadlines ≤ 100)%nat).
Proof.
  intros Hrange Hvalid.
  assert (Hits : ∀ k p, (k, p) ∈ range_order (env w) (ranges w)
                                    (map_to_list (cases (repo w))) →
                        cases (repo w) !! k = Some p).
  { intros k p. by rewrite (Hrange _ _), elem_of_map_to_list. }
  assert (Hany : ∀ lim, ∃ deadlines w',
     mock.GetDeadlines lim w = Some (deadlines, w')
     ∧ Z.of_nat (length deadlines) ≤ Z.max 1 lim).
  { intros lim. unfold mock.GetDeadlines, range_cases. unfold bind at 1.
    apply GetDeadlines_loop_length; [|simpl; lia].
    intros [k p] Hkp. simpl. apply (Hvalid k p). by apply Hits. }
  split; [apply Hany|].
  destruct (Hany 100) as (ds & w' & Hrun & Hlen).
  exists ds, w'. split; [done|]. lia.
Qed.

End more_store.

(** ** The store stays keyed by ID *)

Section keeping_keys.

Lemma alloc_runs c w :
  let p := fresh (dom (heap w)) in
  alloc c w = Some (p, {| env := env w; ticks := ticks w; ranges := ranges w;
                          heap := <[p := c]> (heap w); repo := repo w |})
  ∧ heap w !! p = None.
Proof.
  intros p. split; [reflexivity|].
  apply not_elem_of_dom. apply is_fresh.
Qed.

Lemma seed_cases_runs cs : ∀ w,
  ∃ w',
    mock.seed_cases cs w = Some (tt, w')
    ∧ env w' = env w ∧ ticks w' = ticks w ∧ ranges w' = ranges w
    ∧ rt.counters (repo w') = rt.counters (repo w)
    ∧ (∀ p cv, heap w !! p = Some cv → heap w' !! p = Some cv)
    ∧ dom (cases (repo w'))
      = dom (cases (repo w)) ∪ list_to_set (ID <$> cs)
    ∧ (∀ k p, cases (repo w') !! k = Some p →
         cases (repo w) !! k = Some p
         ∨ ∃ c, c ∈ cs ∧ ID c = k ∧ heap w' !! p = Some c).
Proof.
  induction cs as [|c cs IH]; intros w.
  - exists w. split; [done|]. repeat split; try done.
    + simpl. set_solver.
    + intros k p Hk. by left.
  - destruct (alloc_runs c w) as [Halloc Hfresh].
    set (p := fresh (dom (heap w))) in *.
    set (w0 := {| env := env w; ticks := ticks w; ranges := ranges w;
                  heap := <[p := c]> (heap w); repo := repo w |}) in Halloc.
    set (w1 := {| env := env w; ticks := ticks w; ranges := ranges w;
                  heap := <[p := c]> (heap w);
                  repo := mkRepo (<[ID c := p]> (cases (repo w)))
                                 (rt.counters (repo w)) |}).
    destruct (IH w1) as (w' & Hrun & He & Ht & Hg & Hc & Hheap & Hdom & Hent).
    exists w'. cbn [mock.seed_cases].
    rewrite (bind_run _ _ _ _ _ Halloc).
    unfold bind, get_repo, put_repo. simpl. fold w1. rewrite Hrun.
    split; [done|]. split; [done|]. split; [done|]. split; [done|].
    split; [done|]. split; [|split].
    + intros q cv Hq. apply Hheap. simpl.
      rewrite lookup_insert_ne; [done|]. intros ->. congruence.
    + rewrite Hdom. simpl. rewrite dom_insert_L. set_solver.
    + intros k q Hk. destruct (Hent k q Hk) as [Hold|(c' & Hc' & HID & Hq)].
      * simpl in Hold. destruct (decide (ID c = k)) as [<-|Hne].
        -- rewrite lookup_insert_eq in Hold. injection Hold as <-.
           right. exists c. split; [by left|]. split; [done|].
           apply Hheap. simpl. apply lookup_insert_eq.
        -- rewrite lookup_insert_ne in Hold by done. by left.
      * right. exists c'. split; [by right|done].
Qed.

Lemma demoCases_numbered zone now :
  Forall (λ cv,
    0 ≤ sequence_suffix (CaseNumber cv)
      ≤ default 0
          (({[ CaseTypePublicRecordsRequest := 89;
               CaseTypeEthicsAcknowledgment := 156;
               CaseTypeEthicsComplaint := 18;
               CaseTypeAdvisoryOpinion := 42 ]} : gmap string Z)
           !! Type_ cv))
    (mock.demoCases zone now).
Proof.
  unfold mock.demoCases.
  repeat (constructor; [vm_compute; split; intros H; discriminate H|]).
  constructor.
Qed.

Lemma demoCases_IDs zone now :
  ID <$> mock.demoCases zone now
  = ["1"; "2"; "3"; "4"; "5"; "6"; "7"; "8"; "9"; "10"].
Proof. reflexivity. Qed.

(** X6.  [NewCaseRepository], whatever the clock shows and whatever is on
    the heap already: the store it builds keeps its ten cases under
    their IDs, and the seeded counters continue the numbering: no
    stored case carries a sequence number above the counter of its
    type, so the numbers issued next are new. *)
Theorem NewCaseRepository_spec w :
  ∃ w',
    mock.NewCaseRepository w = Some (tt, w')
    ∧ well_keyed w'
    ∧ size (cases (repo w')) = 10%nat
    ∧ (counter w' CaseTypeAdvisoryOpinion = 42
       ∧ counter w' CaseTypeEthicsComplaint = 18
       ∧ counter w' CaseTypeEthicsAcknowledgment = 156
       ∧ counter w' CaseTypePublicRecordsRequest = 89)
    ∧ (∀ p cv, stored w' p cv →
         0 ≤ sequence_suffix (CaseNumber cv) ≤ counter w' (Type_ cv))
    ∧ (∀ p cv, heap w !! p = Some cv → heap w' !! p = Some cv).
Proof.
  unfold mock.NewCaseRepository, mock.seedDemoData.
  unfold bind at 1, put_repo. unfold bind at 1, Now.
  unfold bind at 1, get_Local. cbn [env].
  set (now := clock (env w) (ticks w)).
  set (zone := Local (env w)).
  set (w0 := {| env := env w; ticks := S (ticks w); ranges := ranges w;
                heap := heap w; repo := mkRepo ∅ ∅ |}).
  destruct (seed_cases_runs (mock.demoCases zone now) w0)
    as (w1 & Hrun & He & Ht & Hg & Hc & Hheap & Hdom & Hent).
  rewrite (bind_run _ _ _ _ _ Hrun).
  unfold bind, get_repo, put_repo. simpl.
  eexists. split; [reflexivity|]. simpl.
  assert (Hfrom : ∀ k p, cases (repo w1) !! k = Some p →
            ∃ c, c ∈ mock.demoCases zone now ∧ ID c = k
                 ∧ heap w1 !! p = Some c).
  { intros k p Hk. destruct (Hent k p Hk) as [Hold|?]; [|done].
    simpl in Hold. by rewrite lookup_empty in Hold. }
  split; [|split; [|split; [|split]]].
  - intros k p Hk. simpl in *.
    destruct (Hfrom k p Hk) as (c & _ & HID & Hp). eauto.
  - rewrite <- size_dom, Hdom, demoCases_IDs. simpl.
    rewrite dom_empty_L. vm_compute. reflexivity.
  - rewrite Hc. unfold counter. simpl. repeat split; reflexivity.
  - intros p cv [[k Hk] Hcv]. simpl in *.
    destruct (Hfrom k p Hk) as (c & Hin & HID & Hp).
    assert (c = cv) as -> by congruence.
    unfold counter. simpl. rewrite Hc. simpl.
    by apply (proj1 (Forall_forall _ _) (demoCases_numbered zone now) cv).
  - intros p cv Hp. simpl. by apply Hheap.
Qed.

(** X7.  Creating a record that is not in the store yet keeps the store
    keyed by ID.  For a type with a statutory deadline the time of day
    of the submission is taken to exist, in the zone the submission
    time carries, on every later day, so that the deadline loop counts
    calendar days. *)
Theorem Create_keeps_well_keyed w c cv :
  well_keyed w →
  heap w !! c = Some cv →
  (∀ k, cases (repo w) !! k ≠ Some c) →
  day_steps_keep_clock w cv →
  ∃ r w', service.Create c w = Some (r, w') ∧ well_keyed w'.
Proof.
  intros Hwk H Hnew Hkeeps.
  destruct (Create_runs w c cv H Hkeeps) as (due & _ & Hrun).
  eexists _, _. split; [exact Hrun|].
  destruct (with_due_fields ((λ _, due) <$> statutory_days (Type_ cv))
              (stamped w cv)) as (HID & _).
  intros k p Hk. simpl in *.
  destruct (decide (ID (stamped w cv) = k)) as [<-|Hne].
  - rewrite lookup_insert_eq in Hk. injection Hk as <-.
    rewrite lookup_insert_eq. eauto.
  - rewrite lookup_insert_ne in Hk by done.
    destruct (Hwk k p Hk) as (cv0 & Hcv0 & HID0).
    exists cv0. split; [|done].
    rewrite lookup_insert_ne; [done|]. intros <-. by apply (Hnew k).
Qed.

(** X8.  A status update touches one record only: the keys, the counters
    and every other record stay as they are, and the store stays keyed
    by ID. *)
Theorem UpdateStatus_frame w caseID status :
  well_keyed w →
  ∃ err w',
    service.UpdateStatus caseID status w = Some (err, w')
    ∧ well_keyed w'
    ∧ repo w' = repo w
    ∧ (∀ p, cases (repo w) !! caseID ≠ Some p →
            heap w' !! p = heap w !! p).
Proof.
  intros Hwk.
  unfold service.UpdateStatus, mock.GetByID, mock.Update.
  destruct (cases (repo w) !! caseID) as [c|] eqn:Hc.
  - destruct (Hwk _ _ Hc) as (cv & Hcv & HID).
    go_run Hc. go_run Hcv. rewrite HID. go_run Hc.
    eexists _, _. split; [reflexivity|]. simpl.
    rewrite insert_insert_eq.
    assert (Hsame : <[caseID := c]> (cases (repo w)) = cases (repo w))
      by by apply insert_id.
    split; [|split].
    + intros k p Hk. simpl in *. rewrite Hsame in Hk.
      destruct (decide (p = c)) as [->|Hne].
      * rewrite lookup_insert_eq.
        destruct (Hwk k c Hk) as (cv0 & Hcv0 & HID0).
        assert (cv0 = cv) as -> by congruence. eauto.
      * rewrite lookup_insert_ne by done. by apply Hwk.
    + rewrite Hsame. by destruct (repo w).
    + intros p Hp. rewrite lookup_insert_ne; [done|]. congruence.
  - go_run Hc. eexists _, _. split; [reflexivity|]. done.
Qed.

(** X9.  [UpdateStatus] writes before [Update] checks.  When the record
    found under [caseID] carries an ID that is no key of the store, the
    call returns the not-found error for that ID, and the status and
    the time stamp of the record have been changed all the same. *)
Theorem UpdateStatus_error_after_write w caseID status c cv :
  cases (repo w) !! caseID = Some c →
  heap w !! c = Some cv →
  cases (repo w) !! ID cv = None →
  ∃ w',
    service.UpdateStatus caseID status w
    = Some (Some (fmt.Errorf_case_not_found (ID cv)), w')
    ∧ heap w' !! c
      = Some (set_UpdatedAt (clock (env w) (ticks w)) (set_Status status cv))
    ∧ repo w' = repo w.
Proof.
  intros Hc Hcv Hnone.
  unfold service.UpdateStatus, mock.GetByID, mock.Update.
  go_run Hc. go_run Hcv. rewrite Hnone. simpl.
  eexists. split; [reflexivity|]. simpl.
  split; [apply lookup_insert_eq|done].
Qed.

End keeping_keys.

(** ** The format of the case numbers *)

Section number_format.

Lemma is_digit_digit_char d : is_digit (fmt.digit_char d) = true.
Proof.
  destruct d as [|p|p]; try reflexivity.
  do 4 (try destruct p as [p|p|]; try reflexivity).
Qed.

Lemma digit_value_range c d : digit_value c = Some d → 0 ≤ d ≤ 9.
Proof.
  unfold digit_value.
  destruct (48 <=? _) eqn:H1; [|done]. destruct (_ <=? 57) eqn:H2; [|done].
  simpl. intros [= <-]. apply Z.leb_le in H1, H2. lia.
Qed.

Lemma fmt_digits_unfold r u acc :
  fmt.fmt_digits (S r) u acc =
  if 10 <=? u
  then fmt.fmt_digits r (u / 10) (String (fmt.digit_char (u mod 10)) acc)
  else String (fmt.digit_char u) acc.
Proof. reflexivity. Qed.

(** The digits of a number below 10000, by its size. *)
Lemma digits_shape u :
  0 ≤ u < 10000 →
  let d := fmt.digit_char in
  fmt.digits u =
  if u <? 10 then String (d u) ""
  else if u <? 100 then String (d (u / 10)) (String (d (u mod 10)) "")
  else if u <? 1000
  then String (d (u / 10 / 10))
         (String (d (u / 10 mod 10)) (String (d (u mod 10)) ""))
  else String (d (u / 10 / 10 / 10))
         (String (d (u / 10 / 10 mod 10))
            (String (d (u / 10 mod 10)) (String (d (u mod 10)) ""))).
Proof.
  intros Hu d. unfold fmt.digits.
  assert (Hleb : ∀ a b, (a <=? b) = negb (b <? a)).
  { intros a b. destruct (Z.leb_spec a b), (Z.ltb_spec b a); simpl; lia. }
  assert (Hd1 : u / 10 < 1000) by (apply Z.div_lt_upper_bound; lia).
  assert (Hd2 : u / 10 / 10 < 100) by (apply Z.div_lt_upper_bound; lia).
  assert (Hd3 : u / 10 / 10 / 10 < 10) by (apply Z.div_lt_upper_bound; lia).
  rewrite fmt_digits_unfold.
  destruct (u <? 10) eqn:H10.
  { apply Z.ltb_lt in H10.
    assert ((10 <=? u) = false) as -> by (apply Z.leb_gt; lia). done. }
  apply Z.ltb_ge in H10.
  assert ((10 <=? u) = true) as -> by (apply Z.leb_le; lia).
  rewrite fmt_digits_unfold.
  destruct (u <? 100) eqn:H100.
  { apply Z.ltb_lt in H100.
    assert (u / 10 < 10) by (apply Z.div_lt_upper_bound; lia).
    assert ((10 <=? u / 10) = false) as -> by (apply Z.leb_gt; lia). done. }
  apply Z.ltb_ge in H100.
  assert (10 ≤ u / 10) by (apply Z.div_le_lower_bound; lia).
  assert ((10 <=? u / 10) = true) as -> by (apply Z.leb_le; lia).
  rewrite fmt_digits_unfold.
  destruct (u <? 1000) eqn:H1000.
  { apply Z.ltb_lt in H1000.
    assert (u / 10 < 100) by (apply Z.div_lt_upper_bound; lia).
    assert (u / 10 / 10 < 10) by (apply Z.div_lt_upper_bound; lia).
    assert ((10 <=? u / 10 / 10) = false) as -> by (apply Z.leb_gt; lia).
    done. }
  apply Z.ltb_ge in H1000.
  assert (100 ≤ u / 10) by (apply Z.div_le_lower_bound; lia).
  assert (10 ≤ u / 10 / 10) by (apply Z.div_le_lower_bound; lia).
  assert ((10 <=? u / 10 / 10) = true) as -> by (apply Z.leb_le; lia).
  rewrite fmt_digits_unfold.
  assert ((10 <=? u / 10 / 10 / 10) = false) as -> by (apply Z.leb_gt; lia).
  done.
Qed.

Lemma fmt_d_year y :
  1000 ≤ y ≤ 9999 →
  ∃ a b c d,
    fmt.fmt_d y = String a (String b (String c (String d "")))
    ∧ is_digit a = true ∧ is_digit b = true
    ∧ is_digit c = true ∧ is_digit d = true.
Proof.
  intros Hy. unfold fmt.fmt_d.
  assert ((y <? 0) = false) as -> by (apply Z.ltb_ge; lia).
  rewrite digits_shape by lia.
  assert ((y <? 10) = false) as -> by (apply Z.ltb_ge; lia).
  assert ((y <? 100) = false) as -> by (apply Z.ltb_ge; lia).
  assert ((y <? 1000) = false) as -> by (apply Z.ltb_ge; lia).
  eexists _, _, _, _. split; [reflexivity|].
  repeat split; apply is_digit_digit_char.
Qed.

Lemma fmt_03d_below_1000 n :
  0 ≤ n ≤ 999 →
  ∃ a b c,
    fmt.fmt_03d n = String a (String b (String c ""))
    ∧ is_digit a = true ∧ is_digit b = true ∧ is_digit c = true.
Proof.
  intros Hn. unfold fmt.fmt_03d, fmt.pad_zeros.
  assert ((n <? 0) = false) as -> by (apply Z.ltb_ge; lia).
  rewrite digits_shape by lia.
  assert ((n <? 1000) = true) as H1000 by (apply Z.ltb_lt; lia).
  destruct (n <? 10); [|destruct (n <? 100); [|rewrite H1000]];
    eexists _, _, _; (split; [reflexivity|]);
    repeat split; first [apply is_digit_digit_char | reflexivity].
Qed.

Lemma format_of_parts T a b c d x y z :
  T ∈ [CaseTypeAdvisoryOpinion; CaseTypeEthicsComplaint;
       CaseTypeEthicsAcknowledgment; CaseTypePublicRecordsRequest] →
  is_digit a = true → is_digit b = true → is_digit c = true →
  is_digit d = true → is_digit x = true → is_digit y = true →
  is_digit z = true →
  case_number_format
    (T +:+ "-" +:+ String a (String b (String c (String d "")))
       +:+ "-" +:+ String x (String y (String z ""))) = true.
Proof.
  intros HT Ha Hb Hc Hd Hx Hy Hz.
  assert (Hys : ∀ p, year_and_sequence
            (String "-" (String a (String b (String c (String d
               (String "-" (String x (String y (String z p))))))))) =
            match p with EmptyString => true | _ => false end).
  { intros p. simpl. rewrite Ha, Hb, Hc, Hd, Hx, Hy, Hz. by destruct p. }
  repeat (apply elem_of_cons in HT as [->|HT]);
    [..|by apply elem_of_nil in HT];
    unfold case_number_format, strip_prefix; simpl;
    rewrite ?Ha, ?Hb, ?Hc, ?Hd, ?Hx, ?Hy, ?Hz; reflexivity.
Qed.

Lemma substring_all s : String.substring 0 (String.length s) s = s.
Proof. induction s as [|a s IH]; [done|]. simpl. by rewrite IH. Qed.

Lemma strip_prefix_Some prefix : ∀ s rest,
  strip_prefix prefix s = Some rest → s = prefix +:+ rest.
Proof.
  unfold strip_prefix. intros s rest.
  destruct (strings.HasPrefix s prefix) eqn:Hp; [|done].
  apply HasPrefix_spec in Hp as [r ->]. intros [= <-]. f_equal.
  induction prefix as [|a p IH]; simpl.
  - rewrite Nat.sub_0_r. symmetry. apply substring_all.
  - exact IH.
Qed.

Lemma year_and_sequence_suffix rest pre :
  year_and_sequence rest = true →
  0 ≤ sequence_suffix (pre +:+ rest) ≤ 999.
Proof.
  destruct rest as [|m rest]; [done|]. intros Hys.
  assert (m = "-"%char) as ->.
  { destruct m as [[] [] [] [] [] [] [] []]; try reflexivity;
      simpl in Hys; done. }
  destruct rest as [|a rest]; [done|].
  destruct rest as [|b rest]; [done|].
  destruct rest as [|c rest]; [done|].
  destruct rest as [|d rest]; [done|].
  destruct rest as [|m2 rest]; [done|].
  assert (m2 = "-"%char) as ->.
  { destruct m2 as [[] [] [] [] [] [] [] []]; try reflexivity;
      simpl in Hys; done. }
  destruct rest as [|x rest]; [done|].
  destruct rest as [|y rest]; [done|].
  destruct rest as [|z rest]; [done|].
  destruct rest as [|q rest]; [|done].
  assert (Hxyz : is_digit x = true ∧ is_digit y = true ∧ is_digit z = true).
  { simpl in Hys. repeat (apply andb_true_iff in Hys as [Hys ?]). done. }
  destruct Hxyz as (Hx & Hy & Hz).
  unfold sequence_suffix.
  change (pre +:+ String "-" (String a (String b (String c (String d
            (String "-" (String x (String y (String z "")))))))))
    with (pre +:+ String "-" (String a (String b (String c (String d ""))))
              +:+ String "-" (String x (String y (String z "")))).
  rewrite <- append_assoc, trailing_number_after_dash.
  unfold is_digit in Hx, Hy, Hz. simpl.
  destruct (digit_value x) as [dx|] eqn:Ex; [|done].
  destruct (digit_value y) as [dy|] eqn:Ey; [|done].
  destruct (digit_value z) as [dz|] eqn:Ez; [|done].
  apply digit_value_range in Ex, Ey, Ez. lia.
Qed.

Lemma case_number_format_suffix s :
  case_number_format s = true → 0 ≤ sequence_suffix s ≤ 999.
Proof.
  unfold case_number_format. simpl. rewrite !orb_true_iff.
  intros [H|[H|[H|[H|H]]]]; [..|done];
    (destruct (strip_prefix _ s) as [rest|] eqn:Hp; [|done]);
    apply strip_prefix_Some in Hp as ->;
    by apply year_and_sequence_suffix.
Qed.

(** X10.  The number [NextCaseNumber] returns for one of the four case
    types, in a year of four digits, matches
    [^(AO|EC|EA|PRR)-\d{4}-\d{3}$] exactly as long as the counter it
    has reached is at most 999. *)
Theorem NextCaseNumber_format w T :
  T ∈ [CaseTypeAdvisoryOpinion; CaseTypeEthicsComplaint;
       CaseTypeEthicsAcknowledgment; CaseTypePublicRecordsRequest] →
  1000 ≤ time.Year (Local (env w)) (clock (env w) (ticks w)) ≤ 9999 →
  0 ≤ counter w T < MaxInt →
  ∃ s w',
    mock.NextCaseNumber T w = Some (s, w')
    ∧ counter w' T = counter w T + 1
    ∧ (case_number_format s = true ↔ counter w' T ≤ 999).
Proof.
  intros HT Hyear Hctr.
  eexists _, _. split; [apply NextCaseNumber_runs|].
  rewrite counter_after_next, decide_True by done.
  assert (Hincr : incr (counter w T) = counter w T + 1)
    by (apply incr_no_overflow; unfold MaxInt in *; lia).
  rewrite Hincr. split; [done|].
  unfold next_number. rewrite Hincr. split.
  - intros Hf. apply case_number_format_suffix in Hf.
    rewrite sequence_suffix_Sprintf in Hf; [lia|].
    pose proof MaxInt_digits. lia.
  - intros Hle. unfold fmt.Sprintf_s_d_03d.
    destruct (fmt_d_year _ Hyear) as (a & b & c & d & -> & Ha & Hb & Hc & Hd).
    destruct (fmt_03d_below_1000 (counter w T + 1))
      as (x & y & z & -> & Hx & Hy & Hz); [lia|].
    by apply format_of_parts.
Qed.

End number_format.

(** ** The dashboard *)

Section dashboard_counts.

Lemma count_where_cons h f c cv rest :
  h !! c = Some cv →
  count_where h f (c :: rest)
  = (if f cv then 1 else 0) + count_where h f rest.
Proof.
  intros Hc. unfold count_where. rewrite filter_cons.
  destruct (decide _) as [Hd|Hd]; rewrite Hc in Hd; simpl in Hd.
  - rewrite Hd. simpl length. lia.
  - destruct (f cv); [done|]. lia.
Qed.

Lemma count_where_perm h f l1 l2 :
  l1 ≡ₚ l2 → count_where h f l1 = count_where h f l2.
Proof. intros H. unfold count_where. by rewrite H. Qed.

Lemma count_where_split h f l :
  count_where h f l + count_where h (λ cv, negb (f cv)) l
  = Z.of_nat (length (filter (λ p, is_Some (h !! p)) l)).
Proof.
  induction l as [|p l IH]; [done|].
  destruct (h !! p) as [cv|] eqn:Hp.
  - rewrite !(count_where_cons h _ p cv l Hp).
    rewrite filter_cons_True by (rewrite Hp; eauto).
    simpl length. destruct (f cv); simpl; lia.
  - unfold count_where in *. rewrite !filter_cons.
    destruct (decide _) as [Hd|_]; [by rewrite Hp in Hd|].
    destruct (decide _) as [Hd|_]; [by rewrite Hp in Hd|].
    destruct (decide _) as [Hd|_]; [rewrite Hp in Hd; by destruct Hd|].
    exact IH.
Qed.

Lemma bump_lookup k m s :
  default 0 (service.bump k m !! s)
  = default 0 (m !! s) + (if bool_decide (k = s) then 1 else 0).
Proof.
  unfold service.bump. destruct (decide (k = s)) as [->|Hne].
  - rewrite lookup_insert_eq, bool_decide_eq_true_2 by done. done.
  - rewrite lookup_insert_ne, bool_decide_eq_false_2 by done. simpl. lia.
Qed.

Lemma GetStats_loop_counts (h : gmap loc Case) allCases : ∀ n w,
  heap w = h →
  (∀ p, p ∈ allCases → is_Some (h !! p)) →
  ∃ n' w',
    service.GetStats_loop allCases n w = Some (n', w')
    ∧ service.totalClosed n'
      = service.totalClosed n
        + count_where h (has_status StatusClosed) allCases
    ∧ service.totalPending n'
      = service.totalPending n
        + count_where h (has_status StatusSubmitted) allCases
    ∧ service.totalOpen n'
      = service.totalOpen n
        + count_where h (λ cv, negb (has_status StatusClosed cv)) allCases
    ∧ (∀ s, default 0 (service.byStatus n' !! s)
            = default 0 (service.byStatus n !! s)
              + count_where h (has_status s) allCases)
    ∧ (∀ T, default 0 (service.byType n' !! T)
            = default 0 (service.byType n !! T)
              + count_where h (has_type T) allCases)
    ∧ heap w' = h ∧ repo w' = repo w ∧ env w' = env w
    ∧ ranges w' = ranges w.
Proof.
  induction allCases as [|c rest IH]; intros n w Hh Hvalid.
  - eexists _, _. split; [reflexivity|]. unfold count_where. simpl.
    repeat split; auto with lia.
  - destruct (Hvalid c) as [cv Hcv]; [by left|].
    assert (Hcv' : heap w !! c = Some cv) by by rewrite Hh.
    destruct (IsOverdue_runs w c cv Hcv')
      as (w1 & Hov & Hh1 & Hr1 & He1 & Hg1 & Ht1).
    cbn [service.GetStats_loop]. unfold bind at 1, deref. rewrite Hcv'.
    rewrite !(count_where_cons h _ c cv rest Hcv).
    assert (Hgo : ∀ n1,
      service.totalClosed n1
        = service.totalClosed n
          + (if has_status StatusClosed cv then 1 else 0) →
      service.totalPending n1
        = service.totalPending n
          + (if has_status StatusSubmitted cv then 1 else 0) →
      service.totalOpen n1
        = service.totalOpen n
          + (if negb (has_status StatusClosed cv) then 1 else 0) →
      service.byStatus n1 = service.bump (Status cv) (service.byStatus n) →
      service.byType n1 = service.bump (Type_ cv) (service.byType n) →
      ∃ n' w', service.GetStats_loop rest n1 w1 = Some (n', w')
        ∧ service.totalClosed n'
          = service.totalClosed n
            + ((if has_status StatusClosed cv then 1 else 0)
               + count_where h (has_status StatusClosed) rest)
        ∧ service.totalPending n'
          = service.totalPending n
            + ((if has_status StatusSubmitted cv then 1 else 0)
               + count_where h (has_status StatusSubmitted) rest)
        ∧ service.totalOpen n'
          = service.totalOpen n
            + ((if negb (has_status StatusClosed cv) then 1 else 0)
               + count_where h (λ cv, negb (has_status StatusClosed cv)) rest)
        ∧ (∀ s, default 0 (service.byStatus n' !! s)
                = default 0 (service.byStatus n !! s)
                  + count_where h (has_status s) (c :: rest))
        ∧ (∀ T, default 0 (service.byType n' !! T)
                = default 0 (service.byType n !! T)
                  + count_where h (has_type T) (c :: rest))
        ∧ heap w' = h ∧ repo w' = repo w ∧ env w' = env w
        ∧ ranges w' = ranges w).
    { intros n1 Hc1 Hp1 Ho1 Hs1 Ht1'.
      destruct (IH n1 w1)
        as (n' & w' & Hrun & Hc & Hp & Ho & Hs & HT & ? & ? & ? & ?).
      - congruence.
      - intros p ?. apply Hvalid. by right.
      - exists n', w'. split; [done|].
        split; [lia|]. split; [lia|]. split; [lia|].
        split; [|split; [|repeat split; congruence]].
        + intros s. rewrite Hs, Hs1, bump_lookup.
          rewrite (count_where_cons h _ c cv rest Hcv).
          unfold has_status at 2. lia.
        + intros T. rewrite HT, Ht1', bump_lookup.
          rewrite (count_where_cons h _ c cv rest Hcv).
          unfold has_type at 2. lia. }
    change (has_status StatusClosed cv)
      with (bool_decide (Status cv = StatusClosed)) in Hgo |- *.
    change (has_status StatusSubmitted cv)
      with (bool_decide (Status cv = StatusSubmitted)) in Hgo |- *.
    destruct (bool_decide (Status cv = StatusClosed)) eqn:Hclosed.
    + rewrite (bind_run _ _ _ _ _ Hov). apply Hgo; simpl; try lia; try done.
      apply bool_decide_eq_true in Hclosed. rewrite Hclosed.
      rewrite bool_decide_eq_false_2 by done. lia.
    + destruct (bool_decide (Status cv = StatusSubmitted)) eqn:Hsub;
        rewrite (bind_run _ _ _ _ _ Hov); apply Hgo; simpl; try lia; done.
Qed.

Lemma deref_all_length ps : ∀ w cs,
  service.deref_all ps w = Some (cs, w) → length cs = length ps.
Proof.
  induction ps as [|p ps IH]; intros w cs.
  - by intros [= <-].
  - simpl. unfold bind at 1, deref.
    destruct (heap w !! p) as [cv|]; [|done].
    unfold bind at 1.
    destruct (service.deref_all ps w) as [[cs' w']|] eqn:Hrest; [|done].
    intros [= <- ->]. simpl. f_equal. by apply (IH w).
Qed.

End dashboard_counts.

Section dashboard.

(** X11.  The dashboard counts.  [GetStats] reads the store and changes
    nothing.  Every stored case is counted once, as closed or as open:
    the closed count is the number of cases with the status [closed]
    plus the base of 150, the open count the number of all others plus
    the base of 32, and the pending count the number of cases with the
    status [submitted]; the two maps count the cases of each status
    and of each type.  At most five recent cases and five deadlines are
    returned. *)
Theorem GetStats_counts w :
  range_visits_all (env w) → sort_rearranges (env w) → no_dangling w →
  ∃ stats w',
    service.GetStats w = Some (stats, w')
    ∧ heap w' = heap w ∧ repo w' = repo w
    ∧ TotalClosed stats
      = count_where (heap w) (has_status StatusClosed)
          (map_to_list (cases (repo w))).*2 + 150
    ∧ TotalOpen stats
      = Z.of_nat (size (cases (repo w)))
        - count_where (heap w) (has_status StatusClosed)
            (map_to_list (cases (repo w))).*2 + 32
    ∧ TotalPending stats
      = count_where (heap w) (has_status StatusSubmitted)
          (map_to_list (cases (repo w))).*2
    ∧ (∀ s, default 0 (ByStatus stats !! s)
            = count_where (heap w) (has_status s)
                (map_to_list (cases (repo w))).*2)
    ∧ (∀ T, default 0 (ByType stats !! T)
            = count_where (heap w) (has_type T)
                (map_to_list (cases (repo w))).*2)
    ∧ length (RecentCases stats) = (5 `min` size (cases (repo w)))%nat
    ∧ (length (UpcomingDeadlines stats) ≤ 5)%nat.
Proof.
  intros Hrange Hsort Hvalid.
  set (its := range_order (env w) (ranges w)
                (map_to_list (cases (repo w)))).
  assert (Hperm : its ≡ₚ map_to_list (cases (repo w))) by apply Hrange.
  assert (Hits : ∀ k p, (k, p) ∈ its → cases (repo w) !! k = Some p).
  { intros k p Hkp. apply elem_of_map_to_list. by rewrite <- Hperm. }
  assert (Hptr : ∀ p, p ∈ its.*2 → is_Some (heap w !! p)).
  { intros p [[k p'] [-> Hkp]]%list_elem_of_fmap.
    apply (Hvalid k). by apply Hits. }
  pose proof (List_all_runs w Hvalid Hits) as HList. fold its in HList.
  set (w1 := {| env := env w; ticks := ticks w; ranges := S (ranges w);
                heap := heap w; repo := repo w |}) in HList.
  destruct (GetStats_loop_counts (heap w) its.*2
              (service.mkCounts 0 0 0 0 ∅ ∅) w1)
    as (n & w2 & Hloop & Hc & Hp & Ho & Hs & HT & Hh2 & Hr2 & He2 & Hg2);
    [done|done|].
  simpl in Hr2, He2, Hg2.
  set (sorted := sort_Slice (env w2) loc
                   (service.submitted_after (heap w2)) its.*2).
  assert (Hsorted : sorted ≡ₚ its.*2)
    by (unfold sorted; rewrite He2; apply Hsort).
  destruct (deref_all_runs (take 5 sorted) w2) as [recent Hrecent].
  { intros p Hin%subseteq_take. rewrite Hsorted in Hin. rewrite Hh2. auto. }
  assert (Hvalid2 : ∀ kp,
            kp ∈ range_order (env w2) (ranges w2)
                   (map_to_list (cases (repo w2))) →
            is_Some (heap w2 !! kp.2)).
  { intros [k p] Hkp. simpl. rewrite Hh2. apply (Hvalid k).
    apply elem_of_map_to_list. rewrite <- Hr2.
    rewrite He2 in Hkp. by rewrite (Hrange _ _) in Hkp. }
  set (w2' := {| env := env w2; ticks := ticks w2; ranges := S (ranges w2);
                 heap := heap w2; repo := repo w2 |}).
  destruct (GetDeadlines_loop_runs (heap w2) (λ _, True) _ 5 [] w2'
              eq_refl Hvalid2)
    as (ds & w3 & Hdl & _ & Hh3 & Hr3 & He3 & _); [done|done|].
  assert (Hlen : (length ds ≤ 5)%nat).
  { destruct (GetDeadlines_loop_length _ 5 [] w2' Hvalid2)
      as (ds' & w3' & Hdl' & Hle); [simpl; lia|].
    rewrite Hdl' in Hdl. injection Hdl as -> _. lia. }
  assert (Hdl5 : mock.GetDeadlines 5 w2 = Some (ds, w3)) by exact Hdl.
  simpl in Hr3, He3.
  unfold service.GetStats.
  rewrite (bind_run _ _ _ _ _ HList), (bind_run _ _ _ _ _ Hloop).
  rewrite (bind_run service.current_heap _ w2 (heap w2) w2 eq_refl).
  rewrite (bind_run (Slice _ _) _ w2 sorted w2 eq_refl).
  rewrite (bind_run _ _ _ _ _ Hrecent), (bind_run _ _ _ _ _ Hdl5).
  unfold bind, Slice, ret. eexists _, _. split; [reflexivity|].
  simpl.
  assert (Hall : Z.of_nat (length (filter (λ p, is_Some (heap w !! p))
                                     its.*2))
                 = Z.of_nat (size (cases (repo w)))).
  { rewrite filter_all by done.
    by rewrite length_fmap, Hperm, length_map_to_list. }
  pose proof (count_where_split (heap w) (has_status StatusClosed) its.*2)
    as Hsplit.
  assert (Hpm : its.*2 ≡ₚ (map_to_list (cases (repo w))).*2)
    by by rewrite Hperm.
  rewrite <- !(count_where_perm (heap w) _ _ _ Hpm).
  split; [congruence|]. split; [congruence|].
  split; [simpl in Hc; lia|]. split; [simpl in Ho; lia|].
  split; [simpl in Hp; lia|].
  split.
  { intros s. rewrite Hs. simpl. rewrite lookup_empty.
    by rewrite <- (count_where_perm (heap w) _ _ _ Hpm). }
  split.
  { intros T. rewrite HT. simpl. rewrite lookup_empty.
    by rewrite <- (count_where_perm (heap w) _ _ _ Hpm). }
  split.
  - rewrite (deref_all_length _ _ _ Hrecent), length_take.
    by rewrite Hsorted, length_fmap, Hperm, length_map_to_list.
  - by rewrite He3, He2, (Hsort _ _ _).
Qed.

End dashboard.

(** ** Creating and listing *)

Section create_and_list.

(** X12.  The deadline in calendar days, on the calendar of the zone
    the submission time carries and where the time of day of the
    submission exists on every later day.  For an Advisory Opinion
    request [Create] sets the due date 61 to 63 calendar days after the
    submission, for a Public Records Request 5 to 7 calendar days
    after it, at the time of day of the submission and never on a
    Saturday or a Sunday. *)
Theorem Create_deadline_window w c cv :
  heap w !! c = Some cv →
  day_steps_keep_clock w cv →
  ∃ r w' cv',
    service.Create c w = Some (r, w')
    ∧ heap w' !! c = Some cv'
    ∧ (Type_ cv = CaseTypeAdvisoryOpinion →
         ∃ k, time.wall (Local (env w)) (DueDate cv')
              = time.AddDays (time.wall (Local (env w)) (SubmittedAt cv)) k
              ∧ 61 ≤ k ≤ 63
              ∧ business_day (time.wall (Local (env w)) (DueDate cv'))
                = true)
    ∧ (Type_ cv = CaseTypePublicRecordsRequest →
         ∃ k, time.wall (Local (env w)) (DueDate cv')
              = time.AddDays (time.wall (Local (env w)) (SubmittedAt cv)) k
              ∧ 5 ≤ k ≤ 7
              ∧ business_day (time.wall (Local (env w)) (DueDate cv'))
                = true).
Proof.
  intros H Hkeeps.
  destruct (Create_runs w c cv H Hkeeps) as (due & Hdue & Hrun).
  eexists _, _, _. split; [exact Hrun|]. simpl.
  split; [apply lookup_insert_eq|].
  unfold day_steps_keep_clock in Hkeeps.
  split; intros HT; rewrite HT in *; simpl;
    specialize (Hkeeps ltac:(done)).
  - destruct (calculateBusinessDays_45 _ _ Hkeeps)
      as (k & due' & Hk & Hcalc & Hwall).
    specialize (Hdue 45 eq_refl).
    destruct (calculateBusinessDays_counts _ _ 45 due Hkeeps)
      as (k' & _ & _ & Hday); [lia|done|].
    assert (due' = due) as -> by congruence.
    exists k. split; [done|]. split; [lia|done].
  - destruct (calculateBusinessDays_5 _ _ Hkeeps)
      as (k & due' & Hk & Hcalc & Hwall).
    specialize (Hdue 5 eq_refl).
    destruct (calculateBusinessDays_counts _ _ 5 due Hkeeps)
      as (k' & _ & _ & Hday); [lia|done|].
    assert (due' = due) as -> by congruence.
    exists k. split; [done|]. split; [lia|done].
Qed.

(** X13.  A created case shows up in the list.  Listing, creating a case
    and listing again: the second list holds the new record, and it is
    longer by one than the first when the generated ID is new.  The ID
    is made of the clock reading alone, so a case created at a clock
    reading of an earlier one takes over its ID and its entry, and the
    list does not grow.  For a type with a statutory deadline the time
    of day of the submission is taken to exist, in the zone the
    submission time carries, on every later day. *)
Theorem Create_then_List w c cv :
  range_visits_all (env w) → no_dangling w → heap w !! c = Some cv →
  day_steps_keep_clock w cv →
  let id := fmt.Sprintf_case_d (time.UnixNano (clock (env w) (1 + ticks w))) in
  ∃ before w0 r w1 after w2,
    mock.List "" "" "" w = Some (before, w0)
    ∧ service.Create c w0 = Some (r, w1)
    ∧ mock.List "" "" "" w1 = Some (after, w2)
    ∧ cases (repo w1) !! id = Some c
    ∧ c ∈ after
    ∧ (cases (repo w) !! id = None → length after = S (length before))
    ∧ (is_Some (cases (repo w) !! id) → length after = length before).
Proof.
  intros Hrange Hvalid H Hkeeps id.
  assert (Hits : ∀ w', env w' = env w → ∀ k p,
            (k, p) ∈ range_order (env w') (ranges w')
                       (map_to_list (cases (repo w'))) ↔
            cases (repo w') !! k = Some p).
  { intros w' He k p. by rewrite He, (Hrange _ _), elem_of_map_to_list. }
  pose proof (List_all_runs w Hvalid (λ k p, proj1 (Hits w eq_refl k p)))
    as Hbefore.
  set (w0 := {| env := env w; ticks := ticks w; ranges := S (ranges w);
                heap := heap w; repo := repo w |}) in *.
  destruct (Create_runs w0 c cv H Hkeeps) as (due & _ & Hrun).
  set (w1 := {| env := env w0; ticks := 4 + ticks w0; ranges := ranges w0;
                heap := <[c := with_due ((λ _, due) <$>
                                   statutory_days (Type_ cv))
                                 (stamped w0 cv)]> (heap w0);
                repo := {| cases := <[ID (stamped w0 cv) := c]>
                                      (cases (repo w0));
                           counters := <[Type_ cv := incr (counter w0 (Type_ cv))]>
                                         (counters (repo w0)) |} |}) in *.
  assert (Hvalid1 : no_dangling w1).
  { intros k p Hk. simpl in *.
    destruct (decide (p = c)) as [->|Hne].
    - rewrite lookup_insert_eq. eauto.
    - rewrite lookup_insert_ne by done.
      apply lookup_insert_Some in Hk as [[_ <-]|[_ Hk]]; [done|].
      by apply (Hvalid k). }
  pose proof (List_all_runs w1 Hvalid1 (λ k p, proj1 (Hits w1 eq_refl k p)))
    as Hafter.
  eexists _, _, _, _, _, _.
  split; [exact Hbefore|]. split; [exact Hrun|]. split; [exact Hafter|].
  assert (Hcases : cases (repo w1) = <[id := c]> (cases (repo w)))
    by reflexivity.
  split; [rewrite Hcases; apply lookup_insert_eq|].
  split.
  - apply list_elem_of_fmap. exists (id, c). split; [done|].
    apply (Hits w1 eq_refl). rewrite Hcases. apply lookup_insert_eq.
  - rewrite !length_fmap.
    rewrite (Hrange (ranges w1) _ : range_order (env w1) _ _ ≡ₚ _).
    rewrite (Hrange (ranges w) _).
    rewrite !length_map_to_list, Hcases.
    split.
    + intros Hnone. by rewrite map_size_insert_None.
    + intros Hsome. by rewrite map_size_insert_Some.
Qed.

End create_and_list.

Section same_reading.

(** X14.  Two cases created at one clock reading.  The ID is
    ["case_" + UnixNano] of the second clock reading of [Create].
    When two calls read the same nanosecond there, both return nil,
    the second record takes the ID and the entry of the first, and the
    first record is left in no entry of the store.  For a type with a
    statutory deadline the time of day of the submission is taken to
    exist, in the zone the submission time carries, on every later
    day. *)
Theorem Create_twice_same_reading w c1 c2 cv1 cv2 :
  c1 ≠ c2 →
  heap w !! c1 = Some cv1 → heap w !! c2 = Some cv2 →
  (∀ k, cases (repo w) !! k ≠ Some c1) →
  time.UnixNano (clock (env w) (1 + ticks w))
  = time.UnixNano (clock (env w) (5 + ticks w)) →
  day_steps_keep_clock w cv1 → day_steps_keep_clock w cv2 →
  ∃ n1 w1 n2 w2 cv1' cv2',
    service.Create c1 w = Some ((n1, None), w1)
    ∧ service.Create c2 w1 = Some ((n2, None), w2)
    ∧ heap w2 !! c1 = Some cv1' ∧ heap w2 !! c2 = Some cv2'
    ∧ ID cv1' = ID cv2'
    ∧ cases (repo w2) !! ID cv1' = Some c2
    ∧ (∀ k, cases (repo w2) !! k ≠ Some c1)
    ∧ size (cases (repo w2)) = size (cases (repo w1)).
Proof.
  intros Hne H1 H2 Hnew Hsame Hkeeps1 Hkeeps2.
  destruct (Create_runs w c1 cv1 H1 Hkeeps1) as (due1 & _ & Hrun1).
  set (w1 := {| env := env w; ticks := 4 + ticks w; ranges := ranges w;
                heap := <[c1 := with_due ((λ _, due1) <$>
                                    statutory_days (Type_ cv1))
                                  (stamped w cv1)]> (heap w);
                repo := {| cases := <[ID (stamped w cv1) := c1]>
                                      (cases (repo w));
                           counters :=
                             <[Type_ cv1 := incr (counter w (Type_ cv1))]>
                               (counters (repo w)) |} |}) in *.
  assert (H2' : heap w1 !! c2 = Some cv2).
  { simpl. by rewrite lookup_insert_ne. }
  destruct (Create_runs w1 c2 cv2 H2' Hkeeps2) as (due2 & _ & Hrun2).
  assert (HID : ID (stamped w1 cv2) = ID (stamped w cv1)).
  { change (ID (stamped w1 cv2))
      with (fmt.Sprintf_case_d
              (time.UnixNano (clock (env w) (5 + ticks w)))).
    change (ID (stamped w cv1))
      with (fmt.Sprintf_case_d
              (time.UnixNano (clock (env w) (1 + ticks w)))).
    by rewrite Hsame. }
  eexists _, _, _, _, _, _.
  split; [exact Hrun1|]. split; [exact Hrun2|]. cbn [heap repo cases].
  split; [rewrite lookup_insert_ne by done; apply lookup_insert_eq|].
  split; [apply lookup_insert_eq|].
  destruct (with_due_fields ((λ _, due1) <$> statutory_days (Type_ cv1))
              (stamped w cv1)) as (-> & _).
  destruct (with_due_fields ((λ _, due2) <$> statutory_days (Type_ cv2))
              (stamped w1 cv2)) as (-> & _).
  split; [by rewrite HID|]. rewrite HID.
  change (cases (repo w1))
    with (<[ID (stamped w cv1) := c1]> (cases (repo w))).
  split; [apply lookup_insert_eq|]. split.
  - intros k. destruct (decide (k = ID (stamped w cv1))) as [->|Hk].
    + rewrite lookup_insert_eq. congruence.
    + rewrite !lookup_insert_ne by done. apply Hnew.
  - by rewrite map_size_insert_Some by (rewrite lookup_insert_eq; eauto).
Qed.

End same_reading.

(** ** All deadlines *)

Section all_deadlines.

Lemma count_where_0 h f l :
  count_where h f l = 0 →
  filter (λ p, from_option f false (h !! p) = true) l = [].
Proof.
  unfold count_where. destruct (filter _ l); [done|]. simpl. lia.
Qed.

Lemma count_where_nonneg h f l : 0 ≤ count_where h f l.
Proof. unfold count_where. lia. Qed.

(** The status of a deadline says whether the first clock reading has
    passed the due date. *)
Lemma deadline_status_overdue due w :
  ∃ status w',
    mock.deadline_status due w = Some (status, w')
    ∧ (status = "overdue"
       ↔ time.After (clock (env w) (ticks w)) due = true)
    ∧ heap w' = heap w ∧ repo w' = repo w ∧ env w' = env w
    ∧ (ticks w ≤ ticks w')%nat.
Proof.
  unfold mock.deadline_status, bind, Now, ret. simpl.
  destruct (time.After _ _).
  - eexists _, _. split; [reflexivity|]. simpl. repeat split; lia.
  - destruct (time.Hours_lt _ _); eexists _, _;
      (split; [reflexivity|]); simpl; repeat split; (done || lia).
Qed.

(** Below the limit the loop of [GetDeadlines] visits every case and
    appends an entry for each one that has a deadline. *)
Lemma GetDeadlines_loop_all (h : gmap loc Case) its :
  ∀ limit deadlines w,
  heap w = h →
  (∀ kp, kp ∈ its → is_Some (h !! kp.2)) →
  Z.of_nat (length deadlines) + count_where h has_deadline its.*2 ≤ limit →
  ∃ new w',
    mock.GetDeadlines_loop its limit deadlines w
    = Some (deadlines ++ new, w')
    ∧ Forall2 (deadline_for (env w) (ticks w) h) new
        (filter (λ p, from_option has_deadline false (h !! p) = true) its.*2)
    ∧ heap w' = h ∧ repo w' = repo w.
Proof.
  induction its as [|[k c] its IH]; intros limit ds w Hh Hvalid Hlen.
  - exists [], w. rewrite app_nil_r. by repeat split.
  - destruct (Hvalid (k, c)) as [cv Hcv]; [by left|]. simpl in Hcv.
    assert (Hcv' : heap w !! c = Some cv) by by rewrite Hh.
    change (((k, c) :: its).*2) with (c :: its.*2) in *.
    rewrite (count_where_cons h _ c cv _ Hcv) in Hlen.
    pose proof (count_where_nonneg h has_deadline its.*2) as Hnn.
    cbn [mock.GetDeadlines_loop]. unfold bind at 1, deref. rewrite Hcv'.
    change (negb (time.IsZero (DueDate cv))
            && negb (bool_decide (Status cv = StatusClosed)))
      with (has_deadline cv).
    rewrite filter_cons.
    destruct (decide _) as [Hd|Hd]; rewrite Hcv in Hd; simpl in Hd.
    + rewrite Hd in Hlen |- *.
      destruct (deadline_status_overdue (DueDate cv) w)
        as (st & w1 & Hrun & Hst & Hh1 & Hr1 & He1 & Ht1).
      assert (Hstep :
        (status <- mock.deadline_status (DueDate cv) ;;
         ret (ds ++ [mock.deadline_of cv status])) w
        = Some (ds ++ [mock.deadline_of cv st], w1)).
      { unfold bind. by rewrite Hrun. }
      rewrite (bind_run _ _ _ _ _ Hstep).
      assert (Hfor : deadline_for (env w) (ticks w) h
                       (mock.deadline_of cv st) c)
        by by exists cv, st, (ticks w).
      destruct (limit <=? _) eqn:Hstop.
      * apply Z.leb_le in Hstop. rewrite length_app in Hstop.
        simpl in Hstop. rewrite count_where_0 by lia.
        exists [mock.deadline_of cv st], w1.
        split; [done|]. split; [by repeat constructor|].
        split; congruence.
      * destruct (IH limit (ds ++ [mock.deadline_of cv st]) w1)
          as (new & w' & Hloop & Hnew & Hh' & Hr'); [congruence| |..].
        { intros kp ?. apply Hvalid. by right. }
        { rewrite length_app. simpl. lia. }
        exists (mock.deadline_of cv st :: new), w'.
        split; [by rewrite Hloop, <- app_assoc|].
        split; [|split; congruence].
        constructor; [done|]. rewrite He1 in Hnew.
        eapply Forall2_impl; [exact Hnew|].
        intros d p (cv' & st' & n & ? & ? & ? & ?).
        exists cv', st', n. repeat split; auto with lia; tauto.
    + assert (has_deadline cv = false) as Hno
        by by destruct (has_deadline cv).
      rewrite Hno in Hlen |- *.
      unfold bind at 1, ret at 1.
      destruct (limit <=? _) eqn:Hstop.
      * apply Z.leb_le in Hstop. rewrite count_where_0 by lia.
        exists [], w. rewrite app_nil_r. by repeat split.
      * destruct (IH limit ds w) as (new & w' & Hloop & Hnew & Hh' & Hr');
          [done| |lia|].
        { intros kp ?. apply Hvalid. by right. }
        by exists new, w'.
Qed.

(** X15.  All deadlines.  When at most 100 stored cases have a due date
    and are not closed, [GetAllDeadlines] returns one entry for each
    of them, carrying the ID, the number and the due date of the case,
    and changes nothing in the store. *)
Theorem GetAllDeadlines_complete w :
  range_visits_all (env w) → no_dangling w →
  count_where (heap w) has_deadline (map_to_list (cases (repo w))).*2
  ≤ 100 →
  ∃ deadlines w',
    mock.GetAllDeadlines w = Some (deadlines, w')
    ∧ heap w' = heap w ∧ repo w' = repo w
    ∧ Z.of_nat (length deadlines)
      = count_where (heap w) has_deadline
          (map_to_list (cases (repo w))).*2
    ∧ (∀ p cv, stored w p cv → has_deadline cv = true →
         ∃ d, d ∈ deadlines
              ∧ Deadline.CaseID d = ID cv
              ∧ Deadline.CaseNumber d = CaseNumber cv
              ∧ Deadline.DueDate d = DueDate cv).
Proof.
  intros Hrange Hvalid Hcount.
  set (its := range_order (env w) (ranges w)
                (map_to_list (cases (repo w)))).
  assert (Hperm : its ≡ₚ map_to_list (cases (repo w))) by apply Hrange.
  assert (Hpm : its.*2 ≡ₚ (map_to_list (cases (repo w))).*2)
    by by rewrite Hperm.
  rewrite <- (count_where_perm _ _ _ _ Hpm) in Hcount |- *.
  set (w1 := {| env := env w; ticks := ticks w; ranges := S (ranges w);
                heap := heap w; repo := repo w |}).
  destruct (GetDeadlines_loop_all (heap w) its 100 [] w1)
    as (new & w' & Hloop & Hnew & Hh' & Hr'); [done| |simpl; lia|].
  { intros [k p] Hkp. simpl. apply (Hvalid k).
    apply elem_of_map_to_list. by rewrite <- Hperm. }
  exists new, w'. split; [exact Hloop|]. split; [done|]. split; [done|].
  split.
  - unfold count_where. by rewrite (Forall2_length _ _ _ Hnew).
  - intros p cv [[k Hk] Hcv] Hd.
    assert (Hin : p ∈ filter (λ p, from_option has_deadline false
                                     (heap w !! p) = true) its.*2).
    { apply list_elem_of_filter. split; [by rewrite Hcv|].
      rewrite Hpm. apply list_elem_of_fmap. exists (k, p).
      split; [done|]. by apply elem_of_map_to_list. }
    apply list_elem_of_lookup in Hin as [i Hi].
    destruct (Forall2_lookup_r _ _ _ _ _ Hnew Hi)
      as (d & Hd' & cv' & st & n & Hcv' & -> & _).
    assert (cv' = cv) as -> by congruence.
    exists (mock.deadline_of cv st). split; [|done].
    by apply list_elem_of_lookup_2 in Hd'.
Qed.

(** X16.  A published case with a past due date.  [IsOverdue] answers
    false for it, so the overdue count of the dashboard leaves it out;
    the deadline list still holds an entry for it, and the entry is
    marked [overdue]. *)
Theorem published_case_listed_overdue w p cv :
  range_visits_all (env w) → no_dangling w →
  count_where (heap w) has_deadline (map_to_list (cases (repo w))).*2
  ≤ 100 →
  stored w p cv →
  Status cv = StatusPublished → DueDate cv ≠ time.zero →
  (∀ n : nat, (ticks w ≤ n)%nat → DueDate cv < clock (env w) n) →
  (∃ w', case.IsOverdue p w = Some (false, w'))
  ∧ ∃ deadlines w' d,
      mock.GetAllDeadlines w = Some (deadlines, w')
      ∧ d ∈ deadlines
      ∧ Deadline.CaseID d = ID cv
      ∧ Deadline.Status d = "overdue".
Proof.
  intros Hrange Hvalid Hcount [[k Hk] Hcv] Hpub Hdue Hpast. split.
  - destruct (IsOverdue_runs w p cv Hcv) as (w' & Hrun & _).
    exists w'. rewrite Hrun. do 2 f_equal.
    unfold overdue_at. rewrite Hpub. simpl. by rewrite !andb_false_r.
  - set (its := range_order (env w) (ranges w)
                  (map_to_list (cases (repo w)))).
    assert (Hperm : its ≡ₚ map_to_list (cases (repo w))) by apply Hrange.
    assert (Hpm : its.*2 ≡ₚ (map_to_list (cases (repo w))).*2)
      by by rewrite Hperm.
    rewrite <- (count_where_perm _ _ _ _ Hpm) in Hcount.
    set (w1 := {| env := env w; ticks := ticks w; ranges := S (ranges w);
                  heap := heap w; repo := repo w |}).
    destruct (GetDeadlines_loop_all (heap w) its 100 [] w1)
      as (new & w' & Hloop & Hnew & _); [done| |simpl; lia|].
    { intros [k' p'] Hkp. simpl. apply (Hvalid k').
      apply elem_of_map_to_list. by rewrite <- Hperm. }
    assert (Hd : has_deadline cv = true).
    { unfold has_deadline. rewrite Hpub. simpl. rewrite andb_true_r.
      apply negb_true_iff, Z.eqb_neq. exact Hdue. }
    assert (Hin : p ∈ filter (λ p, from_option has_deadline false
                                     (heap w !! p) = true) its.*2).
    { apply list_elem_of_filter. split; [by rewrite Hcv|].
      rewrite Hpm. apply list_elem_of_fmap. exists (k, p).
      split; [done|]. by apply elem_of_map_to_list. }
    apply list_elem_of_lookup in Hin as [i Hi].
    destruct (Forall2_lookup_r _ _ _ _ _ Hnew Hi)
      as (d & Hd' & cv' & st & n & Hcv' & -> & Hn & Hst).
    assert (cv' = cv) as -> by congruence.
    exists new, w', (mock.deadline_of cv st).
    split; [exact Hloop|]. split; [by apply list_elem_of_lookup_2 in Hd'|].
    split; [done|]. simpl. apply Hst. apply Z.ltb_lt.
    apply (Hpast n). exact Hn.
Qed.

End all_deadlines.

(** ** The lock of [NextCaseNumber] *)

Module lock_proofs.
Import concurrent cprops progress concurrent_proofs.

Lemma work_left_insert l : ∀ i c c',
  l !! i = Some c →
  (work_left (<[i := c']> l) + moves_left (at_pc c)
   = work_left l + moves_left (at_pc c'))%nat.
Proof.
  induction l as [|x l IH]; intros [|i] c c' H; simplify_eq/=; [lia|].
  pose proof (IH i c c' H). lia.
Qed.

Lemma work_left_0 l : work_left l = O ↔ Forall returned l.
Proof.
  induction l as [|c l IH]; simpl.
  - split; [constructor|done].
  - rewrite Forall_cons, <- IH. unfold returned. split.
    + intros H. destruct (at_pc c) eqn:E; simpl in H; try lia. eauto.
    + intros [[s Hs] Hl]. rewrite Hs. simpl. lia.
Qed.

(** Every move takes the moving call one step closer to its return. *)
Lemma step_work_left i year st st' :
  step i year st = Some st' →
  work_left (calls st) = S (work_left (calls st')).
Proof.
  unfold step. destruct (calls st !! i) as [[T p]|] eqn:Hi; [|done].
  destruct p as [| | |y|s|s]; try destruct (locked st); try done;
    intros [= <-]; simpl;
    match goal with
    | |- context [<[i := ?c']> _] =>
        pose proof (work_left_insert _ i _ c' Hi) as Hw
    end; simpl in Hw; lia.
Qed.

Lemma lock_inv_initial st : initial st → lock_inv st.
Proof.
  intros [Hfree Hall].
  assert (Hpc : ∀ i c, calls st !! i = Some c → at_pc c = AtLock).
  { intros i c Hc. by apply (proj1 (Forall_lookup _ _) Hall i c). }
  split.
  - intros _ i c Hc. by rewrite (Hpc i c Hc).
  - congruence.
  - intros i j ci cj Hi _ Hci. by rewrite (Hpc i ci Hi) in Hci.
Qed.

Lemma lookup_moved_eq (l : list call) i c c' :
  l !! i = Some c → <[i := c']> l !! i = Some c'.
Proof.
  intros H. apply list_lookup_insert_eq. by apply lookup_lt_Some in H.
Qed.

Lemma lock_inv_step st i year st' :
  lock_inv st → step i year st = Some st' → lock_inv st'.
Proof.
  intros Hinv Hstep. unfold step in Hstep.
  destruct (calls st !! i) as [[T p]|] eqn:Hi; [|done].
  assert (Hinside : ∀ p' l', critical p = true → critical p' = true →
            locked st = true → l' = true →
            lock_inv (mkState l' (counters st)
                        (<[i := mkCall T p']> (calls st)))).
  { intros p' l' Hp Hp' Hl ->. split; simpl.
    - done.
    - intros _. exists i, (mkCall T p'). split; [|done].
      by apply (lookup_moved_eq _ _ _ _ Hi).
    - intros j k cj ck Hj Hk Hcj Hck.
      assert (∀ m cm, <[i := mkCall T p']> (calls st) !! m = Some cm →
                      critical (at_pc cm) = true → m = i) as Hall.
      { intros m cm Hm Hcm.
        apply lookup_moved in Hm as [[-> ->]|[Hne Hm]]; [done|].
        by apply (lock_excl _ Hinv m i cm _ Hm Hi). }
      rewrite (Hall j cj Hj Hcj), (Hall k ck Hk Hck). done. }
  assert (Hheld : critical p = true → locked st = true).
  { intros Hp. destruct (locked st) eqn:Hl; [done|].
    pose proof (lock_free _ Hinv Hl i _ Hi). simpl in *. congruence. }
  destruct p as [| | |y|s|s].
  - (* Lock *)
    destruct (locked st) eqn:Hfree; [done|]. injection Hstep as <-.
    split; simpl.
    + done.
    + intros _. exists i, (mkCall T AtIncr). split; [|done].
      by apply (lookup_moved_eq _ _ _ _ Hi).
    + intros j k cj ck Hj Hk Hcj Hck.
      assert (∀ m cm, <[i := mkCall T AtIncr]> (calls st) !! m = Some cm →
                      critical (at_pc cm) = true → m = i) as Hall.
      { intros m cm Hm Hcm.
        apply lookup_moved in Hm as [[-> ->]|[Hne Hm]]; [done|].
        pose proof (lock_free _ Hinv Hfree m cm Hm). congruence. }
      rewrite (Hall j cj Hj Hcj), (Hall k ck Hk Hck). done.
  - injection Hstep as <-.
    destruct (Hinside AtNow (locked st)) as [Hf Hh He]; auto.
    split; simpl in *; auto.
  - injection Hstep as <-. apply Hinside; auto.
  - injection Hstep as <-. apply Hinside; auto.
  - (* Unlock *)
    injection Hstep as <-.
    assert (∀ m cm, <[i := mkCall T (Returned s)]> (calls st) !! m = Some cm →
                    critical (at_pc cm) = false) as Hall.
    { intros m cm Hm.
      apply lookup_moved in Hm as [[-> ->]|[Hne Hm]]; [done|].
      destruct (critical (at_pc cm)) eqn:Hcm; [|done].
      destruct Hne. by apply (lock_excl _ Hinv m i cm _ Hm Hi). }
    split; simpl.
    + by intros _.
    + done.
    + intros j k cj ck Hj Hk Hcj. rewrite (Hall j cj Hj) in Hcj. done.
  - done.
Qed.

Lemma lock_inv_reachable st0 st :
  reachable st0 st → lock_inv st0 → lock_inv st.
Proof.
  induction 1 as [|st i y st' _ IH Hstep]; intros H0; [done|].
  eapply lock_inv_step; [by apply IH|exact Hstep].
Qed.

(** While a call has moves left, some call can move. *)
Lemma some_call_moves st :
  lock_inv st → work_left (calls st) ≠ O →
  ∃ i, ∀ year, is_Some (step i year st).
Proof.
  intros Hinv Hwork.
  destruct (locked st) eqn:Hl.
  - destruct (lock_held _ Hinv Hl) as (i & [T p] & Hi & Hc).
    exists i. intros year. unfold step. rewrite Hi.
    destruct p; try done; eauto.
  - assert (Hex : ∃ i c, calls st !! i = Some c ∧ moves_left (at_pc c) ≠ O).
    { clear -Hwork. induction (calls st) as [|c l IH]; [done|].
      simpl in Hwork.
      destruct (decide (moves_left (at_pc c) = O)) as [H0|H0].
      - destruct IH as (i & c' & Hi & Hc'); [lia|].
        by exists (S i), c'.
      - by exists O, c. }
    destruct Hex as (i & [T p] & Hi & Hm).
    pose proof (lock_free _ Hinv Hl i _ Hi) as Hc. simpl in *.
    exists i. intros year. unfold step. rewrite Hi.
    destruct p; try done. rewrite Hl. eauto.
Qed.

Lemma completes (n : nat) : ∀ st,
  lock_inv st → work_left (calls st) = n →
  ∀ year : Z, ∃ schedule st',
    run schedule st = Some st'
    ∧ length schedule = n
    ∧ Forall returned (calls st')
    ∧ locked st' = false.
Proof.
  induction n as [|n IH]; intros st Hinv Hwork year.
  - exists [], st. split; [done|]. split; [done|].
    split; [by apply work_left_0|].
    destruct (locked st) eqn:Hl; [|done].
    destruct (lock_held _ Hinv Hl) as (i & c & Hi & Hc).
    apply work_left_0 in Hwork.
    destruct (proj1 (Forall_lookup _ _) Hwork i c Hi) as [s Hs].
    by rewrite Hs in Hc.
  - destruct (some_call_moves st Hinv) as [i Hi]; [lia|].
    destruct (Hi year) as [st1 Hstep].
    pose proof (step_work_left _ _ _ _ Hstep) as Hless.
    destruct (IH st1) as (schedule & st' & Hrun & Hlen & Hall & Hfree).
    { by eapply lock_inv_step. }
    { lia. }
    { exact year. }
    exists ((i, year) :: schedule), st'. simpl. rewrite Hstep.
    split; [done|]. split; [by rewrite Hlen|]. done.
Qed.

(** X17.  Mutual exclusion.  However the calls are interleaved, at most
    one of them is between [Lock] and [Unlock], and the lock is held
    exactly while one is. *)
Theorem mutual_exclusion st0 st :
  initial st0 → reachable st0 st →
  (∀ i j ci cj,
     calls st !! i = Some ci → calls st !! j = Some cj →
     critical (at_pc ci) = true → critical (at_pc cj) = true → i = j)
  ∧ (locked st = true ↔
     ∃ i c, calls st !! i = Some c ∧ critical (at_pc c) = true).
Proof.
  intros Hinit Hreach.
  pose proof (lock_inv_reachable _ _ Hreach (lock_inv_initial _ Hinit))
    as Hinv.
  split; [apply (lock_excl _ Hinv)|]. split; [apply (lock_held _ Hinv)|].
  intros (i & c & Hi & Hc). destruct (locked st) eqn:Hl; [done|].
  pose proof (lock_free _ Hinv Hl i c Hi). congruence.
Qed.

(** X18.  No deadlock.  From every state the interleaved calls can reach,
    all calls can be run to their return, in as many moves as the
    calls have left; every move a schedule makes is one of these, so
    no schedule is longer than five moves a call. *)
Theorem calls_complete st0 st :
  initial st0 → reachable st0 st →
  (∃ schedule st',
     run schedule st = Some st'
     ∧ length schedule = work_left (calls st)
     ∧ Forall returned (calls st')
     ∧ locked st' = false)
  ∧ (∀ schedule st',
       run schedule st = Some st' →
       (length schedule + work_left (calls st')
        = work_left (calls st))%nat)
  ∧ work_left (calls st0) = (5 * length (calls st0))%nat.
Proof.
  intros Hinit Hreach.
  pose proof (lock_inv_reachable _ _ Hreach (lock_inv_initial _ Hinit))
    as Hinv.
  split; [exact (completes _ st Hinv eq_refl 0)|]. split.
  - clear. intros schedule. revert st.
    induction schedule as [|[i y] rest IH]; intros st st'; simpl.
    + by intros [= <-].
    + destruct (step i y st) as [st1|] eqn:Hstep; [|done].
      intros Hrun. pose proof (IH _ _ Hrun).
      pose proof (step_work_left _ _ _ _ Hstep). lia.
  - destruct Hinit as [_ Hall]. clear -Hall.
    induction Hall as [|c l Hc _ IH]; [done|].
    simpl. rewrite Hc. simpl. lia.
Qed.

End lock_proofs.

Module counter_proofs.
Import concurrent cprops progress concurrent_proofs.

Lemma drawn_insert T l : ∀ i c c',
  l !! i = Some c →
  drawn T (<[i := c']> l) =
  drawn T l
  - (if bool_decide (caseType c = T) && incremented (at_pc c) then 1 else 0)
  + (if bool_decide (caseType c' = T) && incremented (at_pc c')
     then 1 else 0).
Proof.
  induction l as [|x l IH]; intros [|i] c c' H; simplify_eq/=; [lia|].
  rewrite (IH i c c' H). lia.
Qed.

Lemma types_insert (l : list call) i c c' :
  l !! i = Some c → caseType c' = caseType c →
  caseType <$> <[i := c']> l = caseType <$> l.
Proof.
  intros Hi HT. rewrite list_fmap_insert, HT.
  apply list_insert_id. by rewrite list_lookup_fmap, Hi.
Qed.

Lemma calls_of_types T : ∀ l l' : list call,
  caseType <$> l = caseType <$> l' → calls_of T l = calls_of T l'.
Proof.
  unfold calls_of.
  induction l as [|c l IH]; intros [|c' l'] H; simplify_eq/=; [done|].
  specialize (IH l' H0). rewrite !filter_cons.
  rewrite H. destruct (decide _); simpl; lia.
Qed.

Lemma drawn_returned T l : Forall returned l → drawn T l = calls_of T l.
Proof.
  unfold calls_of. induction 1 as [|c l [s Hs] _ IH]; [done|].
  simpl. rewrite filter_cons, IH, Hs. simpl. rewrite andb_true_r.
  destruct (decide (caseType c = T)).
  - rewrite bool_decide_eq_true_2 by done. simpl length. lia.
  - rewrite bool_decide_eq_false_2 by done. lia.
Qed.

Lemma drawn_initial T l :
  Forall (λ c, at_pc c = AtLock) l → drawn T l = 0.
Proof.
  induction 1 as [|c l Hc _ IH]; [done|].
  simpl. rewrite Hc, IH. simpl. rewrite andb_false_r. done.
Qed.

(** A move adds one to a counter exactly when the moving call passes
    [r.counters[caseType]++]. *)
Lemma step_counts c0 st i year st' :
  inv c0 st → step i year st = Some st' →
  (∀ T, ctr (counters st') T - drawn T (calls st')
        = ctr (counters st) T - drawn T (calls st))
  ∧ caseType <$> calls st' = caseType <$> calls st.
Proof.
  intros Hinv Hstep. unfold step in Hstep.
  destruct (calls st !! i) as [[T p]|] eqn:Hi; [|done].
  destruct p as [| | |y|s|s]; try destruct (locked st); try done;
    injection Hstep as <-; simpl;
    (split; [|by apply (types_insert _ _ _ _ Hi)]); intros T';
    match goal with
    | |- context [<[i := ?c']> (calls st)] =>
        rewrite (drawn_insert T' _ i _ c' Hi)
    end; simpl; rewrite ?andb_true_r, ?andb_false_r; try lia.
  all: fold (ctr (counters st) T);
    destruct (inv_bound _ _ Hinv T) as [Hlo Hhi];
    pose proof (pending_insert _ i _ (mkCall T AtNow) Hi) as Hpend;
    pose proof (pending_nonneg (<[i := mkCall T AtNow]> (calls st))) as Hnn;
    simpl in Hpend;
    rewrite incr_no_overflow by (unfold MaxInt in *; lia);
    rewrite ctr_insert; destruct (decide (T = T')) as [->|Hne];
    [rewrite bool_decide_eq_true_2 by done
    |rewrite bool_decide_eq_false_2 by done]; lia.
Qed.

(** X19.  No lost update.  As long as the counters cannot reach the
    largest [int], however the calls are interleaved, the counter of a
    type has advanced by the number of calls for it that have passed
    the increment; once all calls have returned it has advanced by the
    number of calls for the type. *)
Theorem no_lost_update st0 st T :
  initial st0 →
  (∀ T, 0 ≤ ctr (counters st0) T
        ∧ ctr (counters st0) T + Z.of_nat (length (calls st0)) ≤ MaxInt) →
  reachable st0 st →
  ctr (counters st) T = ctr (counters st0) T + drawn T (calls st)
  ∧ (Forall returned (calls st) →
     ctr (counters st) T = ctr (counters st0) T + calls_of T (calls st0)).
Proof.
  intros Hinit Hb Hreach.
  pose proof (inv_initial st0 Hinit Hb) as Hinv0.
  assert (Hcount : (∀ T, ctr (counters st) T - drawn T (calls st)
                         = ctr (counters st0) T)
                   ∧ caseType <$> calls st = caseType <$> calls st0).
  { clear T. induction Hreach as [|st i y st' Hreach [IH1 IH2] Hstep].
    - split; [|done]. intros T.
      rewrite (drawn_initial T _ (proj2 Hinit)). lia.
    - destruct (step_counts _ _ _ _ _
                  (inv_reachable _ _ Hreach Hinv0) Hstep) as [H1 H2].
      split; [|congruence]. intros T. rewrite H1. apply IH1. }
  destruct Hcount as [H1 H2]. specialize (H1 T).
  split; [lia|]. intros Hall.
  rewrite <- (calls_of_types T _ _ H2), <- (drawn_returned T _ Hall). lia.
Qed.

End counter_proofs.

(** ** Sessions *)

Section sessions.

Ltac auth_run :=
  cbv beta iota zeta delta
    [auth.LoginStaff auth.Logout auth.bind auth.GetByEmail
     auth.generateToken auth.Now auth.Create auth.Delete auth.ret];
  cbn [auth.env auth.ticks auth.draws auth.ranges auth.users auth.sessions].

Lemma GetByID_loop_ID its id u :
  auth.GetByID_loop its id = Some u → User.ID u = id.
Proof.
  induction its as [|[k v] its IH]; [done|]. simpl.
  destruct (bool_decide (User.ID v = id)) eqn:Hv; [|done].
  intros [= <-]. by apply bool_decide_eq_true in Hv.
Qed.

Lemma GetByID_loop_elem its id u :
  auth.GetByID_loop its id = Some u → ∃ k, (k, u) ∈ its.
Proof.
  induction its as [|[k v] its IH]; [done|]. simpl.
  destruct (bool_decide (User.ID v = id)).
  - intros [= <-]. exists k. by left.
  - intros H. destruct (IH H) as [k' Hk']. exists k'. by right.
Qed.

(** [GetByID] never returns nil, and the user it returns carries the
    ID asked for. *)
Lemma GetByID_runs id w :
  ∃ u,
    auth.GetByID id w
    = (Some u,
       auth.mkWorld (auth.env w) (auth.ticks w) (auth.draws w)
         (S (auth.ranges w)) (auth.users w) (auth.sessions w))
    ∧ User.ID u = id
    ∧ ((∃ k, (k, u) ∈ auth.range_order (auth.env w) (auth.ranges w)
                         (map_to_list (auth.users w)))
       ∨ u = auth.mock_user id "demo@ncoe.nv.gov").
Proof.
  unfold auth.GetByID.
  destruct (auth.GetByID_loop _ id) as [u|] eqn:Hloop.
  - exists u. split; [done|]. split; [by eapply GetByID_loop_ID|].
    left. by eapply GetByID_loop_elem.
  - eexists. split; [done|]. split; [done|]. by right.
Qed.

(** A session in the store is accepted up to and including the instant
    it expires at, and deleted when it is presented later. *)
Lemma ValidateSession_stored w token s :
  auth.sessions w !! token = Some s →
  let now := auth.clock (auth.env w) (auth.ticks w) in
  (now ≤ Session.ExpiresAt s →
     ∃ u w',
       auth.ValidateSession token w = ((Some u, None), w')
       ∧ User.ID u = Session.UserID s
       ∧ ((∃ k, (k, u) ∈ auth.range_order (auth.env w) (auth.ranges w)
                            (map_to_list (auth.users w)))
          ∨ u = auth.mock_user (Session.UserID s) "demo@ncoe.nv.gov")
       ∧ auth.sessions w' = auth.sessions w
       ∧ auth.users w' = auth.users w)
  ∧ (Session.ExpiresAt s < now →
     auth.ValidateSession token w
     = ((None, Some "session expired"),
        auth.mkWorld (auth.env w) (S (auth.ticks w)) (auth.draws w)
          (auth.ranges w) (auth.users w)
          (delete token (auth.sessions w)))).
Proof.
  intros Hs now.
  unfold auth.ValidateSession, auth.bind, auth.GetByToken, auth.IsExpired,
    auth.bind, auth.Now, auth.ret, time.After.
  rewrite Hs. fold now. split.
  - intros Hle. assert ((Session.ExpiresAt s <? now) = false) as ->
      by (apply Z.ltb_ge; lia).
    set (w1 := auth.mkWorld _ _ _ _ _ _).
    destruct (GetByID_runs (Session.UserID s) w1) as (u & -> & HID & Hu).
    by exists u, (auth.mkWorld (auth.env w1) (auth.ticks w1) (auth.draws w1)
                 (S (auth.ranges w1)) (auth.users w1) (auth.sessions w1)).
  - intros Hlt. assert ((Session.ExpiresAt s <? now) = true) as ->
      by (apply Z.ltb_lt; lia).
    reflexivity.
Qed.

Lemma ValidateSession_unknown w token :
  auth.sessions w !! token = None →
  auth.ValidateSession token w = ((None, Some "invalid session"), w).
Proof.
  intros Hs.
  unfold auth.ValidateSession, auth.bind, auth.GetByToken, auth.ret.
  by rewrite Hs.
Qed.

(** [LoginStaff] stores the session it returns under its token, after
    two clock readings. *)
Lemma LoginStaff_runs w email password :
  ∃ s w',
    auth.LoginStaff email password w = ((Some s, None), w')
    ∧ (∀ password',
         auth.LoginStaff email password' w = ((Some s, None), w'))
    ∧ auth.sessions w' = <[Session.Token s := s]> (auth.sessions w)
    ∧ auth.env w' = auth.env w ∧ auth.ticks w' = S (S (auth.ticks w))
    ∧ auth.ranges w' = auth.ranges w ∧ auth.users w' = auth.users w
    ∧ Session.UserID s
      = from_option User.ID "demo_user" (auth.users w !! email)
    ∧ Session.ExpiresAt s
      = auth.Add (auth.clock (auth.env w) (auth.ticks w))
          (30 * auth.Minute).
Proof.
  auth_run. eexists _, _. split; [reflexivity|]. split; [reflexivity|].
  cbn. repeat split. by destruct (auth.users w !! email).
Qed.

(** X20.  Logging in and presenting the token.  [LoginStaff] returns a
    session for every e-mail address and every password, and the
    password has no part in the result.  The session expires thirty
    minutes after the first clock reading of the call.  Presented right
    away, its token is accepted when the clock has not passed the
    expiry, with a user whose ID is the one the session names;
    otherwise the call answers [session expired] and the session is
    gone from the store. *)
Theorem login_then_validate w email password :
  ∃ s w',
    auth.LoginStaff email password w = ((Some s, None), w')
    ∧ (∀ password',
         auth.LoginStaff email password' w = ((Some s, None), w'))
    ∧ Session.UserID s
      = from_option User.ID "demo_user" (auth.users w !! email)
    ∧ Session.ExpiresAt s
      = auth.Add (auth.clock (auth.env w) (auth.ticks w))
          (30 * auth.Minute)
    ∧ (auth.clock (auth.env w') (auth.ticks w') ≤ Session.ExpiresAt s →
       ∃ u w'',
         auth.ValidateSession (Session.Token s) w' = ((Some u, None), w'')
         ∧ User.ID u = Session.UserID s
         ∧ auth.sessions w'' = auth.sessions w')
    ∧ (Session.ExpiresAt s < auth.clock (auth.env w') (auth.ticks w') →
       ∃ w'',
         auth.ValidateSession (Session.Token s) w'
         = ((None, Some "session expired"), w'')
         ∧ auth.sessions w'' !! Session.Token s = None).
Proof.
  destruct (LoginStaff_runs w email password)
    as (s & w' & Hrun & Hany & Hss & _ & _ & _ & _ & HID & Hexp).
  exists s, w'. split; [done|]. split; [done|]. split; [done|].
  split; [done|].
  assert (Hs : auth.sessions w' !! Session.Token s = Some s)
    by (rewrite Hss; apply lookup_insert_eq).
  destruct (ValidateSession_stored w' _ s Hs) as [Hvalid Hexpired].
  split.
  - intros Hle. destruct (Hvalid Hle) as (u & w'' & Hv & Hu & _ & Hss' & _).
    by exists u, w''.
  - intros Hlt. rewrite (Hexpired Hlt). eexists. split; [reflexivity|].
    apply lookup_delete_eq.
Qed.

(** X21.  The outcomes of [ValidateSession].  A token without a session in
    the store is answered [invalid session], and nothing changes; the
    token of a session whose expiry lies before the clock reading is
    answered [session expired], and the session is deleted; every
    other token is answered with a user and no error.  The answer
    [user not found] is never given, since [GetByID] returns a stand-in
    for an unknown ID. *)
Theorem ValidateSession_outcomes w token :
  ∃ r w',
    auth.ValidateSession token w = (r, w')
    ∧ r.2 ≠ Some "user not found"
    ∧ auth.users w' = auth.users w
    ∧ (∀ t, t ≠ token → auth.sessions w' !! t = auth.sessions w !! t)
    ∧ (auth.sessions w !! token = None →
         r = (None, Some "invalid session") ∧ w' = w)
    ∧ (∀ s, auth.sessions w !! token = Some s →
         Session.ExpiresAt s < auth.clock (auth.env w) (auth.ticks w) →
         r = (None, Some "session expired")
         ∧ auth.sessions w' !! token = None)
    ∧ (∀ s, auth.sessions w !! token = Some s →
         auth.clock (auth.env w) (auth.ticks w) ≤ Session.ExpiresAt s →
         ∃ u, r = (Some u, None) ∧ User.ID u = Session.UserID s
              ∧ auth.sessions w' !! token = Some s).
Proof.
  destruct (auth.sessions w !! token) as [s|] eqn:Hs.
  - destruct (ValidateSession_stored w token s Hs) as [Hvalid Hexpired].
    destruct (Z.le_gt_cases (auth.clock (auth.env w) (auth.ticks w))
                (Session.ExpiresAt s)) as [Hle|Hlt].
    + destruct (Hvalid Hle) as (u & w' & Hrun & HID & _ & Hss & Hus).
      exists (Some u, None), w'. split; [done|]. split; [done|].
      split; [done|]. split; [intros t _; by rewrite Hss|].
      split; [done|]. split.
      * intros s' [= <-] ?. lia.
      * intros s' [= <-] _. exists u. by rewrite Hss.
    + rewrite (Hexpired Hlt). eexists _, _. split; [reflexivity|]. simpl.
      split; [done|]. split; [done|].
      split; [intros t Hne; by rewrite lookup_delete_ne|].
      split; [done|]. split.
      * intros s' _ _. split; [done|]. apply lookup_delete_eq.
      * intros s' [= <-] ?. lia.
  - rewrite (ValidateSession_unknown w token Hs).
    eexists _, _. split; [reflexivity|]. simpl.
    split; [done|]. split; [done|]. split; [done|]. by repeat split.
Qed.

(** X22.  Logging out.  [Logout] never fails; afterwards the token is
    answered [invalid session], also when it was unknown before, and
    every other session is still in the store. *)
Theorem Logout_invalidates w token :
  ∃ w',
    auth.Logout token w = (None, w')
    ∧ auth.ValidateSession token w' = ((None, Some "invalid session"), w')
    ∧ (∀ t, t ≠ token → auth.sessions w' !! t = auth.sessions w !! t)
    ∧ auth.users w' = auth.users w.
Proof.
  auth_run.
  eexists. split; [reflexivity|]. simpl.
  split; [apply ValidateSession_unknown; apply lookup_delete_eq|].
  split; [|done]. intros t Hne. by apply lookup_delete_ne.
Qed.

(** X23.  In the repositories as [NewRepositories] builds them, whoever
    logs in, with any e-mail address and any password, is an
    administrator: the user [ValidateSession] returns for the new
    session may manage cases and users, publish and view audit logs. *)
Theorem seeded_login_is_admin e email password :
  (∀ n l, auth.range_order e n l ≡ₚ l) →
  auth.clock e 2 ≤ auth.Add (auth.clock e 0) (30 * auth.Minute) →
  ∃ s w' u w'',
    auth.LoginStaff email password (auth.NewRepositories e)
    = ((Some s, None), w')
    ∧ auth.ValidateSession (Session.Token s) w' = ((Some u, None), w'')
    ∧ User.Role u = User.RoleAdmin
    ∧ User.CanManageCases u = true ∧ User.CanPublish u = true
    ∧ User.CanViewAuditLogs u = true ∧ User.CanManageUsers u = true.
Proof.
  intros Hrange Hclock.
  destruct (LoginStaff_runs (auth.NewRepositories e) email password)
    as (s & w' & Hrun & _ & Hss & He & Ht & _ & Hus & _ & Hexp).
  simpl in He, Ht, Hus, Hexp.
  assert (Hs : auth.sessions w' !! Session.Token s = Some s)
    by (rewrite Hss; apply lookup_insert_eq).
  destruct (ValidateSession_stored w' _ s Hs) as [Hvalid _].
  destruct Hvalid as (u & w'' & Hv & _ & Hu & _).
  { by rewrite He, Ht, Hexp. }
  exists s, w', u, w''. split; [done|]. split; [done|].
  assert (User.Role u = User.RoleAdmin) as Hrole.
  { destruct Hu as [[k Hk]| ->]; [|done].
    rewrite He, (Hrange _ _), Hus in Hk. apply elem_of_map_to_list in Hk.
    apply lookup_insert_Some in Hk as [[_ <-]|[_ Hk]]; [done|].
    by rewrite lookup_empty in Hk. }
  unfold User.CanManageCases, User.CanPublish, User.CanViewAuditLogs,
    User.CanManageUsers. rewrite Hrole. done.
Qed.

End sessions.

Section tokens_and_roles.

Lemma hex_digit_in d :
  0 ≤ d < 16 →
  hex.digit d ∈ list_ascii_of_string "0123456789abcdef".
Proof.
  intros Hd.
  assert (d = 0 ∨ d = 1 ∨ d = 2 ∨ d = 3 ∨ d = 4 ∨ d = 5 ∨ d = 6 ∨ d = 7
          ∨ d = 8 ∨ d = 9 ∨ d = 10 ∨ d = 11 ∨ d = 12 ∨ d = 13 ∨ d = 14
          ∨ d = 15) as Hcases by lia.
  repeat (destruct Hcases as [->|Hcases]); try subst d;
    cbv [hex.digit list_ascii_of_string]; simpl;
    rewrite !elem_of_cons; tauto.
Qed.

Lemma EncodeToString_format b :
  Forall (λ x, 0 ≤ x < 256) b →
  String.length (hex.EncodeToString b) = (2 * length b)%nat
  ∧ Forall (λ c, c ∈ list_ascii_of_string "0123456789abcdef")
      (list_ascii_of_string (hex.EncodeToString b)).
Proof.
  induction 1 as [|x b Hx _ [IHlen IHall]]; [by split|].
  change (hex.EncodeToString (x :: b))
    with (String (hex.digit (x / 16))
            (String (hex.digit (x mod 16)) (hex.EncodeToString b))).
  split; [simpl; rewrite IHlen; lia|].
  change (Forall (λ c, c ∈ list_ascii_of_string "0123456789abcdef")
            (hex.digit (x / 16) :: hex.digit (x mod 16)
             :: list_ascii_of_string (hex.EncodeToString b))).
  apply Forall_cons. split.
  { apply hex_digit_in.
    split; [apply Z.div_pos; lia|apply Z.div_lt_upper_bound; lia]. }
  apply Forall_cons. split; [|done].
  apply hex_digit_in, Z.mod_pos_bound. lia.
Qed.

(** X24.  The tokens.  Whatever bytes [crypto/rand] delivers, a token is
    made of 64 characters, each of them one of [0-9a-f]; drawing a
    token changes neither the users nor the sessions. *)
Theorem generateToken_format w :
  ∃ token w',
    auth.generateToken w = (token, w')
    ∧ String.length token = 64%nat
    ∧ Forall (λ c, c ∈ list_ascii_of_string "0123456789abcdef")
        (list_ascii_of_string token)
    ∧ auth.users w' = auth.users w ∧ auth.sessions w' = auth.sessions w.
Proof.
  eexists _, _. split; [reflexivity|].
  set (b := (λ i, auth.entropy (auth.env w) (auth.draws w) i mod 256)
              <$> seq 0 32).
  destruct (EncodeToString_format b) as [Hlen Hall].
  { apply Forall_fmap, Forall_forall. intros i _. simpl.
    apply Z.mod_pos_bound. lia. }
  split; [|by split].
  rewrite Hlen. unfold b. by rewrite length_fmap, length_seq.
Qed.

(** X25.  The permissions nest.  Who may manage users may do everything
    else; who may publish may manage cases; managing cases together
    with viewing audit logs is open to the administrator only; and a
    read-only user, like a user with a role outside the seven, may do
    none of the four. *)
Theorem permissions_nest u :
  (User.CanManageUsers u = true →
     User.CanPublish u = true ∧ User.CanViewAuditLogs u = true
     ∧ User.CanManageCases u = true)
  ∧ (User.CanPublish u = true → User.CanManageCases u = true)
  ∧ (User.CanManageCases u = true → User.CanViewAuditLogs u = true →
     User.CanManageUsers u = true)
  ∧ (User.Role u ∉ [User.RoleAdmin; User.RoleCommissionCounsel;
                    User.RoleStaffAttorney; User.RoleInvestigator;
                    User.RoleAdminStaff; User.RoleAuditor] →
     User.CanManageCases u = false ∧ User.CanPublish u = false
     ∧ User.CanViewAuditLogs u = false ∧ User.CanManageUsers u = false).
Proof.
  unfold User.CanManageUsers, User.CanPublish, User.CanViewAuditLogs,
    User.CanManageCases.
  split; [|split; [|split]].
  - intros ->%bool_decide_eq_true. done.
  - intros [->%bool_decide_eq_true| ->%bool_decide_eq_true]%orb_true_iff;
      done.
  - rewrite !orb_true_iff, !bool_decide_eq_true.
    intros Hc [?|Ha]; [done|]. rewrite Ha in Hc.
    by destruct Hc as [[[[?|?]|?]|?]|?].
  - rewrite !not_elem_of_cons. intros (? & ? & ? & ? & ? & ? & _).
    rewrite !bool_decide_eq_false_2 by done. done.
Qed.

End tokens_and_roles.

(** ** Instances of the properties above *)

Section more_witnesses.

Lemma demo_world_no_dangling : no_dangling demo.world.
Proof. exact (well_keyed_no_dangling _ demo_world_well_keyed). Qed.

(** A pointer none of the listed entries holds is not stored. *)
Lemma not_stored_check w c :
  forallb (λ kp : string * loc, negb (bool_decide (kp.2 = c)))
    (map_to_list (cases (repo w))) = true →
  ∀ k, cases (repo w) !! k ≠ Some c.
Proof.
  rewrite forallb_forall. intros H k Hk.
  apply elem_of_map_to_list, list_elem_of_In in Hk.
  specialize (H _ Hk). simpl in H.
  by rewrite bool_decide_eq_true_2 in H.
Qed.

Lemma calculateBusinessDays_spec_witness :
  let zone := demo.Pacific in
  let start := demo.friday_evening in
  let days := 5 in
  keeps_clock zone start
  ∧ ∃ due,
      service.calculateBusinessDays zone start days = Some due
      ∧ (days ≤ 0 → due = start)
      ∧ (0 < days →
           business_days_after zone start days due
           ∧ time.AddDays (time.wall zone start) days
             ≤ time.wall zone due
             ≤ time.AddDays (time.wall zone start) (3 * days)).
Proof.
  intros zone start days.
  assert (Hkeeps : keeps_clock zone start).
  { apply Pacific_keeps_clock. apply Z.leb_le. vm_compute. reflexivity. }
  split; [exact Hkeeps|].
  exact (calculateBusinessDays_spec zone start days Hkeeps).
Defined.

Lemma with_ao_request_day_steps :
  day_steps_keep_clock (demo.with_record demo.ao_request demo.world).2
    demo.ao_request.
Proof.
  apply Pacific_day_steps; [reflexivity|].
  apply Z.leb_le. vm_compute. reflexivity.
Qed.

Lemma store_Update_spec_witness :
  let w := demo.world in
  let c := default 1%positive (cases (repo w) !! "1") in
  let cv := default demo.ao_request (heap w !! c) in
  heap w !! c = Some cv
  ∧ (cases (repo w) !! ID cv = None →
       mock.Update c w = Some (Some (fmt.Errorf_case_not_found (ID cv)), w))
  ∧ (is_Some (cases (repo w) !! ID cv) →
     ∃ w',
       mock.Update c w = Some (None, w')
       ∧ cases (repo w') !! ID cv = Some c
       ∧ dom (cases (repo w')) = dom (cases (repo w))
       ∧ (∀ id, id ≠ ID cv → cases (repo w') !! id = cases (repo w) !! id)
       ∧ heap w' = heap w
       ∧ rt.counters (repo w') = rt.counters (repo w)).
Proof.
  intros w c cv.
  assert (H : heap w !! c = Some cv) by (vm_compute; reflexivity).
  split; [exact H|]. exact (store_Update_spec w c cv H).
Defined.

Lemma GetByCaseNumber_spec_witness :
  let w := demo.world in
  let num := "EC-2024-018" in
  (range_visits_all (env w) ∧ no_dangling w)
  ∧ ∃ r w',
      mock.GetByCaseNumber num w = Some (r, w')
      ∧ heap w' = heap w ∧ repo w' = repo w
      ∧ (∀ p, r = Some p → ∃ cv, stored w p cv ∧ CaseNumber cv = num)
      ∧ (r = None ↔ ∀ p cv, stored w p cv → CaseNumber cv ≠ num).
Proof.
  intros w num.
  split; [split; [exact demo_world_range|exact demo_world_no_dangling]|].
  exact (GetByCaseNumber_spec w num demo_world_range demo_world_no_dangling).
Defined.

Lemma GetRecent_spec_witness :
  let w := demo.world in
  let limit := 0 in
  range_visits_all (env w)
  ∧ ∃ result w',
      mock.GetRecent limit w = Some (result, w')
      ∧ heap w' = heap w ∧ repo w' = repo w
      ∧ result = take (Z.to_nat (Z.max 1 limit))
                   (range_order (env w) (ranges w)
                      (map_to_list (cases (repo w)))).*2
      ∧ Z.of_nat (length result)
        = Z.min (Z.max 1 limit) (Z.of_nat (size (cases (repo w))))
      ∧ (∀ p, p ∈ result → ∃ k, cases (repo w) !! k = Some p).
Proof.
  intros w limit. split; [exact demo_world_range|].
  exact (GetRecent_spec w limit demo_world_range).
Defined.

Lemma GetDeadlines_capped_witness :
  let w := demo.world in
  let limit := 5 in
  (range_visits_all (env w) ∧ no_dangling w)
  ∧ (∃ deadlines w',
       mock.GetDeadlines limit w = Some (deadlines, w')
       ∧ Z.of_nat (length deadlines) ≤ Z.max 1 limit)
  ∧ (∃ deadlines w',
       mock.GetAllDeadlines w = Some (deadlines, w')
       ∧ (length deadlines ≤ 100)%nat).
Proof.
  intros w limit.
  split; [split; [exact demo_world_range|exact demo_world_no_dangling]|].
  exact (GetDeadlines_capped w limit demo_world_range demo_world_no_dangling).
Defined.

Lemma Create_keeps_well_keyed_witness :
  let p := (demo.with_record demo.ao_request demo.world).1 in
  let w := (demo.with_record demo.ao_request demo.world).2 in
  (well_keyed w ∧ heap w !! p = Some demo.ao_request
   ∧ (∀ k, cases (repo w) !! k ≠ Some p)
   ∧ day_steps_keep_clock w demo.ao_request)
  ∧ ∃ r w', service.Create p w = Some (r, w') ∧ well_keyed w'.
Proof.
  intros p w.
  assert (Hwk : well_keyed w)
    by (apply well_keyedb_sound; vm_compute; reflexivity).
  assert (H : heap w !! p = Some demo.ao_request) by (vm_compute; reflexivity).
  assert (Hnew : ∀ k, cases (repo w) !! k ≠ Some p)
    by (apply not_stored_check; vm_compute; reflexivity).
  split; [exact (conj Hwk (conj H (conj Hnew with_ao_request_day_steps)))|].
  exact (Create_keeps_well_keyed w p demo.ao_request Hwk H Hnew
           with_ao_request_day_steps).
Defined.

Lemma UpdateStatus_frame_witness :
  let w := demo.world in
  let caseID := "3" in
  let status := StatusPendingHearing in
  well_keyed w
  ∧ ∃ err w',
      service.UpdateStatus caseID status w = Some (err, w')
      ∧ well_keyed w'
      ∧ repo w' = repo w
      ∧ (∀ p, cases (repo w) !! caseID ≠ Some p →
              heap w' !! p = heap w !! p).
Proof.
  intros w caseID status. split; [exact demo_world_well_keyed|].
  exact (UpdateStatus_frame w caseID status demo_world_well_keyed).
Defined.

Lemma UpdateStatus_error_after_write_witness :
  let stray := set_ID "case_0" demo.ao_request in
  let c := (demo.with_record stray demo.world).1 in
  let w := default demo.world
             (snd <$> (mock.Create c ;;; assign c (set_ID "case_9"))
                        (demo.with_record stray demo.world).2) in
  let cv := set_ID "case_9" stray in
  (cases (repo w) !! "case_0" = Some c ∧ heap w !! c = Some cv
   ∧ cases (repo w) !! ID cv = None)
  ∧ ∃ w',
      service.UpdateStatus "case_0" StatusClosed w
      = Some (Some (fmt.Errorf_case_not_found (ID cv)), w')
      ∧ heap w' !! c
        = Some (set_UpdatedAt (clock (env w) (ticks w))
                  (set_Status StatusClosed cv))
      ∧ repo w' = repo w.
Proof.
  intros stray c w cv.
  assert (Hc : cases (repo w) !! "case_0" = Some c)
    by (vm_compute; reflexivity).
  assert (Hcv : heap w !! c = Some cv) by (vm_compute; reflexivity).
  assert (Hnone : cases (repo w) !! ID cv = None)
    by (vm_compute; reflexivity).
  split; [exact (conj Hc (conj Hcv Hnone))|].
  exact (UpdateStatus_error_after_write w "case_0" StatusClosed c cv
           Hc Hcv Hnone).
Defined.

Lemma NextCaseNumber_format_witness :
  let w := demo.world in
  let T := CaseTypeEthicsAcknowledgment in
  (T ∈ [CaseTypeAdvisoryOpinion; CaseTypeEthicsComplaint;
        CaseTypeEthicsAcknowledgment; CaseTypePublicRecordsRequest]
   ∧ 1000 ≤ time.Year (Local (env w)) (clock (env w) (ticks w)) ≤ 9999
   ∧ 0 ≤ counter w T < MaxInt)
  ∧ ∃ s w',
      mock.NextCaseNumber T w = Some (s, w')
      ∧ counter w' T = counter w T + 1
      ∧ (case_number_format s = true ↔ counter w' T ≤ 999).
Proof.
  intros w T.
  assert (HT : T ∈ [CaseTypeAdvisoryOpinion; CaseTypeEthicsComplaint;
                    CaseTypeEthicsAcknowledgment;
                    CaseTypePublicRecordsRequest])
    by (rewrite !elem_of_cons; right; right; by left).
  assert (Hy : 1000 ≤ time.Year (Local (env w)) (clock (env w) (ticks w)) ≤ 9999)
    by (split; apply Z.leb_le; vm_compute; reflexivity).
  assert (Hc : 0 ≤ counter w T < MaxInt)
    by (split; [apply Z.leb_le|apply Z.ltb_lt]; vm_compute; reflexivity).
  split; [exact (conj HT (conj Hy Hc))|].
  exact (NextCaseNumber_format w T HT Hy Hc).
Defined.

End more_witnesses.

Section more_witnesses_2.

Lemma GetStats_counts_witness :
  let w := demo.world in
  (range_visits_all (env w) ∧ sort_rearranges (env w) ∧ no_dangling w)
  ∧ ∃ stats w',
      service.GetStats w = Some (stats, w')
      ∧ heap w' = heap w ∧ repo w' = repo w
      ∧ TotalClosed stats
        = count_where (heap w) (has_status StatusClosed)
            (map_to_list (cases (repo w))).*2 + 150
      ∧ TotalOpen stats
        = Z.of_nat (size (cases (repo w)))
          - count_where (heap w) (has_status StatusClosed)
              (map_to_list (cases (repo w))).*2 + 32
      ∧ TotalPending stats
        = count_where (heap w) (has_status StatusSubmitted)
            (map_to_list (cases (repo w))).*2
      ∧ (∀ s, default 0 (ByStatus stats !! s)
              = count_where (heap w) (has_status s)
                  (map_to_list (cases (repo w))).*2)
      ∧ (∀ T, default 0 (ByType stats !! T)
              = count_where (heap w) (has_type T)
                  (map_to_list (cases (repo w))).*2)
      ∧ length (RecentCases stats) = (5 `min` size (cases (repo w)))%nat
      ∧ (length (UpcomingDeadlines stats) ≤ 5)%nat.
Proof.
  intros w.
  split; [exact (conj demo_world_range
                   (conj insertion_sort_perm demo_world_no_dangling))|].
  exact (GetStats_counts w demo_world_range insertion_sort_perm
           demo_world_no_dangling).
Defined.

Lemma Create_deadline_window_witness :
  let p := (demo.with_record demo.ao_request demo.world).1 in
  let w := (demo.with_record demo.ao_request demo.world).2 in
  let cv := demo.ao_request in
  let zone := Local (env w) in
  (heap w !! p = Some cv ∧ day_steps_keep_clock w cv)
  ∧ ∃ r w' cv',
      service.Create p w = Some (r, w')
      ∧ heap w' !! p = Some cv'
      ∧ (Type_ cv = CaseTypeAdvisoryOpinion →
           ∃ k, time.wall zone (DueDate cv')
                = time.AddDays (time.wall zone (SubmittedAt cv)) k
                ∧ 61 ≤ k ≤ 63
                ∧ business_day (time.wall zone (DueDate cv')) = true)
      ∧ (Type_ cv = CaseTypePublicRecordsRequest →
           ∃ k, time.wall zone (DueDate cv')
                = time.AddDays (time.wall zone (SubmittedAt cv)) k
                ∧ 5 ≤ k ≤ 7
                ∧ business_day (time.wall zone (DueDate cv')) = true).
Proof.
  intros p w cv zone.
  assert (H : heap w !! p = Some cv) by (vm_compute; reflexivity).
  split; [exact (conj H with_ao_request_day_steps)|].
  exact (Create_deadline_window w p cv H with_ao_request_day_steps).
Defined.

Lemma with_ao_request_no_dangling :
  no_dangling (demo.with_record demo.ao_request demo.world).2.
Proof.
  apply well_keyed_no_dangling, well_keyedb_sound. vm_compute. reflexivity.
Qed.

Lemma Create_then_List_witness :
  let p := (demo.with_record demo.ao_request demo.world).1 in
  let w := (demo.with_record demo.ao_request demo.world).2 in
  let cv := demo.ao_request in
  (range_visits_all (env w) ∧ no_dangling w ∧ heap w !! p = Some cv
   ∧ day_steps_keep_clock w cv)
  ∧ let id := fmt.Sprintf_case_d
                (time.UnixNano (clock (env w) (1 + ticks w))) in
    ∃ before w0 r w1 after w2,
      mock.List "" "" "" w = Some (before, w0)
      ∧ service.Create p w0 = Some (r, w1)
      ∧ mock.List "" "" "" w1 = Some (after, w2)
      ∧ cases (repo w1) !! id = Some p
      ∧ p ∈ after
      ∧ (cases (repo w) !! id = None → length after = S (length before))
      ∧ (is_Some (cases (repo w) !! id) → length after = length before).
Proof.
  intros p w cv.
  assert (Hrange : range_visits_all (env w)) by (intros n l; reflexivity).
  assert (H : heap w !! p = Some cv) by (vm_compute; reflexivity).
  split; [exact (conj Hrange (conj with_ao_request_no_dangling
                                 (conj H with_ao_request_day_steps)))|].
  exact (Create_then_List w p cv Hrange with_ao_request_no_dangling H
           with_ao_request_day_steps).
Defined.

Lemma Create_twice_same_reading_witness :
  let c1 := (demo.with_record demo.ao_request demo.still_world).1 in
  let wa := (demo.with_record demo.ao_request demo.still_world).2 in
  let c2 := (demo.with_record demo.dated_complaint wa).1 in
  let w := (demo.with_record demo.dated_complaint wa).2 in
  let cv1 := demo.ao_request in
  let cv2 := demo.dated_complaint in
  (c1 ≠ c2 ∧ heap w !! c1 = Some cv1 ∧ heap w !! c2 = Some cv2
   ∧ (∀ k, cases (repo w) !! k ≠ Some c1)
   ∧ time.UnixNano (clock (env w) (1 + ticks w))
     = time.UnixNano (clock (env w) (5 + ticks w))
   ∧ day_steps_keep_clock w cv1 ∧ day_steps_keep_clock w cv2)
  ∧ ∃ n1 w1 n2 w2 cv1' cv2',
      service.Create c1 w = Some ((n1, None), w1)
      ∧ service.Create c2 w1 = Some ((n2, None), w2)
      ∧ heap w2 !! c1 = Some cv1' ∧ heap w2 !! c2 = Some cv2'
      ∧ ID cv1' = ID cv2'
      ∧ cases (repo w2) !! ID cv1' = Some c2
      ∧ (∀ k, cases (repo w2) !! k ≠ Some c1)
      ∧ size (cases (repo w2)) = size (cases (repo w1)).
Proof.
  intros c1 wa c2 w cv1 cv2.
  assert (Hne : c1 ≠ c2) by (intros Heq; vm_compute in Heq; discriminate Heq).
  assert (H1 : heap w !! c1 = Some cv1) by (vm_compute; reflexivity).
  assert (H2 : heap w !! c2 = Some cv2) by (vm_compute; reflexivity).
  assert (Hnew : ∀ k, cases (repo w) !! k ≠ Some c1)
    by (apply not_stored_check; vm_compute; reflexivity).
  assert (Hsame : time.UnixNano (clock (env w) (1 + ticks w))
                  = time.UnixNano (clock (env w) (5 + ticks w)))
    by reflexivity.
  assert (Hk1 : day_steps_keep_clock w cv1).
  { apply Pacific_day_steps; [reflexivity|].
    apply Z.leb_le. vm_compute. reflexivity. }
  assert (Hk2 : day_steps_keep_clock w cv2).
  { apply Pacific_day_steps; [reflexivity|].
    apply Z.leb_le. vm_compute. reflexivity. }
  split; [exact (conj Hne (conj H1 (conj H2 (conj Hnew
                   (conj Hsame (conj Hk1 Hk2))))))|].
  exact (Create_twice_same_reading w c1 c2 cv1 cv2 Hne H1 H2 Hnew Hsame
           Hk1 Hk2).
Defined.

Lemma GetAllDeadlines_complete_witness :
  let w := demo.world in
  (range_visits_all (env w) ∧ no_dangling w
   ∧ count_where (heap w) has_deadline (map_to_list (cases (repo w))).*2
     ≤ 100)
  ∧ ∃ deadlines w',
      mock.GetAllDeadlines w = Some (deadlines, w')
      ∧ heap w' = heap w ∧ repo w' = repo w
      ∧ Z.of_nat (length deadlines)
        = count_where (heap w) has_deadline
            (map_to_list (cases (repo w))).*2
      ∧ (∀ p cv, stored w p cv → has_deadline cv = true →
           ∃ d, d ∈ deadlines
                ∧ Deadline.CaseID d = ID cv
                ∧ Deadline.CaseNumber d = CaseNumber cv
                ∧ Deadline.DueDate d = DueDate cv).
Proof.
  intros w.
  assert (Hcount : count_where (heap w) has_deadline
                     (map_to_list (cases (repo w))).*2 ≤ 100)
    by (apply Z.leb_le; vm_compute; reflexivity).
  split; [exact (conj demo_world_range
                   (conj demo_world_no_dangling Hcount))|].
  exact (GetAllDeadlines_complete w demo_world_range
           demo_world_no_dangling Hcount).
Defined.

Lemma published_case_listed_overdue_witness :
  let w := default demo.world
             (snd <$> service.UpdateStatus "6" StatusPublished demo.world) in
  let p := default 1%positive (cases (repo w) !! "6") in
  let cv := default demo.ao_request (heap w !! p) in
  (range_visits_all (env w) ∧ no_dangling w
   ∧ count_where (heap w) has_deadline (map_to_list (cases (repo w))).*2
     ≤ 100
   ∧ stored w p cv
   ∧ Status cv = StatusPublished ∧ DueDate cv ≠ time.zero
   ∧ (∀ n : nat, (ticks w ≤ n)%nat → DueDate cv < clock (env w) n))
  ∧ (∃ w', case.IsOverdue p w = Some (false, w'))
  ∧ ∃ deadlines w' d,
      mock.GetAllDeadlines w = Some (deadlines, w')
      ∧ d ∈ deadlines
      ∧ Deadline.CaseID d = ID cv
      ∧ Deadline.Status d = "overdue".
Proof.
  intros w p cv.
  assert (Hrange : range_visits_all (env w)) by (intros n l; reflexivity).
  assert (Hvalid : no_dangling w).
  { apply well_keyed_no_dangling, well_keyedb_sound.
    vm_compute. reflexivity. }
  assert (Hcount : count_where (heap w) has_deadline
                     (map_to_list (cases (repo w))).*2 ≤ 100)
    by (apply Z.leb_le; vm_compute; reflexivity).
  assert (Hstored : stored w p cv).
  { split; [exists "6"|]; vm_compute; reflexivity. }
  assert (Hpub : Status cv = StatusPublished) by (vm_compute; reflexivity).
  assert (Hdue : DueDate cv = time.AddDays demo.t0 (-2))
    by (vm_compute; reflexivity).
  assert (Hclock : ∀ n, clock (env w) n = demo.t0 + Z.of_nat n * 1000000)
    by (intros n; reflexivity).
  assert (Hnz : DueDate cv ≠ time.zero).
  { rewrite Hdue. clear. intros H. vm_compute in H. discriminate H. }
  assert (Hpast : ∀ n : nat, (ticks w ≤ n)%nat → DueDate cv < clock (env w) n).
  { intros n _. rewrite Hdue, Hclock. clear.
    unfold time.AddDays. change time.nsPerDay with 86400000000000.
    generalize demo.t0. intros t. lia. }
  split; [exact (conj Hrange (conj Hvalid (conj Hcount (conj Hstored
                   (conj Hpub (conj Hnz Hpast))))))|].
  exact (published_case_listed_overdue w p cv Hrange Hvalid Hcount Hstored
           Hpub Hnz Hpast).
Defined.

Lemma seeded_login_is_admin_witness :
  let e := auth.env_at demo.t0 in
  let email := "nobody@example.org" in
  let password := "" in
  ((∀ n l, auth.range_order e n l ≡ₚ l)
   ∧ auth.clock e 2 ≤ auth.Add (auth.clock e 0) (30 * auth.Minute))
  ∧ ∃ s w' u w'',
      auth.LoginStaff email password (auth.NewRepositories e)
      = ((Some s, None), w')
      ∧ auth.ValidateSession (Session.Token s) w' = ((Some u, None), w'')
      ∧ User.Role u = User.RoleAdmin
      ∧ User.CanManageCases u = true ∧ User.CanPublish u = true
      ∧ User.CanViewAuditLogs u = true ∧ User.CanManageUsers u = true.
Proof.
  intros e email password.
  assert (Hrange : ∀ n l, auth.range_order e n l ≡ₚ l)
    by (intros n l; reflexivity).
  assert (Hclock : auth.clock e 2
                   ≤ auth.Add (auth.clock e 0) (30 * auth.Minute))
    by (apply Z.leb_le; vm_compute; reflexivity).
  split; [exact (conj Hrange Hclock)|].
  exact (seeded_login_is_admin e email password Hrange Hclock).
Defined.

End more_witnesses_2.

Module lock_witnesses.
Import concurrent cprops progress concurrent_proofs.

Lemma two_callers_initial : initial two_callers.
Proof. split; [reflexivity|]. repeat constructor. Qed.

Lemma two_callers_bound T :
  0 ≤ ctr (counters two_callers) T
  ∧ ctr (counters two_callers) T + Z.of_nat (length (calls two_callers))
    ≤ MaxInt.
Proof.
  unfold ctr, two_callers. simpl.
  destruct (decide (T = CaseTypeEthicsAcknowledgment)) as [->|Hne].
  - rewrite lookup_singleton_eq. simpl. unfold MaxInt. lia.
  - rewrite lookup_singleton_ne by done. simpl. unfold MaxInt. lia.
Qed.

Lemma midway_reachable : reachable two_callers midway.
Proof.
  apply (run_reachable [(0%nat, 2024); (0%nat, 2024)]).
  vm_compute. reflexivity.
Qed.

Lemma mutual_exclusion_witness :
  let st0 := two_callers in
  let st := midway in
  (initial st0 ∧ reachable st0 st)
  ∧ (∀ i j ci cj,
       calls st !! i = Some ci → calls st !! j = Some cj →
       critical (at_pc ci) = true → critical (at_pc cj) = true → i = j)
  ∧ (locked st = true ↔
     ∃ i c, calls st !! i = Some c ∧ critical (at_pc c) = true).
Proof.
  intros st0 st.
  split; [exact (conj two_callers_initial midway_reachable)|].
  exact (lock_proofs.mutual_exclusion st0 st two_callers_initial
           midway_reachable).
Defined.

Lemma calls_complete_witness :
  let st0 := two_callers in
  let st := midway in
  (initial st0 ∧ reachable st0 st)
  ∧ (∃ schedule st',
       run schedule st = Some st'
       ∧ length schedule = work_left (calls st)
       ∧ Forall returned (calls st')
       ∧ locked st' = false)
  ∧ (∀ schedule st',
       run schedule st = Some st' →
       (length schedule + work_left (calls st')
        = work_left (calls st))%nat)
  ∧ work_left (calls st0) = (5 * length (calls st0))%nat.
Proof.
  intros st0 st.
  split; [exact (conj two_callers_initial midway_reachable)|].
  exact (lock_proofs.calls_complete st0 st two_callers_initial
           midway_reachable).
Defined.

Lemma no_lost_update_witness :
  let st0 := two_callers in
  let st := midway in
  let T := CaseTypeEthicsAcknowledgment in
  (initial st0
   ∧ (∀ T, 0 ≤ ctr (counters st0) T
           ∧ ctr (counters st0) T + Z.of_nat (length (calls st0)) ≤ MaxInt)
   ∧ reachable st0 st)
  ∧ ctr (counters st) T = ctr (counters st0) T + drawn T (calls st)
  ∧ (Forall returned (calls st) →
     ctr (counters st) T = ctr (counters st0) T + calls_of T (calls st0)).
Proof.
  intros st0 st T.
  split; [exact (conj two_callers_initial
                   (conj two_callers_bound midway_reachable))|].
  exact (counter_proofs.no_lost_update st0 st T two_callers_initial
           two_callers_bound midway_reachable).
Defined.

End lock_witnesses.
